(** * Basketball tournament simulator (src/basket.js): model and properties

    A shallow embedding of the [Team] and [Tournament] classes of
    [src/basket.js].

    Conventions of the embedding:
    - JavaScript numbers that the program only ever uses as integer counters
      (wins, losses, points, scores) are [Z]; rankings, lambdas and the
      values of [Math.random()] are exact rationals [Q], so the rounding of
      binary64 arithmetic is not represented;
    - [Math.exp] is an operation of the host environment and is taken as a
      parameter (class [Math]);
    - [Math.random()] reads the next element of a sequence of draws carried
      in the state; running out of the given finite prefix is the outcome
      [MoreDraws], which is not a result of the program;
    - [console.log] lines that report match outcomes are appended to a list
      of events carried in the state; the purely tabular displays
      (standings, hats, friendly matches) are not represented;
    - the objects of a group ([results] in [playGroupStage]) live in a list
      and are designated by their index, so that two references to one
      object stay aliased;
    - [this.groupStageMatches] and [this.teamForms], objects used as maps,
      are [gmap]s keyed by name, and [usedTeams] is a [gset] of names; the
      properties an object inherits from [Object.prototype] are not
      represented, so a team name is taken not to be one of them. *)

From Stdlib Require Import ZArith QArith Qround Lia Lqa Permutation.
From stdpp Require Import gmap strings list fin_maps sorting.

Local Open Scope Z_scope.

(** ** class Team *)

Record Team : Type := mkTeam {
  name : string;
  ranking : Q;
  wins : Z;
  losses : Z;
  points : Z;
  scored : Z;
  conceded : Z
}.

Module Tournament_static.
Definition WIN_POINTS : Z := 2.
Definition LOSS_POINTS : Z := 1.
Definition TEAM_RANK_LIMIT : nat := 8.
End Tournament_static.
Import Tournament_static.

(** [new Team(name, ranking)] *)
Definition new_Team (n : string) (r : Q) : Team :=
  {| name := n; ranking := r; wins := 0; losses := 0; points := 0;
     scored := 0; conceded := 0 |}.

Definition updateScores (s c : Z) (t : Team) : Team :=
  {| name := name t; ranking := ranking t; wins := wins t;
     losses := losses t; points := points t;
     scored := scored t + s; conceded := conceded t + c |}.

Definition updatePoints (p : Z) (t : Team) : Team :=
  if p =? WIN_POINTS
  then {| name := name t; ranking := ranking t; wins := wins t + 1;
          losses := losses t; points := points t + p;
          scored := scored t; conceded := conceded t |}
  else {| name := name t; ranking := ranking t; wins := wins t;
          losses := losses t + 1; points := points t + p;
          scored := scored t; conceded := conceded t |}.

Definition goalDifference (t : Team) : Z := scored t - conceded t.

(** ** Standings: updateMatchResults and the sort

    [team1] and [team2] are references into [results]: the four method
    calls are applied one after the other to the object each reference
    designates. *)

Definition updateMatchResults (results : list Team) (team1 team2 : nat)
    (score1 score2 : Z) : list Team :=
  let results := alter (updateScores score1 score2) team1 results in
  let results := alter (updateScores score2 score1) team2 results in
  if score1 >? score2 then
    let results := alter (updatePoints WIN_POINTS) team1 results in
    alter (updatePoints LOSS_POINTS) team2 results
  else if score2 >? score1 then
    let results := alter (updatePoints WIN_POINTS) team2 results in
    alter (updatePoints LOSS_POINTS) team1 results
  else results.

(** The comparator of [sortTeamsByPerformance] and [rankTeamsForKnockout]:
    [b.points - a.points || b.goalDifference - a.goalDifference ||
     b.scored - a.scored]. *)
Definition js_or (x y : Z) : Z := if x =? 0 then y else x.

Definition compareTeams (a b : Team) : Z :=
  js_or (points b - points a)
    (js_or (goalDifference b - goalDifference a) (scored b - scored a)).

(** [Array.prototype.sort] is stable; with this comparator (a lexicographic
    order on three integer keys) every stable sort returns the list that
    stable insertion returns. *)
Fixpoint sort_insert (x : Team) (l : list Team) : list Team :=
  match l with
  | [] => [x]
  | y :: l' => if compareTeams x y <=? 0 then x :: l
               else y :: sort_insert x l'
  end.

Fixpoint sortTeamsByPerformance (results : list Team) : list Team :=
  match results with
  | [] => []
  | x :: l => sort_insert x (sortTeamsByPerformance l)
  end.

Definition rankTeamsForKnockout (groupResults : list (string * list Team))
    : list Team :=
  take TEAM_RANK_LIMIT (sortTeamsByPerformance (concat (snd <$> groupResults))).

(** ** The environment: Math.exp, Math.random, console, this *)

Class Math : Type := { Math_exp : Q → Q }.

(** The lines written by [displayMatchResult] and by the knockout rounds. *)
Inductive Event : Type :=
  | MatchResult (team1 team2 : string) (score1 score2 : Z)
  | PenaltyShootoutNeeded
  | WinsInPenalties (winner : string) (winnerScore otherScore : Z)
  | Champion (team : string)
  | RunnerUp (team : string).

Record World : Type := mkWorld {
  draws : list Q;
  console : list Event;
  groupStageMatches : gmap string (gset string)
}.

Inductive Run (A : Type) : Type :=
  | Ret (a : A) (w : World)
  | MoreDraws
  | TypeError.
Arguments Ret {A} a w.
Arguments MoreDraws {A}.
Arguments TypeError {A}.

Definition Rand (A : Type) : Type := World → Run A.

Definition ret {A} (a : A) : Rand A := fun w => Ret a w.

Definition bind {A B} (m : Rand A) (k : A → Rand B) : Rand B :=
  fun w => match m w with
           | Ret a w' => k a w'
           | MoreDraws => MoreDraws
           | TypeError => TypeError
           end.

Definition throw {A} : Rand A := fun _ => TypeError.

Declare Scope rand_scope.
Delimit Scope rand_scope with rand.
Notation "x <- m ;; k" := (bind m (fun x => k))
  (at level 100, m at next level, right associativity) : rand_scope.
Notation "m ;; k" := (bind m (fun _ => k))
  (at level 100, right associativity) : rand_scope.
Local Open Scope rand_scope.

(** [Math.random()] *)
Definition Math_random : Rand Q := fun w =>
  match draws w with
  | [] => MoreDraws
  | u :: rest =>
      Ret u {| draws := rest; console := console w;
               groupStageMatches := groupStageMatches w |}
  end.

(** [console.log] *)
Definition log (e : Event) : Rand unit := fun w =>
  Ret tt {| draws := draws w; console := console w ++ [e];
            groupStageMatches := groupStageMatches w |}.

Definition displayMatchResult (team1 team2 : string) (score1 score2 : Z)
    : Rand unit :=
  log (MatchResult team1 team2 score1 score2).

(** ** Scores *)

Definition Qgtb (x y : Q) : bool := negb (Qle_bool x y).

Definition calculateExpectedPoints (teamRanking opponentRanking : Q) : Q :=
  let basePoints := 80%Q in
  let rankingDifferenceFactor := (1 # 10)%Q in
  let rankingDifference := (opponentRanking - teamRanking)%Q in
  (basePoints + rankingDifference * rankingDifferenceFactor)%Q.

(** The do-while loop of [generatePoissonScore]: one draw per iteration, so
    the loop is a recursion on the draws still to come. *)
Fixpoint poissonLoop (L p : Q) (k : Z) (us : list Q) : option (Z * list Q) :=
  match us with
  | [] => None
  | u :: rest =>
      let k := k + 1 in
      let p := (p * u)%Q in
      if Qgtb p L then poissonLoop L p k rest else Some (k - 1, rest)
  end.

Definition generatePoissonScore `{Math} (lambda : Q) : Rand Z := fun w =>
  let L := Math_exp (- lambda)%Q in
  match poissonLoop L 1%Q 0 (draws w) with
  | Some (score, rest) =>
      Ret score {| draws := rest; console := console w;
                   groupStageMatches := groupStageMatches w |}
  | None => MoreDraws
  end.

(** A parameter with a default value takes the default when the argument is
    [undefined] ([None]). *)
Definition simulateGamePoisson `{Math} (ranking1 ranking2 : Q)
    (form1 form2 : option Q) : Rand (Z * Z) :=
  let form1 := default 0%Q form1 in
  let form2 := default 0%Q form2 in
  let lambda1 := (calculateExpectedPoints ranking1 ranking2 + form1)%Q in
  let lambda2 := (calculateExpectedPoints ranking2 ranking1 + form2)%Q in
  score1 <- generatePoissonScore lambda1;;
  score2 <- generatePoissonScore lambda2;;
  ret (score1, score2).

Definition simulatePenaltyShootout : Rand (Z * Z) :=
  u1 <- Math_random;;
  let team1Score := Qfloor (u1 * 5)%Q in
  u2 <- Math_random;;
  let team2Score := Qfloor (u2 * 5)%Q in
  ret (team1Score, team2Score).

(** ** Group stage *)

(** [if (!m[team]) m[team] = new Set()] *)
Definition ensureSet (team : string) (m : gmap string (gset string))
    : gmap string (gset string) :=
  match m !! team with
  | Some _ => m
  | None => <[team := ∅]> m
  end.

(** The four statements of [recordGroupStageMatch], on the table itself. *)
Definition recordMatch (team1 team2 : string)
    (m : gmap string (gset string)) : gmap string (gset string) :=
  let m := ensureSet team1 m in
  let m := ensureSet team2 m in
  let m := alter (fun s => {[team2]} ∪ s) team1 m in
  alter (fun s => {[team1]} ∪ s) team2 m.

Definition recordGroupStageMatch (team1 team2 : string) : Rand unit := fun w =>
  Ret tt {| draws := draws w; console := console w;
            groupStageMatches := recordMatch team1 team2 (groupStageMatches w) |}.

(** [for (let i = lo; i < lo + count; i++) body] over a loop state. *)
Fixpoint forRange {S : Type} (lo : nat) (count : nat)
    (body : nat → S → Rand S) (s : S) : Rand S :=
  match count with
  | O => ret s
  | Datatypes.S c => s' <- body lo s;; forRange (Datatypes.S lo) c body s'
  end.

Definition playPair `{Math} (i j : nat) (results : list Team)
    : Rand (list Team) :=
  match results !! i, results !! j with
  | Some team1, Some team2 =>
      scores <- simulateGamePoisson (ranking team1) (ranking team2) None None;;
      let '(team1Score, team2Score) := scores in
      displayMatchResult (name team1) (name team2) team1Score team2Score;;
      let results := updateMatchResults results i j team1Score team2Score in
      recordGroupStageMatch (name team1) (name team2);;
      ret results
  | _, _ => throw
  end.

Definition playGroupStage `{Math} (teams : list Team) : Rand (list Team) :=
  let results := (fun team => new_Team (name team) (ranking team)) <$> teams in
  let n := length results in
  results <- forRange 0 n (fun i =>
               forRange (i + 1) (n - (i + 1)) (fun j => playPair i j)) results;;
  ret (sortTeamsByPerformance results).

(** [this.groups]: group name to the roster entries [{Team, FIBARanking}]. *)
Fixpoint simulateGroupStages `{Math} (groups : list (string * list (string * Q)))
    : Rand (list (string * list Team)) :=
  match groups with
  | [] => ret []
  | (groupName, roster) :: groups' =>
      let teams := (fun e => new_Team (fst e) (snd e)) <$> roster in
      groupStageResults <- playGroupStage teams;;
      rest <- simulateGroupStages groups';;
      ret ((groupName, groupStageResults) :: rest)
  end.

(** ** Form

    [this.exhibitions] maps a team to a JSON value.  A well-formed match
    entry [{Opponent, Result: "X-Y"}] is kept with the two numbers that
    [Result.split('-').map(Number)] yields.

    [displayFriendlyMatches], which is not represented, calls
    [matches.forEach] on every entry of [this.exhibitions] without the
    [Array.isArray] test made here. *)

Record ExhibitionMatch : Type := mkExhibitionMatch {
  Opponent : string;
  Result : Z * Z
}.

Inductive ExhibitionEntry : Type :=
  | NotAnArray
  | MatchArray (matches : list ExhibitionMatch).

Definition cumulativeDifference (matches : list ExhibitionMatch) : Z :=
  fold_left (fun cumulativeDifference match_ =>
               let '(teamGoals, opponentGoals) := Result match_ in
               let difference := teamGoals - opponentGoals in
               cumulativeDifference + difference) matches 0.

(** The body of the [for ... of Object.entries(this.exhibitions)] loop. *)
Definition formStep (teamForms : gmap string Z)
    (entry : string * ExhibitionEntry) : gmap string Z :=
  let '(team, matches) := entry in
  match matches with
  | NotAnArray => teamForms
  | MatchArray matches => <[team := cumulativeDifference matches]> teamForms
  end.

Definition calculateCumulativeForm
    (exhibitions : list (string * ExhibitionEntry)) : gmap string Z :=
  fold_left formStep exhibitions ∅.

(** ** Knockout draw *)

Inductive HatName : Type := D | E | F | G.

Record Hats : Type := mkHats {
  hat_D : list Team; hat_E : list Team; hat_F : list Team; hat_G : list Team
}.

Definition hat (h : HatName) (hats : Hats) : list Team :=
  match h with
  | D => hat_D hats | E => hat_E hats | F => hat_F hats | G => hat_G hats
  end.

Definition set_hat (h : HatName) (l : list Team) (hats : Hats) : Hats :=
  match h with
  | D => {| hat_D := l; hat_E := hat_E hats; hat_F := hat_F hats; hat_G := hat_G hats |}
  | E => {| hat_D := hat_D hats; hat_E := l; hat_F := hat_F hats; hat_G := hat_G hats |}
  | F => {| hat_D := hat_D hats; hat_E := hat_E hats; hat_F := l; hat_G := hat_G hats |}
  | G => {| hat_D := hat_D hats; hat_E := hat_E hats; hat_F := hat_F hats; hat_G := l |}
  end.

(** The three variables the closures of [drawKnockoutStage] share. *)
Record DrawState : Type := mkDrawState {
  hats : Hats;
  quarterFinals : list (Team * Team);
  usedTeams : gset string
}.

(** [this.groupStageMatches[team1.name]?.has(team2.name)]: [None] is
    [undefined]. *)
Definition isMatchAlreadyPlayed (played : gmap string (gset string))
    (team1 team2 : Team) : option bool :=
  match played !! name team1 with
  | Some s => Some (bool_decide (name team2 ∈ s))
  | None => None
  end.

(** [!x] for [x] a boolean or [undefined]. *)
Definition js_not (x : option bool) : bool :=
  match x with
  | Some b => negb b
  | None => true
  end.

Fixpoint findOpponent_scan (played : gmap string (gset string))
    (used : gset string) (team : Team) (candidates : list Team)
    : option Team :=
  match candidates with
  | [] => None
  | opponent :: rest =>
      if js_not (isMatchAlreadyPlayed played team opponent)
         && negb (bool_decide (name opponent ∈ used))
      then Some opponent
      else findOpponent_scan played used team rest
  end.

Definition findOpponent (played : gmap string (gset string)) (st : DrawState)
    (team : Team) (hat2 : HatName) : option Team :=
  findOpponent_scan played (usedTeams st) team (hat hat2 (hats st)).

(** One iteration of [for (const team1 of hats.X)] in [tryPairing]. *)
Definition pairTeam (played : gmap string (gset string)) (hat2 : HatName)
    (st : DrawState) (team1 : Team) : DrawState :=
  match findOpponent played st team1 hat2 with
  | Some opponent =>
      {| hats := hats st;
         quarterFinals := quarterFinals st ++ [(team1, opponent)];
         usedTeams := {[name opponent]} ∪ ({[name team1]} ∪ usedTeams st) |}
  | None => st
  end.

Definition tryPairing (played : gmap string (gset string)) (st : DrawState)
    : DrawState * bool :=
  let st := fold_left (pairTeam played G) (hat D (hats st)) st in
  let st := fold_left (pairTeam played F) (hat E (hats st)) st in
  (st, (length (quarterFinals st) =? 4)%nat).

(** [shift] then [push]; every hat holds two teams, the empty case does
    not arise. *)
Definition reorderTeams (h : HatName) (st : DrawState) : DrawState :=
  match hat h (hats st) with
  | firstTeam :: rest =>
      {| hats := set_hat h (rest ++ [firstTeam]) (hats st);
         quarterFinals := quarterFinals st; usedTeams := usedTeams st |}
  | [] => st
  end.

Inductive DrawOutcome : Type :=
  | Bracket (quarterFinals : list (Team * Team))
  | StillRetrying
  | DrawTypeError.

(** [while (!tryPairing()) { ... }], unrolled at most [attempts] times:
    [StillRetrying] says that the loop is about to start a further
    iteration. *)
Fixpoint drawLoop (played : gmap string (gset string)) (attempts : nat)
    (st : DrawState) : DrawOutcome :=
  match attempts with
  | O => StillRetrying
  | S n =>
      let '(st, ok) := tryPairing played st in
      if ok then Bracket (quarterFinals st)
      else
        let st := {| hats := hats st; quarterFinals := [];
                     usedTeams := ∅ |} in
        let st := reorderTeams G st in
        let st := reorderTeams F st in
        drawLoop played n st
  end.

(** An index past the end of [rankedTeams] reads [undefined], and the first
    [tryPairing] then reads [.name] of it: with fewer than eight teams the
    call throws. *)
Definition drawKnockoutStage (played : gmap string (gset string))
    (attempts : nat) (rankedTeams : list Team) : DrawOutcome :=
  match rankedTeams with
  | r0 :: r1 :: r2 :: r3 :: r4 :: r5 :: r6 :: r7 :: _ =>
      let hats := {| hat_D := [r0; r1]; hat_E := [r2; r3];
                     hat_F := [r4; r5]; hat_G := [r6; r7] |} in
      drawLoop played attempts
        {| hats := hats; quarterFinals := []; usedTeams := ∅ |}
  | _ => DrawTypeError
  end.

(** ** Knockout rounds *)

(** [this.teamForms[team.name]], passed as a form argument. *)
Definition formOf (teamForms : gmap string Z) (team : Team) : option Q :=
  inject_Z <$> teamForms !! name team.

(** The body shared, word for word, by the quarterfinal [forEach] and the
    semifinal [while]: it returns the team pushed on the next round. *)
Definition knockoutMatch `{Math} (teamForms : gmap string Z)
    (team1 team2 : Team) : Rand Team :=
  scores <- simulateGamePoisson (ranking team1) (ranking team2)
              (formOf teamForms team1) (formOf teamForms team2);;
  let '(score1, score2) := scores in
  displayMatchResult (name team1) (name team2) score1 score2;;
  let winner := if score1 >? score2 then team1 else team2 in
  let loser := if score1 <? score2 then team1 else team2 in
  if score1 =? score2 then
    log PenaltyShootoutNeeded;;
    penalties <- simulatePenaltyShootout;;
    let '(penaltyScore1, penaltyScore2) := penalties in
    if penaltyScore1 >? penaltyScore2 then
      log (WinsInPenalties (name team1) penaltyScore1 penaltyScore2);;
      ret team1
    else
      log (WinsInPenalties (name team2) penaltyScore2 penaltyScore1);;
      ret team2
  else ret winner.

Fixpoint playQuarterFinals `{Math} (teamForms : gmap string Z)
    (quarterFinals : list (Team * Team)) (semiFinals : list Team)
    : Rand (list Team) :=
  match quarterFinals with
  | [] => ret semiFinals
  | (team1, team2) :: rest =>
      t <- knockoutMatch teamForms team1 team2;;
      playQuarterFinals teamForms rest (semiFinals ++ [t])
  end.

(** [while (semiFinals.length > 1)] with [splice(0, 2)]. *)
Fixpoint playSemiFinals `{Math} (teamForms : gmap string Z)
    (semiFinals : list Team) (finals : list Team) : Rand (list Team) :=
  match semiFinals with
  | team1 :: team2 :: rest =>
      t <- knockoutMatch teamForms team1 team2;;
      playSemiFinals teamForms rest (finals ++ [t])
  | _ => ret finals
  end.

Record KnockoutResults : Type := mkKnockoutResults {
  champion : Team;
  runnerUp : Team
}.

Definition playFinal `{Math} (teamForms : gmap string Z) (finals : list Team)
    : Rand KnockoutResults :=
  match finals with
  | finalist1 :: finalist2 :: _ =>
      scores <- simulateGamePoisson (ranking finalist1) (ranking finalist2)
                  (formOf teamForms finalist1) (formOf teamForms finalist2);;
      let '(finalScore1, finalScore2) := scores in
      displayMatchResult (name finalist1) (name finalist2)
        finalScore1 finalScore2;;
      let champion := if finalScore1 >? finalScore2 then finalist1 else finalist2 in
      let runnerUp := if finalScore1 <? finalScore2 then finalist1 else finalist2 in
      log (Champion (name champion));;
      log (RunnerUp (name runnerUp));;
      ret {| champion := champion; runnerUp := runnerUp |}
  | _ => throw
  end.

Definition simulateKnockoutStage `{Math} (teamForms : gmap string Z)
    (quarterFinals : list (Team * Team)) : Rand KnockoutResults :=
  semiFinals <- playQuarterFinals teamForms quarterFinals [];;
  finals <- playSemiFinals teamForms semiFinals [];;
  playFinal teamForms finals.

(** ** Concrete scenarios used by the examples below *)

(** A rational function with the properties of [e^x] that matter to the
    loop: it is positive, at least 1 from 0 on and at most 1 below 0. *)
Definition exp_rat (x : Q) : Q :=
  if Qle_bool 0 x then (1 + x)%Q else (1 / (1 - x))%Q.

Definition ratMath : Math := {| Math_exp := exp_rat |}.

Definition world0 (us : list Q) : World :=
  {| draws := us; console := []; groupStageMatches := ∅ |}.

(** ** Predicates used in the statements *)

(** What one match does to the counters of a team, by outcome. *)
Definition scoresAdded (before after : Team) (s c : Z) : Prop :=
  scored after = scored before + s ∧ conceded after = conceded before + c.

Definition credited (before after : Team) (p w l : Z) : Prop :=
  points after = points before + p ∧ wins after = wins before + w
  ∧ losses after = losses before + l.


(** points = WIN_POINTS × wins + LOSS_POINTS × losses *)
Definition points_invariant (t : Team) : Prop :=
  points t = WIN_POINTS * wins t + LOSS_POINTS * losses t.

(** Draws for one game.  A draw of 0 ends the loop at once (the product is
    0, which is not above L), so 0 alone gives the score 0 and 1/2 then 0
    gives the score 1 as soon as 0 <= L < 1/2: under [ratMath] as under the
    exponential itself, lambda being close to 80. *)
Definition oneNil : list Q := [1 # 2; 0; 0]%Q.
Definition nilNil : list Q := [0; 0]%Q.

(** A group of two teams; its one match ends 1:0 under [oneNil]. *)
Definition twoTeams : list Team := [new_Team "A" 10; new_Team "B" 10].

(** Exhibition data in which the entry of "GRE" is not an array. *)
Definition exhibitionsWithBadEntry : list (string * ExhibitionEntry) :=
  [ ("CAN", MatchArray [ {| Opponent := "USA"; Result := (72, 86) |};
                         {| Opponent := "FRA"; Result := (85, 73) |} ]);
    ("GRE", NotAnArray);
    ("USA", MatchArray [ {| Opponent := "CAN"; Result := (86, 72) |} ]) ].

(** Eight teams in ranking order, named after their place. *)
Definition T1 : Team := new_Team "T1" 1.
Definition T2 : Team := new_Team "T2" 2.
Definition T3 : Team := new_Team "T3" 3.
Definition T4 : Team := new_Team "T4" 4.
Definition T5 : Team := new_Team "T5" 5.
Definition T6 : Team := new_Team "T6" 6.
Definition T7 : Team := new_Team "T7" 7.
Definition T8 : Team := new_Team "T8" 8.

Definition eightTeams : list Team := [T1; T2; T3; T4; T5; T6; T7; T8].

Definition sampleBracket : list (Team * Team) :=
  [(T1, T7); (T2, T8); (T3, T5); (T4, T6)].

(** Four quarterfinals and two semifinals won 1:0 by the first team, then a
    final that ends 0:0. *)
Definition drawsTiedFinal : list Q :=
  oneNil ++ oneNil ++ oneNil ++ oneNil ++ oneNil ++ oneNil ++ nilNil.

(** The same, with the first quarterfinal ending 0:0 and decided by a
    shootout that the first team wins 3:1 (draws 7/10 and 3/10). *)
Definition drawsTiedQuarterAndFinal : list Q :=
  (nilNil ++ [7 # 10; 3 # 10]%Q)
    ++ oneNil ++ oneNil ++ oneNil ++ oneNil ++ oneNil ++ nilNil.

(** A game that ends 0:0, a shootout that ends 2:2, and two further draws
    that would give a shootout of 4:0. *)
Definition drawsTiedShootout : list Q :=
  nilNil ++ [1 # 2; 1 # 2]%Q ++ [9 # 10; 1 # 10]%Q.

(** The world after further console lines, and after the draws changed. *)
Definition logged (es : list Event) (w : World) : World :=
  {| draws := draws w; console := console w ++ es;
     groupStageMatches := groupStageMatches w |}.

Definition withDraws (us : list Q) (w : World) : World :=
  {| draws := us; console := console w;
     groupStageMatches := groupStageMatches w |}.

(** The game of a knockout match between two teams. *)
Definition knockoutGame `{Math} (teamForms : gmap string Z)
    (team1 team2 : Team) : Rand (Z * Z) :=
  simulateGamePoisson (ranking team1) (ranking team2)
    (formOf teamForms team1) (formOf teamForms team2).

(** ** The draw: histories and valid brackets *)

(** The table after the group-stage matches of [history], in order. *)
Definition recordHistory (history : list (string * string))
    : gmap string (gset string) :=
  fold_left (fun m pairing => recordMatch (fst pairing) (snd pairing) m) history ∅.

(** The pairs [(i, j)], [i < j], of a group in the order of the two loops of
    [playGroupStage]. *)
Fixpoint roundRobin (group : list string) : list (string * string) :=
  match group with
  | [] => []
  | team1 :: others => ((fun team2 => (team1, team2)) <$> others) ++ roundRobin others
  end.

(** [team2] is in the set recorded for [team1]. *)
Definition playedBefore (played : gmap string (gset string))
    (team1 team2 : string) : Prop :=
  ∃ s, played !! team1 = Some s ∧ team2 ∈ s.

(** The two ways of pairing the teams [a0], [a1] of one hat with the teams
    [b0], [b1] of another. *)
Definition crossPairing (a0 a1 b0 b1 : Team) (p0 p1 : Team * Team) : Prop :=
  (p0 = (a0, b0) ∧ p1 = (a1, b1)) ∨ (p0 = (a0, b1) ∧ p1 = (a1, b0)).

Definition notPlayed (played : gmap string (gset string))
    (pairing : Team * Team) : Prop :=
  ¬ playedBefore played (name (fst pairing)) (name (snd pairing)).

(** A quarterfinal bracket for the ranked teams r0..r7: the two teams of hat
    D against the two of hat G, the two of hat E against the two of hat F,
    each of the eight teams once, and no pair that [played] records. *)
Definition validBracket (played : gmap string (gset string))
    (r0 r1 r2 r3 r4 r5 r6 r7 : Team) (bracket : list (Team * Team)) : Prop :=
  ∃ p0 p1 p2 p3,
    bracket = [p0; p1; p2; p3]
    ∧ crossPairing r0 r1 r6 r7 p0 p1
    ∧ crossPairing r2 r3 r4 r5 p2 p3
    ∧ Forall (notPlayed played) bracket.

(** The state in which the retry loop starts, and the state after one
    failed attempt. *)
Definition drawStart (r0 r1 r2 r3 r4 r5 r6 r7 : Team) : DrawState :=
  {| hats := {| hat_D := [r0; r1]; hat_E := [r2; r3];
                hat_F := [r4; r5]; hat_G := [r6; r7] |};
     quarterFinals := []; usedTeams := ∅ |}.

Definition drawRotated (r0 r1 r2 r3 r4 r5 r6 r7 : Team) : DrawState :=
  {| hats := {| hat_D := [r0; r1]; hat_E := [r2; r3];
                hat_F := [r5; r4]; hat_G := [r7; r6] |};
     quarterFinals := []; usedTeams := ∅ |}.

(** Three groups of four.  T2 meets T8 and T4 meets T5 in the group stage;
    T1 meets neither T7 nor T8, T3 neither T5 nor T6. *)
Definition groupsLockstep : list (list string) :=
  [ ["T2"; "T8"; "T3"; "X1"]; ["T4"; "T5"; "T1"; "X2"];
    ["T7"; "T6"; "X3"; "X4"] ].

Definition playedLockstep : gmap string (gset string) :=
  recordHistory (concat (roundRobin <$> groupsLockstep)).

(** T1 meets both T7 and T8 in the group stage. *)
Definition groupsBlocked : list (list string) :=
  [ ["T1"; "T7"; "T8"; "X1"]; ["T2"; "T3"; "T4"; "X2"];
    ["T5"; "T6"; "X3"; "X4"] ].

Definition playedBlocked : gmap string (gset string) :=
  recordHistory (concat (roundRobin <$> groupsBlocked)).

(** The rosters of three groups A, B, C given by their team names, all with
    ranking 10, and draws under which each of the 18 group matches ends
    0:0. *)
Definition rosters (groups : list (list string))
    : list (string * list (string * Q)) :=
  zip_with (fun (groupName : string) (group : list string) =>
              (groupName, (fun team : string => (team, 10%Q)) <$> group))
    ["A"; "B"; "C"]%string groups.

Definition drawsAllNil : list Q := replicate 36 0%Q.

(** * Further definitions *)

(** ** Standings order *)

(** [a] stands at least as high as [b]: more points, or as many points and a
    better goal difference, or both equal and at least as many points
    scored. *)
Definition standsAbove (a b : Team) : Prop :=
  points a > points b
  ∨ (points a = points b
     ∧ (goalDifference a > goalDifference b
        ∨ (goalDifference a = goalDifference b ∧ scored a >= scored b))).

(** [a] and [b] are level on the three keys of the comparator. *)
Definition level (a b : Team) : Prop :=
  points a = points b ∧ goalDifference a = goalDifference b
  ∧ scored a = scored b.

Global Instance level_dec a b : Decision (level a b).
Proof. unfold level. apply _. Defined.

(** All the teams of the group tables, in the order of [Object.values]. *)
Definition allTeams (groupResults : list (string * list Team)) : list Team :=
  concat (snd <$> groupResults).

(** The teams that [rankTeamsForKnockout] leaves out. *)
Definition leftOut (groupResults : list (string * list Team)) : list Team :=
  drop TEAM_RANK_LIMIT (sortTeamsByPerformance (allTeams groupResults)).

(** Three teams, the second and third level with each other. *)
Definition lowTeam : Team :=
  {| name := "A"; ranking := 1; wins := 1; losses := 1; points := 3;
     scored := 150; conceded := 150 |}.
Definition highTeam1 : Team :=
  {| name := "B"; ranking := 2; wins := 2; losses := 0; points := 4;
     scored := 160; conceded := 150 |}.
Definition highTeam2 : Team :=
  {| name := "C"; ranking := 3; wins := 2; losses := 0; points := 4;
     scored := 160; conceded := 150 |}.

Definition threeTeams : list Team := [lowTeam; highTeam1; highTeam2].

(** ** Scores *)

(** The successive values of [p] in [generatePoissonScore], starting from
    [p] and multiplying by the draws in turn. *)
Fixpoint runningProducts (p : Q) (us : list Q) : list Q :=
  match us with
  | [] => []
  | u :: rest => (p * u)%Q :: runningProducts (p * u)%Q rest
  end.

(** [Math.exp] does not decrease. *)
Definition expMonotone `{Math} : Prop :=
  ∀ x y : Q, (x <= y)%Q → (Math_exp x <= Math_exp y)%Q.

(** ** Group stage *)

(** The pairs of a list, each element with the elements after it, in the
    order in which two nested loops [i < j] visit them. *)
Fixpoint unorderedPairs {A : Type} (l : list A) : list (A * A) :=
  match l with
  | [] => []
  | x :: rest => ((fun y => (x, y)) <$> rest) ++ unorderedPairs rest
  end.

(** A loop body run over the elements of a list in turn. *)
Fixpoint forEachM {S X : Type} (body : X → S → Rand S) (l : list X) (s : S)
    : Rand S :=
  match l with
  | [] => ret s
  | x :: rest => s' <- body x s;; forEachM body rest s'
  end.

(** Sums over a table. *)
Definition total (f : Team → Z) (results : list Team) : Z :=
  foldr (fun t acc => f t + acc) 0 results.

(** The two names of the match lines of a piece of console output. *)
Definition matchPairs (es : list Event) : list (string * string) :=
  omap (fun e => match e with
                 | MatchResult team1 team2 _ _ => Some (team1, team2)
                 | _ => None
                 end) es.

(** The table after a list of matches, oldest first. *)
Definition recordAll (pairings : list (string * string))
    (m : gmap string (gset string)) : gmap string (gset string) :=
  fold_left (fun m pairing => recordMatch (fst pairing) (snd pairing) m)
    pairings m.

(** The name at a position of a list of names. *)
Definition nameAt (names : list string) (i : nat) : string :=
  default ""%string (names !! i).

(** The scored and conceded totals agree, as do the win and loss totals, and
    the points are three per decided match. *)
Definition balanced (results : list Team) : Prop :=
  total scored results = total conceded results
  ∧ total wins results = total losses results
  ∧ total points results = 3 * total wins results.

(** What identifies a team: the counters apart. *)
Definition identity (t : Team) : string * Q := (name t, ranking t).

(** A match line with two scores that are at least 0. *)
Definition isMatchLine (e : Event) : Prop :=
  ∃ team1 team2 score1 score2,
    e = MatchResult team1 team2 score1 score2 ∧ 0 <= score1 ∧ 0 <= score2.

(** The table and the world after the match of [twoTeams] under the draws
    [oneNil]. *)
Definition twoTeamsTable : list Team :=
  [ {| name := "A"; ranking := 10; wins := 1; losses := 0;
       points := 2; scored := 1; conceded := 0 |};
    {| name := "B"; ranking := 10; wins := 0; losses := 1;
       points := 1; scored := 0; conceded := 1 |} ].

Definition twoTeamsWorld : World :=
  {| draws := []; console := [MatchResult "A" "B" 1 0];
     groupStageMatches := recordMatch "A" "B" ∅ |}.

(** The names of a roster, and the pairs of all the groups in the order in
    which the group stage plays them. *)
Definition rosterNames (group : string * list (string * Q)) : list string :=
  fst <$> snd group.

Definition allPairings (groups : list (string * list (string * Q)))
    : list (string * string) :=
  concat ((fun group => roundRobin (rosterNames group)) <$> groups).

(** Two names at different places of the roster of one group. *)
Definition shareGroup (groups : list (string * list (string * Q)))
    (a b : string) : Prop :=
  ∃ group i j,
    group ∈ groups ∧ i ≠ j
    ∧ rosterNames group !! i = Some a ∧ rosterNames group !! j = Some b.

(** ** The draw *)

(** [!isMatchAlreadyPlayed(team, opponent)] *)
Definition freeToMeet (played : gmap string (gset string))
    (team opponent : Team) : bool :=
  js_not (isMatchAlreadyPlayed played team opponent).

(** The pairs that first-fit makes of the teams [a0], [a1] of one hat with
    the teams [b0], [b1] of the other, in this order. *)
Definition firstFitPairs (played : gmap string (gset string))
    (a0 a1 b0 b1 : Team) : list (Team * Team) :=
  if freeToMeet played a0 b0 then
    (a0, b0) :: (if freeToMeet played a1 b1 then [(a1, b1)] else [])
  else if freeToMeet played a0 b1 then
    (a0, b1) :: (if freeToMeet played a1 b0 then [(a1, b0)] else [])
  else if freeToMeet played a1 b0 then [(a1, b0)]
  else if freeToMeet played a1 b1 then [(a1, b1)]
  else [].

(** First-fit pairs both teams: straight if [a0] may meet [b0] and [a1] may
    meet [b1]; crossed if [a0] may not meet [b0] but may meet [b1], and [a1]
    may meet [b0]. *)
Definition firstFits (played : gmap string (gset string))
    (a0 a1 b0 b1 : Team) : bool :=
  (freeToMeet played a0 b0 && freeToMeet played a1 b1)
  || (negb (freeToMeet played a0 b0) && freeToMeet played a0 b1
      && freeToMeet played a1 b0).

(** The draw converges: first fit pairs everybody with the hats in their
    initial order, or with hats G and F both turned. *)
Definition drawConverges (played : gmap string (gset string))
    (r0 r1 r2 r3 r4 r5 r6 r7 : Team) : bool :=
  (firstFits played r0 r1 r6 r7 && firstFits played r2 r3 r4 r5)
  || (firstFits played r0 r1 r7 r6 && firstFits played r2 r3 r5 r4).

(** One pair of hats is paired by first fit only in its initial order, the
    other only when turned. *)
Definition oppositeOrders (played : gmap string (gset string))
    (r0 r1 r2 r3 r4 r5 r6 r7 : Team) : Prop :=
  (firstFits played r0 r1 r6 r7 = true ∧ firstFits played r0 r1 r7 r6 = false
   ∧ firstFits played r2 r3 r4 r5 = false ∧ firstFits played r2 r3 r5 r4 = true)
  ∨ (firstFits played r0 r1 r6 r7 = false ∧ firstFits played r0 r1 r7 r6 = true
     ∧ firstFits played r2 r3 r4 r5 = true
     ∧ firstFits played r2 r3 r5 r4 = false).

(** ** Knockout rounds *)

(** The pairs that [splice(0, 2)] takes off a list in turn. *)
Fixpoint adjacentPairs (l : list Team) : list (Team * Team) :=
  match l with
  | team1 :: team2 :: rest => (team1, team2) :: adjacentPairs rest
  | _ => []
  end.

Definition pairNames (pairing : Team * Team) : string * string :=
  (name (fst pairing), name (snd pairing)).

(** [t] is one of the two teams of [pairing]. *)
Definition oneOf (pairing : Team * Team) (t : Team) : Prop :=
  t = fst pairing ∨ t = snd pairing.

(** ** The whole tournament *)

(** [displayFriendlyMatches] calls [matches.forEach] on the entry of every
    team, array or not; its lines are not represented, the TypeError on an
    entry without [forEach] is. *)
Fixpoint displayFriendlyMatches (exhibitions : list (string * ExhibitionEntry))
    : Rand unit :=
  match exhibitions with
  | [] => ret tt
  | (team, NotAnArray) :: _ => throw
  | (team, MatchArray matches) :: rest => displayFriendlyMatches rest
  end.

(** [simulateTournament] either ends the knockout rounds or is still in the
    retry loop of the draw after the given number of attempts. *)
Inductive TournamentOutcome : Type :=
  | Finished (knockoutResults : KnockoutResults)
  | DrawRetrying.

(** [new Tournament(teamsMap).simulateTournament()], from the exhibition
    data and the groups that the constructor loads; the lines of
    [displayEliminationResults], which reads [knockoutResults.runnerUp], are
    not represented. *)
Definition simulateTournament `{Math}
    (exhibitions : list (string * ExhibitionEntry))
    (groups : list (string * list (string * Q))) (attempts : nat)
    : Rand TournamentOutcome :=
  let teamForms := calculateCumulativeForm exhibitions in
  displayFriendlyMatches exhibitions;;
  groupResults <- simulateGroupStages groups;;
  let rankedTeams := rankTeamsForKnockout groupResults in
  fun w =>
    match drawKnockoutStage (groupStageMatches w) attempts rankedTeams with
    | Bracket knockoutDraw =>
        (knockoutResults <- simulateKnockoutStage teamForms knockoutDraw;;
         ret (Finished knockoutResults)) w
    | StillRetrying => Ret DrawRetrying w
    | DrawTypeError => TypeError
    end.

(** The roster entries of all the groups. *)
Definition allEntries (groups : list (string * list (string * Q)))
    : list (string * Q) :=
  concat (snd <$> groups).

(** The goals for and against of a list of exhibition matches. *)
Definition goalsFor (matches : list ExhibitionMatch) : Z :=
  foldr (fun m acc => fst (Result m) + acc) 0 matches.

Definition goalsAgainst (matches : list ExhibitionMatch) : Z :=
  foldr (fun m acc => snd (Result m) + acc) 0 matches.

(** Two groups of four with all rankings 10, exhibition data with arrays
    only, and draws that are all 0: every game ends 0:0, every shootout
    0:0. *)
Definition twoGroups : list (string * list (string * Q)) :=
  [ ("A", [("A1", 10); ("A2", 10); ("A3", 10); ("A4", 10)]%Q);
    ("B", [("B1", 10); ("B2", 10); ("B3", 10); ("B4", 10)]%Q) ].

Definition exhibitionsArrays : list (string * ExhibitionEntry) :=
  [ ("A1", MatchArray [ {| Opponent := "B1"; Result := (80, 70) |} ]);
    ("B4", MatchArray []) ].

Definition drawsZero : list Q := replicate 50 0%Q.

(** The exhibition data of a tournament in which the entry of "B2" is not an
    array, and the same data with an empty array in its place. *)
Definition exhibitionsNonArray : list (string * ExhibitionEntry) :=
  [ ("A1", MatchArray [ {| Opponent := "B1"; Result := (80, 70) |} ]);
    ("B2", NotAnArray) ].

Definition exhibitionsEmptyArray : list (string * ExhibitionEntry) :=
  [ ("A1", MatchArray [ {| Opponent := "B1"; Result := (80, 70) |} ]);
    ("B2", MatchArray []) ].

(** Group tables with nine teams: the eight fresh teams and [lowTeam], which
    has points. *)
Definition nineTeamTables : list (string * list Team) :=
  [ ("A", [T1; T2; T3; T4]); ("B", [T5; T6; T7; T8; lowTeam]) ].

(** The matches of a schedule in which the team at place [k] takes part. *)
Definition involves (k : nat) (ij : nat * nat) : Prop :=
  fst ij = k ∨ snd ij = k.

Global Instance involves_dec k ij : Decision (involves k ij).
Proof. unfold involves. apply _. Defined.

(** Wins and losses are counted from 0 and add up to at most [c k] for the
    team at place [k]. *)
Definition gamesBound (c : nat → Z) (results : list Team) : Prop :=
  ∀ k t, results !! k = Some t →
         0 <= wins t ∧ 0 <= losses t ∧ wins t + losses t <= c k.

(** * Properties *)

(** ** Standings *)

Section Standings.

Lemma updateMatchResults_lookup_1 results i j s1 s2 :
  i ≠ j →
  updateMatchResults results i j s1 s2 !! i =
    (fun t => if s1 >? s2 then updatePoints WIN_POINTS (updateScores s1 s2 t)
              else if s2 >? s1 then updatePoints LOSS_POINTS (updateScores s1 s2 t)
              else updateScores s1 s2 t) <$> results !! i.
Proof.
  intros Hij. unfold updateMatchResults.
  destruct (s1 >? s2); [|destruct (s2 >? s1)];
    repeat first [ rewrite list_lookup_alter_eq
                 | rewrite list_lookup_alter_ne by congruence ];
    destruct (results !! i); reflexivity.
Qed.

Lemma updateMatchResults_lookup_2 results i j s1 s2 :
  i ≠ j →
  updateMatchResults results i j s1 s2 !! j =
    (fun t => if s1 >? s2 then updatePoints LOSS_POINTS (updateScores s2 s1 t)
              else if s2 >? s1 then updatePoints WIN_POINTS (updateScores s2 s1 t)
              else updateScores s2 s1 t) <$> results !! j.
Proof.
  intros Hij. unfold updateMatchResults.
  destruct (s1 >? s2); [|destruct (s2 >? s1)];
    repeat first [ rewrite list_lookup_alter_eq
                 | rewrite list_lookup_alter_ne by congruence ];
    destruct (results !! j); reflexivity.
Qed.

Lemma updateMatchResults_lookup_other results i j k s1 s2 :
  k ≠ i → k ≠ j →
  updateMatchResults results i j s1 s2 !! k = results !! k.
Proof.
  intros Hi Hj. unfold updateMatchResults.
  destruct (s1 >? s2); [|destruct (s2 >? s1)];
    repeat rewrite list_lookup_alter_ne by congruence; reflexivity.
Qed.

Lemma length_updateMatchResults results i j s1 s2 :
  length (updateMatchResults results i j s1 s2) = length results.
Proof.
  unfold updateMatchResults.
  destruct (s1 >? s2); [|destruct (s2 >? s1)];
    repeat rewrite length_alter; reflexivity.
Qed.

End Standings.

(** C4. [updateMatchResults] applied to two distinct teams of the table with
    scores (s1, s2): team1's scored grows by s1 and its conceded by s2, and
    the other way round for team2; if s1 > s2 team1 gets WIN_POINTS = 2 points
    and one win, team2 gets LOSS_POINTS = 1 point and one loss (symmetrically
    if s2 > s1); if s1 = s2 the points, wins and losses of both teams stay as
    they were. *)
Theorem updateMatchResults_spec (results : list Team) (i j : nat)
    (team1 team2 : Team) (s1 s2 : Z) :
  i ≠ j → results !! i = Some team1 → results !! j = Some team2 →
  ∃ team1' team2',
    updateMatchResults results i j s1 s2 !! i = Some team1'
    ∧ updateMatchResults results i j s1 s2 !! j = Some team2'
    ∧ scoresAdded team1 team1' s1 s2
    ∧ scoresAdded team2 team2' s2 s1
    ∧ (s1 > s2 → credited team1 team1' WIN_POINTS 1 0
                 ∧ credited team2 team2' LOSS_POINTS 0 1)
    ∧ (s2 > s1 → credited team2 team2' WIN_POINTS 1 0
                 ∧ credited team1 team1' LOSS_POINTS 0 1)
    ∧ (s1 = s2 → credited team1 team1' 0 0 0 ∧ credited team2 team2' 0 0 0)
    ∧ WIN_POINTS = 2 ∧ LOSS_POINTS = 1.
Proof.
  intros Hij H1 H2.
  pose proof (updateMatchResults_lookup_1 results i j s1 s2 Hij) as E1.
  pose proof (updateMatchResults_lookup_2 results i j s1 s2 Hij) as E2.
  rewrite H1 in E1. rewrite H2 in E2. simpl in E1, E2.
  eexists; eexists. split; [exact E1|]. split; [exact E2|].
  unfold scoresAdded, credited.
  destruct (Z.gtb_spec s1 s2) as [Hgt|Hle];
    [|destruct (Z.gtb_spec s2 s1) as [Hgt'|Hle']];
    cbn; repeat split; intros; try lia.
Qed.

(** The witness of [updateMatchResults_spec]: a table of two fresh teams and
    the score 81:77. *)
Lemma updateMatchResults_spec_witness :
  ∃ team1' team2',
    updateMatchResults [new_Team "A" 1; new_Team "B" 2] 0 1 81 77 !! 0%nat
      = Some team1'
    ∧ updateMatchResults [new_Team "A" 1; new_Team "B" 2] 0 1 81 77 !! 1%nat
      = Some team2'
    ∧ scoresAdded (new_Team "A" 1) team1' 81 77
    ∧ scoresAdded (new_Team "B" 2) team2' 77 81
    ∧ (81 > 77 → credited (new_Team "A" 1) team1' WIN_POINTS 1 0
                 ∧ credited (new_Team "B" 2) team2' LOSS_POINTS 0 1)
    ∧ (77 > 81 → credited (new_Team "B" 2) team2' WIN_POINTS 1 0
                 ∧ credited (new_Team "A" 1) team1' LOSS_POINTS 0 1)
    ∧ (81 = 77 → credited (new_Team "A" 1) team1' 0 0 0
                 ∧ credited (new_Team "B" 2) team2' 0 0 0)
    ∧ WIN_POINTS = 2 ∧ LOSS_POINTS = 1.
Proof.
  apply (updateMatchResults_spec [new_Team "A" 1; new_Team "B" 2] 0 1
           (new_Team "A" 1) (new_Team "B" 2) 81 77).
  - lia.
  - reflexivity.
  - reflexivity.
Defined.

(** ** Reasoning about runs *)

Section Runs.
Context {A B : Type}.

Lemma bind_Ret (m : Rand A) (k : A → Rand B) w b w'' :
  bind m k w = Ret b w'' ↔ ∃ a w', m w = Ret a w' ∧ k a w' = Ret b w''.
Proof.
  unfold bind. split.
  - destruct (m w) as [a w'| |]; [eauto | discriminate | discriminate].
  - intros (a & w' & -> & Hk). exact Hk.
Qed.

Lemma ret_Ret (a a' : A) w w' : ret a w = Ret a' w' ↔ a = a' ∧ w = w'.
Proof. unfold ret. split; [intros [= -> ->]; auto | intros [-> ->]; auto]. Qed.

End Runs.

Ltac run_inv H :=
  repeat match type of H with
         | bind _ _ _ = Ret _ _ =>
             let a := fresh "a" in let w := fresh "w" in
             let H1 := fresh "Hrun" in
             apply bind_Ret in H; destruct H as (a & w & H1 & H)
         | ret _ _ = Ret _ _ => apply ret_Ret in H; destruct H as [? ?]; subst
         | (let '(_, _) := ?p in _) _ = Ret _ _ => destruct p
         end.

Lemma forRange_inv {S : Type} (I : S → Prop) (body : nat → S → Rand S) :
  (∀ i s w s' w', I s → body i s w = Ret s' w' → I s') →
  ∀ count lo s w s' w',
    I s → forRange lo count body s w = Ret s' w' → I s'.
Proof.
  intros Hbody. induction count as [|c IH]; intros lo s w s' w' Hs Hrun; simpl in Hrun.
  - apply ret_Ret in Hrun as [-> _]. exact Hs.
  - apply bind_Ret in Hrun as (s1 & w1 & H1 & H2). eauto.
Qed.

Lemma forRange_ext {S : Type} (body body' : nat → S → Rand S) :
  ∀ count lo,
    (∀ i s w, (lo ≤ i < lo + count)%nat → body i s w = body' i s w) →
    ∀ s w, forRange lo count body s w = forRange lo count body' s w.
Proof.
  induction count as [|c IH]; intros lo Hext s w; simpl; [reflexivity|].
  unfold bind. rewrite (Hext lo s w) by lia.
  destruct (body' lo s w) as [s' w'| |]; try reflexivity.
  apply IH. intros i s0 w0 Hi. apply Hext. lia.
Qed.

(** ** The points invariant *)

Section PointsInvariant.

Lemma points_invariant_new n r : points_invariant (new_Team n r).
Proof. reflexivity. Qed.

Lemma points_invariant_updateScores s c t :
  points_invariant t → points_invariant (updateScores s c t).
Proof. unfold points_invariant. simpl. auto. Qed.

Lemma points_invariant_win t :
  points_invariant t → points_invariant (updatePoints WIN_POINTS t).
Proof. unfold points_invariant, WIN_POINTS, LOSS_POINTS. simpl. lia. Qed.

Lemma points_invariant_loss t :
  points_invariant t → points_invariant (updatePoints LOSS_POINTS t).
Proof. unfold points_invariant, WIN_POINTS, LOSS_POINTS. simpl. lia. Qed.

Lemma Forall_alter_inv_pres (f : Team → Team) (l : list Team) i :
  (∀ t, points_invariant t → points_invariant (f t)) →
  Forall points_invariant l → Forall points_invariant (alter f i l).
Proof. intros Hf Hl. apply Forall_alter; [exact Hl|]. intros; auto. Qed.

(** No assumption on the two references: they may even be one team. *)
Lemma points_invariant_updateMatchResults results i j s1 s2 :
  Forall points_invariant results →
  Forall points_invariant (updateMatchResults results i j s1 s2).
Proof.
  intros Hres. unfold updateMatchResults.
  destruct (s1 >? s2); [|destruct (s2 >? s1)];
    repeat (apply Forall_alter_inv_pres;
            [auto using points_invariant_updateScores, points_invariant_win,
               points_invariant_loss|]);
    exact Hres.
Qed.

Lemma sort_insert_Permutation x l : sort_insert x l ≡ₚ x :: l.
Proof.
  induction l as [|y l IH]; simpl; [reflexivity|].
  destruct (compareTeams x y <=? 0); [reflexivity|].
  rewrite IH. apply Permutation_swap.
Qed.

Lemma sortTeamsByPerformance_Permutation l : sortTeamsByPerformance l ≡ₚ l.
Proof.
  induction l as [|x l IH]; simpl; [reflexivity|].
  rewrite sort_insert_Permutation, IH. reflexivity.
Qed.

Context `{Math}.

Lemma points_invariant_playPair i j results w results' w' :
  Forall points_invariant results →
  playPair i j results w = Ret results' w' →
  Forall points_invariant results'.
Proof.
  intros Hres Hrun. unfold playPair in Hrun.
  destruct (results !! i) as [team1|]; [|discriminate].
  destruct (results !! j) as [team2|]; [|discriminate].
  run_inv Hrun. now apply points_invariant_updateMatchResults.
Qed.

Lemma points_invariant_playGroupStage teams w results w' :
  playGroupStage teams w = Ret results w' →
  Forall points_invariant results.
Proof.
  unfold playGroupStage. intros Hrun. run_inv Hrun.
  rewrite sortTeamsByPerformance_Permutation.
  revert Hrun0.
  apply (forRange_inv (Forall points_invariant)).
  - intros i s w1 s' w1' Hs.
    apply (forRange_inv (Forall points_invariant)); [|exact Hs].
    intros j s0 w2 s0' w2' Hs0. now apply points_invariant_playPair.
  - apply Forall_fmap, Forall_forall. intros t _. apply points_invariant_new.
Qed.

Lemma points_invariant_simulateGroupStages groups w groupResults w' :
  simulateGroupStages groups w = Ret groupResults w' →
  Forall (fun g => Forall points_invariant g.2) groupResults.
Proof.
  revert w groupResults w'.
  induction groups as [|[groupName roster] groups IH];
    intros w groupResults w' Hrun; simpl in Hrun.
  - apply ret_Ret in Hrun as [<- _]. constructor.
  - run_inv Hrun. constructor; [|eauto].
    simpl. eapply points_invariant_playGroupStage; eauto.
Qed.

Lemma points_invariant_rankTeamsForKnockout groupResults :
  Forall (fun g => Forall points_invariant g.2) groupResults →
  Forall points_invariant (rankTeamsForKnockout groupResults).
Proof.
  intros Hg. unfold rankTeamsForKnockout.
  apply Forall_take. rewrite sortTeamsByPerformance_Permutation.
  apply Forall_concat, Forall_fmap.
  eapply Forall_impl; [exact Hg|]. auto.
Qed.

End PointsInvariant.

(** The two loops of [playGroupStage] call [playPair] only with i < j, both
    within the table: the two teams of a match are two objects. *)
Lemma playGroupStage_pairs_distinct `{Math} (teams : list Team) (w : World) :
  playGroupStage teams w
  = let results := (fun team => new_Team (name team) (ranking team)) <$> teams in
    let n := length results in
    bind (forRange 0 n (fun i =>
            forRange (i + 1) (n - (i + 1)) (fun j results =>
              if bool_decide (i < j < n)%nat then playPair i j results
              else throw)) results)
         (fun results => ret (sortTeamsByPerformance results)) w.
Proof.
  unfold playGroupStage. cbn zeta. unfold bind.
  rewrite (forRange_ext _
             (fun i =>
                forRange (i + 1) (length ((fun team => new_Team (name team) (ranking team)) <$> teams) - (i + 1))
                  (fun j results =>
                     if bool_decide (i < j < length ((fun team => new_Team (name team) (ranking team)) <$> teams))%nat
                     then playPair i j results else throw)));
    [reflexivity|].
  intros i s w0 Hi. apply forRange_ext.
  intros j s0 w1 Hj. rewrite bool_decide_eq_true_2; [reflexivity|]. lia.
Qed.

(** C9. Every team satisfies points = WIN_POINTS × wins + LOSS_POINTS × losses
    (that is 2 × wins + 1 × losses) at every point of the simulation: a new
    team does, [updatePoints] called with 2 or with 1 keeps it ([updateScores]
    does not touch it), hence so does every [updateMatchResults], whatever the
    two teams and the scores, and so do the tables returned by
    [playGroupStage] and [simulateGroupStages] and the ranking for the
    knockout stage. *)
Theorem points_invariant_preserved `{Math} :
  WIN_POINTS = 2 ∧ LOSS_POINTS = 1
  ∧ (∀ n r, points_invariant (new_Team n r))
  ∧ (∀ t, points_invariant t →
          points_invariant (updatePoints WIN_POINTS t)
          ∧ points_invariant (updatePoints LOSS_POINTS t)
          ∧ ∀ s c, points_invariant (updateScores s c t))
  ∧ (∀ results i j s1 s2,
       Forall points_invariant results →
       Forall points_invariant (updateMatchResults results i j s1 s2))
  ∧ (∀ teams w results w',
       playGroupStage teams w = Ret results w' →
       Forall points_invariant results)
  ∧ (∀ groups w groupResults w',
       simulateGroupStages groups w = Ret groupResults w' →
       Forall (fun g => Forall points_invariant g.2) groupResults
       ∧ Forall points_invariant (rankTeamsForKnockout groupResults)).
Proof.
  split; [reflexivity|]. split; [reflexivity|].
  split; [apply points_invariant_new|].
  split.
  { intros t Ht. split; [now apply points_invariant_win|].
    split; [now apply points_invariant_loss|].
    intros s c. now apply points_invariant_updateScores. }
  split; [apply points_invariant_updateMatchResults|].
  split; [apply points_invariant_playGroupStage|].
  intros groups w groupResults w' Hrun.
  pose proof (points_invariant_simulateGroupStages _ _ _ _ Hrun) as Hg.
  split; [exact Hg|]. now apply points_invariant_rankTeamsForKnockout.
Qed.

(** The witness of [points_invariant_preserved]: a group of two teams whose
    match ends 1:0. *)
Lemma points_invariant_preserved_witness :
  ∃ w',
    @playGroupStage ratMath twoTeams (world0 oneNil)
      = Ret [ {| name := "A"; ranking := 10; wins := 1; losses := 0;
                 points := 2; scored := 1; conceded := 0 |};
              {| name := "B"; ranking := 10; wins := 0; losses := 1;
                 points := 1; scored := 0; conceded := 1 |} ] w'
    ∧ Forall points_invariant
        [ {| name := "A"; ranking := 10; wins := 1; losses := 0;
             points := 2; scored := 1; conceded := 0 |};
          {| name := "B"; ranking := 10; wins := 0; losses := 1;
             points := 1; scored := 0; conceded := 1 |} ].
Proof.
  eexists. split.
  - vm_compute. reflexivity.
  - eapply (proj1 (proj2 (proj2 (proj2 (proj2 (proj2
              (@points_invariant_preserved ratMath))))))
              twoTeams (world0 oneNil)).
    vm_compute. reflexivity.
Defined.

(** ** Scores *)

Section Scores.

Lemma Qgtb_false (x y : Q) : (x <= y)%Q → Qgtb x y = false.
Proof.
  intros Hxy. unfold Qgtb. apply negb_false_iff, Qle_bool_iff. exact Hxy.
Qed.

Lemma Qgtb_true (x y : Q) : (y < x)%Q → Qgtb x y = true.
Proof.
  intros Hxy. unfold Qgtb. apply negb_true_iff.
  destruct (Qle_bool x y) eqn:E; [|reflexivity].
  apply Qle_bool_iff in E. lra.
Qed.

(** The counter only grows: the loop returns at least the number of
    iterations already made. *)
Lemma poissonLoop_lower_bound L us :
  ∀ p k score rest, poissonLoop L p k us = Some (score, rest) → k <= score.
Proof.
  induction us as [|u us IH]; intros p k score rest Hloop; simpl in Hloop.
  - discriminate.
  - destruct (Qgtb (p * u) L).
    + apply IH in Hloop. lia.
    + injection Hloop as <- _. lia.
Qed.

Lemma poissonLoop_first L u rest :
  (u <= L)%Q → poissonLoop L 1 0 (u :: rest) = Some (0, rest).
Proof.
  intros Hu. simpl. rewrite Qgtb_false; [reflexivity|]. lra.
Qed.

(** The two patterns of draws used in the examples, for any [Math.exp]. *)
Lemma generatePoissonScore_zero `{Math} lambda w rest :
  (0 <= Math_exp (- lambda))%Q →
  draws w = 0%Q :: rest →
  generatePoissonScore lambda w = Ret 0 (withDraws rest w).
Proof.
  intros HL Hd. unfold generatePoissonScore. rewrite Hd.
  rewrite poissonLoop_first by exact HL. reflexivity.
Qed.

Lemma generatePoissonScore_half_zero `{Math} lambda w rest :
  (0 <= Math_exp (- lambda))%Q → (Math_exp (- lambda) < 1 # 2)%Q →
  draws w = (1 # 2)%Q :: 0%Q :: rest →
  generatePoissonScore lambda w = Ret 1 (withDraws rest w).
Proof.
  intros HL0 HL1 Hd. unfold generatePoissonScore. rewrite Hd.
  cbn [poissonLoop].
  rewrite Qgtb_true by lra. rewrite Qgtb_false by lra. reflexivity.
Qed.

Lemma exp_rat_ge_1 (x : Q) : (0 <= x)%Q → (1 <= exp_rat x)%Q.
Proof.
  intros Hx. unfold exp_rat.
  destruct (Qle_bool 0 x) eqn:E.
  - lra.
  - apply Qle_bool_iff in Hx. congruence.
Qed.

End Scores.

(** C7. Whatever lambda and whatever the draws, a score returned by
    [generatePoissonScore] is an integer greater than or equal to 0 (and the
    function never throws); for lambda ≤ 0, given that e^x ≥ 1 for x ≥ 0, the
    call returns after the first draw u of [0,1), with score 0: u < 1 ≤ L. *)
Theorem generatePoissonScore_nonneg `{Math} :
  (∀ lambda w score w',
     generatePoissonScore lambda w = Ret score w' → 0 <= score)
  ∧ (∀ lambda w, generatePoissonScore lambda w ≠ TypeError)
  ∧ ((∀ x, (0 <= x)%Q → (1 <= Math_exp x)%Q) →
     ∀ lambda w u rest,
       (lambda <= 0)%Q → (0 <= u)%Q ∧ (u < 1)%Q → draws w = u :: rest →
       generatePoissonScore lambda w
         = Ret 0 {| draws := rest; console := console w;
                    groupStageMatches := groupStageMatches w |}).
Proof.
  split; [|split].
  - intros lambda w score w' Hrun. unfold generatePoissonScore in Hrun.
    destruct (poissonLoop _ _ _ _) as [[s rest]|] eqn:Hloop; [|discriminate].
    injection Hrun as <- _.
    now apply poissonLoop_lower_bound in Hloop.
  - intros lambda w. unfold generatePoissonScore.
    destruct (poissonLoop _ _ _ _) as [[s rest]|]; discriminate.
  - intros Hexp lambda w u rest Hlambda [Hu0 Hu1] Hdraws.
    unfold generatePoissonScore. rewrite Hdraws.
    rewrite poissonLoop_first; [reflexivity|].
    assert (1 <= Math_exp (- lambda))%Q by (apply Hexp; lra). lra.
Qed.

(** The witness of [generatePoissonScore_nonneg]: lambda = -1 and a first
    draw of 3/4. *)
Lemma generatePoissonScore_nonneg_witness :
  @generatePoissonScore ratMath (-1) (world0 [3 # 4; 1 # 2]%Q)
    = Ret 0 (world0 [1 # 2]%Q)
  ∧ 0 <= 0.
Proof.
  split.
  - apply (proj2 (proj2 (@generatePoissonScore_nonneg ratMath)) exp_rat_ge_1
             (-1)%Q (world0 [3 # 4; 1 # 2]%Q) (3 # 4)%Q [1 # 2]%Q).
    + vm_compute. discriminate.
    + split; vm_compute; [discriminate | reflexivity].
    + reflexivity.
  - apply (proj1 (@generatePoissonScore_nonneg ratMath) (-1)%Q
             (world0 [3 # 4; 1 # 2]%Q) 0 (world0 [1 # 2]%Q)).
    vm_compute. reflexivity.
Defined.

(** ** Form *)

Section Form.

Lemma unique_entry {V} (l : list (string * V)) k v1 v2 :
  NoDup l.*1 → (k, v1) ∈ l → (k, v2) ∈ l → v1 = v2.
Proof.
  induction l as [|[k' v'] l IH]; simpl; intros Hnd H1 H2.
  - inversion H1.
  - apply NoDup_cons in Hnd as [Hfresh Hnd].
    assert (Hk : ∀ v, (k', v) ∉ l).
    { intros v Hin. apply Hfresh, list_elem_of_fmap. exists (k', v). auto. }
    apply elem_of_cons in H1 as [E1|H1];
      apply elem_of_cons in H2 as [E2|H2]; simplify_eq.
    + reflexivity.
    + now apply Hk in H2.
    + now apply Hk in H1.
    + eauto.
Qed.

Lemma calculateCumulativeForm_snoc exhibitions entry :
  calculateCumulativeForm (exhibitions ++ [entry])
  = formStep (calculateCumulativeForm exhibitions) entry.
Proof.
  unfold calculateCumulativeForm. rewrite fold_left_app. reflexivity.
Qed.

(** With one entry per team, the form table holds exactly the teams whose
    entry is an array. *)
Lemma calculateCumulativeForm_lookup exhibitions team form :
  NoDup exhibitions.*1 →
  calculateCumulativeForm exhibitions !! team = Some form
  ↔ ∃ matches, (team, MatchArray matches) ∈ exhibitions
               ∧ form = cumulativeDifference matches.
Proof.
  induction exhibitions as [|[t e] l IH] using rev_ind; intros Hnd.
  - unfold calculateCumulativeForm. simpl. rewrite lookup_empty. split.
    + discriminate.
    + intros (ms & Hin & _). inversion Hin.
  - rewrite fmap_app in Hnd. apply NoDup_app in Hnd as (Hl & Hfresh & _).
    specialize (IH Hl).
    assert (Ht : ∀ e', (t, e') ∉ l).
    { intros e' Hin. apply (Hfresh t).
      - apply list_elem_of_fmap. exists (t, e'). auto.
      - simpl. left. }
    rewrite calculateCumulativeForm_snoc. simpl.
    setoid_rewrite elem_of_app. setoid_rewrite list_elem_of_singleton.
    destruct e as [|ms0].
    + rewrite IH. split.
      * intros (ms & Hin & ->). eauto.
      * intros (ms & [Hin|Heq] & ->); [eauto | discriminate].
    + destruct (decide (t = team)) as [->|Hne].
      * rewrite lookup_insert_eq. split.
        -- intros [= <-]. eauto.
        -- intros (ms & [Hin|[= <-]] & ->); [|reflexivity].
           now apply Ht in Hin.
      * rewrite lookup_insert_ne by exact Hne. rewrite IH. split.
        -- intros (ms & Hin & ->). eauto.
        -- intros (ms & [Hin|[= <- _]] & ->); [eauto | congruence].
Qed.

End Form.

(** ** Knockout rounds *)

Section Knockout.
Context `{Math}.

Lemma logged_app es1 es2 w : logged es2 (logged es1 w) = logged (es1 ++ es2) w.
Proof. unfold logged. simpl. rewrite <- app_assoc. reflexivity. Qed.

Lemma simulatePenaltyShootout_run w u1 u2 rest :
  draws w = u1 :: u2 :: rest →
  simulatePenaltyShootout w
  = Ret (Qfloor (u1 * 5), Qfloor (u2 * 5)) (withDraws rest w).
Proof.
  intros Hd. unfold simulatePenaltyShootout, bind, Math_random.
  rewrite Hd. simpl. reflexivity.
Qed.

Lemma shootout_score_range (u : Q) :
  (0 <= u)%Q → (u < 1)%Q → 0 <= Qfloor (u * 5) < 5.
Proof.
  intros H0 H1.
  pose proof (Qfloor_le (u * 5)) as Hfl. pose proof (Qlt_floor (u * 5)) as Hlt.
  assert (inject_Z 0 < inject_Z (Qfloor (u * 5) + 1))%Q as Ha
    by (change (inject_Z 0) with 0%Q; lra).
  assert (inject_Z (Qfloor (u * 5)) < inject_Z 5)%Q as Hb
    by (change (inject_Z 5) with 5%Q; lra).
  rewrite <- Zlt_Qlt in Ha, Hb. lia.
Qed.

(** A tied game: one shootout, and [team2] goes through unless [team1]
    scored strictly more penalties. *)
Lemma knockoutMatch_tie teamForms team1 team2 w s w1 u1 u2 rest :
  knockoutGame teamForms team1 team2 w = Ret (s, s) w1 →
  draws w1 = u1 :: u2 :: rest →
  let p1 := Qfloor (u1 * 5) in
  let p2 := Qfloor (u2 * 5) in
  knockoutMatch teamForms team1 team2 w
  = Ret (if p1 >? p2 then team1 else team2)
      (withDraws rest
         (logged [MatchResult (name team1) (name team2) s s;
                  PenaltyShootoutNeeded;
                  if p1 >? p2 then WinsInPenalties (name team1) p1 p2
                  else WinsInPenalties (name team2) p2 p1] w1)).
Proof.
  intros Hgame Hd p1 p2. unfold knockoutGame in Hgame.
  unfold knockoutMatch, bind at 1. rewrite Hgame.
  rewrite Z.eqb_refl.
  unfold displayMatchResult, bind, log. simpl.
  rewrite (simulatePenaltyShootout_run _ u1 u2 rest) by exact Hd.
  fold p1 p2. unfold withDraws, logged, ret. simpl.
  destruct (p1 >? p2); simpl; rewrite <- !app_assoc; reflexivity.
Qed.

(** A game with a winner: no draw is taken after the game. *)
Lemma knockoutMatch_decided teamForms team1 team2 w s1 s2 w1 :
  knockoutGame teamForms team1 team2 w = Ret (s1, s2) w1 →
  s1 ≠ s2 →
  knockoutMatch teamForms team1 team2 w
  = Ret (if s1 >? s2 then team1 else team2)
      (logged [MatchResult (name team1) (name team2) s1 s2] w1).
Proof.
  intros Hgame Hne. unfold knockoutGame in Hgame.
  unfold knockoutMatch, bind at 1. rewrite Hgame.
  apply Z.eqb_neq in Hne. rewrite Hne.
  unfold displayMatchResult, bind, log, ret, logged. reflexivity.
Qed.

Lemma playFinal_run teamForms finalist1 finalist2 others w s1 s2 w1 :
  knockoutGame teamForms finalist1 finalist2 w = Ret (s1, s2) w1 →
  let champion := if s1 >? s2 then finalist1 else finalist2 in
  let runnerUp := if s1 <? s2 then finalist1 else finalist2 in
  playFinal teamForms (finalist1 :: finalist2 :: others) w
  = Ret {| champion := champion; runnerUp := runnerUp |}
      (logged [MatchResult (name finalist1) (name finalist2) s1 s2;
               Champion (name champion); RunnerUp (name runnerUp)] w1).
Proof.
  intros Hgame champion runnerUp. unfold knockoutGame in Hgame.
  unfold playFinal, bind at 1. rewrite Hgame.
  unfold displayMatchResult, bind, log, ret, logged. simpl.
  rewrite <- !app_assoc. reflexivity.
Qed.

End Knockout.

(** C10. When the two scores of the final are equal, no shootout is run for
    the final (no draw is taken and no penalty line is written after the
    game) and [simulateKnockoutStage] returns the second finalist both as
    champion and as runnerUp. *)
Theorem final_tie_second_finalist_twice `{Math} (teamForms : gmap string Z)
    (quarterFinals : list (Team * Team)) (w w1 w2 w3 : World)
    (semiFinals others : list Team) (finalist1 finalist2 : Team) (s : Z) :
  playQuarterFinals teamForms quarterFinals [] w = Ret semiFinals w1 →
  playSemiFinals teamForms semiFinals [] w1
    = Ret (finalist1 :: finalist2 :: others) w2 →
  knockoutGame teamForms finalist1 finalist2 w2 = Ret (s, s) w3 →
  simulateKnockoutStage teamForms quarterFinals w
  = Ret {| champion := finalist2; runnerUp := finalist2 |}
      (logged [MatchResult (name finalist1) (name finalist2) s s;
               Champion (name finalist2); RunnerUp (name finalist2)] w3).
Proof.
  intros Hqf Hsf Hgame.
  unfold simulateKnockoutStage, bind. rewrite Hqf, Hsf.
  rewrite (playFinal_run _ _ _ _ _ s s w3 Hgame).
  rewrite Z.gtb_ltb, Z.ltb_irrefl. reflexivity.
Qed.

(** The witness of [final_tie_second_finalist_twice]: T1 and T3 reach the
    final, which ends 0:0. *)
Lemma final_tie_second_finalist_twice_witness :
  @simulateKnockoutStage ratMath ∅ sampleBracket (world0 drawsTiedFinal)
  = Ret {| champion := T3; runnerUp := T3 |}
      (logged [MatchResult "T1" "T3" 0 0; Champion "T3"; RunnerUp "T3"]
         (logged [MatchResult "T1" "T7" 1 0; MatchResult "T2" "T8" 1 0;
                  MatchResult "T3" "T5" 1 0; MatchResult "T4" "T6" 1 0;
                  MatchResult "T1" "T2" 1 0; MatchResult "T3" "T4" 1 0]
            (world0 []))).
Proof.
  apply (@final_tie_second_finalist_twice ratMath ∅ sampleBracket
           (world0 drawsTiedFinal)
           (logged [MatchResult "T1" "T7" 1 0; MatchResult "T2" "T8" 1 0;
                    MatchResult "T3" "T5" 1 0; MatchResult "T4" "T6" 1 0]
              (world0 (oneNil ++ oneNil ++ nilNil)))
           (logged [MatchResult "T1" "T7" 1 0; MatchResult "T2" "T8" 1 0;
                    MatchResult "T3" "T5" 1 0; MatchResult "T4" "T6" 1 0;
                    MatchResult "T1" "T2" 1 0; MatchResult "T3" "T4" 1 0]
              (world0 nilNil))
           _ [T1; T2; T3; T4] [] T1 T3 0).
  - vm_compute. reflexivity.
  - vm_compute. reflexivity.
  - vm_compute. reflexivity.
Defined.

(** C3, at a run in which the first quarterfinal and the final both end 0:0:
    the quarterfinal goes to a shootout (won 3:1 by T1), the final does not,
    and T3, the second finalist, is returned both as champion and as
    runner-up. *)
Theorem tied_final_is_not_broken :
  @simulateKnockoutStage ratMath ∅ sampleBracket
    (world0 drawsTiedQuarterAndFinal)
  = Ret {| champion := T3; runnerUp := T3 |}
      {| draws := [];
         console :=
           [MatchResult "T1" "T7" 0 0; PenaltyShootoutNeeded;
            WinsInPenalties "T1" 3 1; MatchResult "T2" "T8" 1 0;
            MatchResult "T3" "T5" 1 0; MatchResult "T4" "T6" 1 0;
            MatchResult "T1" "T2" 1 0; MatchResult "T3" "T4" 1 0;
            MatchResult "T1" "T3" 0 0; Champion "T3"; RunnerUp "T3"];
         groupStageMatches := ∅ |}.
Proof. vm_compute. reflexivity. Qed.

(** C5, as stated, fails: after a game that ends 0:0 the shootout ends 2:2
    and the match is decided on it, T7 (the second team) going through; the
    two draws that follow, which would give a shootout of 4:0, are left
    untouched. *)
Lemma tied_shootout_decides_match :
  @knockoutMatch ratMath ∅ T1 T7 (world0 drawsTiedShootout)
  = Ret T7
      {| draws := [9 # 10; 1 # 10]%Q;
         console := [MatchResult "T1" "T7" 0 0; PenaltyShootoutNeeded;
                     WinsInPenalties "T7" 2 2];
         groupStageMatches := ∅ |}.
Proof. vm_compute. reflexivity. Qed.

(** C5, amended. The shootout takes two draws and returns two integers,
    each computed from its own draw and lying in [0,5) when that draw is in
    [0,1).  In a quarterfinal or semifinal whose game is tied the shootout is
    run once and is not repeated: team1 goes through if its shootout score is
    strictly the higher one, team2 otherwise, also when the two shootout
    scores are equal. *)
Theorem shootout_runs_once `{Math} :
  ∃ score : Q → Z,
    (∀ u, (0 <= u)%Q → (u < 1)%Q → 0 <= score u < 5)
    ∧ (∀ w u1 u2 rest,
         draws w = u1 :: u2 :: rest →
         simulatePenaltyShootout w
         = Ret (score u1, score u2) (withDraws rest w))
    ∧ (∀ teamForms team1 team2 w s w1 u1 u2 rest,
         knockoutGame teamForms team1 team2 w = Ret (s, s) w1 →
         draws w1 = u1 :: u2 :: rest →
         let p1 := score u1 in
         let p2 := score u2 in
         knockoutMatch teamForms team1 team2 w
         = Ret (if p1 >? p2 then team1 else team2)
             (withDraws rest
                (logged [MatchResult (name team1) (name team2) s s;
                         PenaltyShootoutNeeded;
                         if p1 >? p2 then WinsInPenalties (name team1) p1 p2
                         else WinsInPenalties (name team2) p2 p1] w1))).
Proof.
  exists (fun u => Qfloor (u * 5)).
  split; [apply shootout_score_range|].
  split; [apply simulatePenaltyShootout_run | apply knockoutMatch_tie].
Qed.

(** The witness of [shootout_runs_once]: a game that ends 0:0 and a
    shootout that ends 2:2. *)
Lemma shootout_runs_once_witness :
  @knockoutMatch ratMath ∅ T1 T7 (world0 drawsTiedShootout)
  = Ret T7
      (withDraws [9 # 10; 1 # 10]%Q
         (logged [MatchResult "T1" "T7" 0 0; PenaltyShootoutNeeded;
                  WinsInPenalties "T7" 2 2] (world0 []))).
Proof.
  destruct (@shootout_runs_once ratMath) as (score & Hrange & Hrun & Htie).
  pose proof (Hrun (world0 [1 # 2; 1 # 2]%Q) (1 # 2)%Q (1 # 2)%Q [] eq_refl)
    as Hscore.
  unfold simulatePenaltyShootout, Math_random, bind, ret in Hscore.
  cbn in Hscore. injection Hscore as Hscore.
  pose proof (Htie ∅ T1 T7 (world0 drawsTiedShootout) 0
                (world0 ([1 # 2; 1 # 2] ++ [9 # 10; 1 # 10])%Q)
                (1 # 2)%Q (1 # 2)%Q [9 # 10; 1 # 10]%Q) as Hmatch.
  cbv zeta in Hmatch. rewrite <- Hscore in Hmatch.
  apply Hmatch.
  - vm_compute. reflexivity.
  - reflexivity.
Defined.

(** ** The group-stage record *)

Section Record.

Lemma ensureSet_lookup k (m : gmap string (gset string)) x :
  ensureSet k m !! x
  = if decide (x = k) then Some (default ∅ (m !! x)) else m !! x.
Proof.
  unfold ensureSet. destruct (decide (x = k)) as [->|Hne].
  - destruct (m !! k) eqn:E; [now rewrite E | now rewrite lookup_insert_eq].
  - destruct (m !! k); [reflexivity | now rewrite lookup_insert_ne].
Qed.

Lemma recordMatch_lookup a b (m : gmap string (gset string)) x :
  recordMatch a b m !! x
  = if decide (x = a) then
      if decide (x = b) then Some ({[a]} ∪ ({[b]} ∪ default ∅ (m !! x)))
      else Some ({[b]} ∪ default ∅ (m !! x))
    else if decide (x = b) then Some ({[a]} ∪ default ∅ (m !! x))
    else m !! x.
Proof.
  unfold recordMatch. rewrite !lookup_alter, !ensureSet_lookup.
  repeat case_decide; subst; try congruence; simpl;
    rewrite ?ensureSet_lookup; repeat case_decide; try congruence;
    reflexivity.
Qed.

Lemma playedBefore_default (m : gmap string (gset string)) x y :
  playedBefore m x y ↔ y ∈ default (∅ : gset string) (m !! x).
Proof.
  unfold playedBefore. destruct (m !! x) as [s0|]; simpl; split.
  - intros (s & [= <-] & Hin). exact Hin.
  - intros Hin. eauto.
  - intros (s & [=] & _).
  - intros Hin. now apply not_elem_of_empty in Hin.
Qed.

Lemma playedBefore_recordMatch a b m x y :
  playedBefore (recordMatch a b m) x y
  ↔ playedBefore m x y ∨ (x = a ∧ y = b) ∨ (x = b ∧ y = a).
Proof.
  rewrite !playedBefore_default, recordMatch_lookup.
  repeat case_decide; simpl;
    rewrite ?elem_of_union, ?elem_of_singleton; intuition congruence.
Qed.

Lemma playedBefore_recordHistory history x y :
  playedBefore (recordHistory history) x y
  ↔ (x, y) ∈ history ∨ (y, x) ∈ history.
Proof.
  unfold recordHistory.
  induction history as [|[a b] h IH] using rev_ind.
  - simpl. unfold playedBefore. rewrite lookup_empty. split.
    + intros (s & [=] & _).
    + intros [Hin|Hin]; inversion Hin.
  - rewrite fold_left_app. simpl. rewrite playedBefore_recordMatch, IH.
    rewrite !elem_of_app, !list_elem_of_singleton.
    split.
    + intros [[?|?]|[[-> ->]|[-> ->]]]; auto.
    + intros [[?|[= -> ->]]|[?|[= -> ->]]]; auto.
Qed.

Lemma js_not_isMatchAlreadyPlayed played team1 team2 :
  js_not (isMatchAlreadyPlayed played team1 team2) = true
  ↔ ¬ playedBefore played (name team1) (name team2).
Proof.
  unfold isMatchAlreadyPlayed, playedBefore.
  destruct (played !! name team1) as [s|]; simpl.
  - rewrite negb_true_iff, bool_decide_eq_false. split.
    + intros Hn (s' & [= <-] & Hin). auto.
    + intros Hn Hin. apply Hn. eauto.
  - split; [|reflexivity]. intros _ (s & [=] & _).
Qed.

End Record.

(** ** The knockout draw *)

Section Draw.
Variable played : gmap string (gset string).

Lemma findOpponent_scan_Some used team candidates opponent :
  findOpponent_scan played used team candidates = Some opponent →
  opponent ∈ candidates
  ∧ ¬ playedBefore played (name team) (name opponent)
  ∧ name opponent ∉ used.
Proof.
  induction candidates as [|c l IH]; simpl; [discriminate|].
  destruct (js_not (isMatchAlreadyPlayed played team c)) eqn:Hc; simpl.
  - case_bool_decide as Hused; simpl.
    + intros Hl. destruct (IH Hl) as (? & ? & ?).
      split; [now right | auto].
    + intros [= <-]. split; [left|].
      split; [now apply js_not_isMatchAlreadyPlayed | exact Hused].
  - intros Hl. destruct (IH Hl) as (? & ? & ?). split; [now right | auto].
Qed.

Lemma pairTeam_Some hat2 st team1 opponent :
  findOpponent played st team1 hat2 = Some opponent →
  pairTeam played hat2 st team1
  = {| hats := hats st;
       quarterFinals := quarterFinals st ++ [(team1, opponent)];
       usedTeams := {[name opponent]} ∪ ({[name team1]} ∪ usedTeams st) |}.
Proof. intros Hf. unfold pairTeam. now rewrite Hf. Qed.

Lemma pairTeam_None hat2 st team1 :
  findOpponent played st team1 hat2 = None →
  pairTeam played hat2 st team1 = st.
Proof. intros Hf. unfold pairTeam. now rewrite Hf. Qed.

Lemma pairTeam_hats hat2 st team1 :
  hats (pairTeam played hat2 st team1) = hats st.
Proof. unfold pairTeam. destruct (findOpponent _ _ _ _); reflexivity. Qed.

Lemma fold_pairTeam_hats hat2 teams st :
  hats (fold_left (pairTeam played hat2) teams st) = hats st.
Proof.
  revert st. induction teams as [|t l IH]; intros st; simpl; [reflexivity|].
  now rewrite IH, pairTeam_hats.
Qed.

Lemma tryPairing_hats st : hats (tryPairing played st).1 = hats st.
Proof. unfold tryPairing. simpl. now rewrite !fold_pairTeam_hats. Qed.

Lemma findOpponent_pick st team1 hat2 b0 b1 opponent :
  hat hat2 (hats st) = [b0; b1] →
  findOpponent played st team1 hat2 = Some opponent →
  (opponent = b0 ∨ opponent = b1)
  ∧ notPlayed played (team1, opponent)
  ∧ name opponent ∉ usedTeams st.
Proof.
  intros Hhat Hf. unfold findOpponent in Hf. rewrite Hhat in Hf.
  apply findOpponent_scan_Some in Hf as (Hin & Hnp & Hused).
  split; [|split; [exact Hnp | exact Hused]].
  apply elem_of_cons in Hin as [->|Hin]; [now left|].
  apply list_elem_of_singleton in Hin as ->. now right.
Qed.

(** The innermost call of [pairTeam] in the goal is resolved into its two
    cases. *)
Ltac pair_step :=
  match goal with
  | |- context [pairTeam played ?h ?s ?t] =>
      lazymatch s with
      | context [pairTeam] => fail
      | _ =>
          let o := fresh "o" in
          let Ho := fresh "Ho" in
          destruct (findOpponent played s t h) as [o|] eqn:Ho;
          [ rewrite (pairTeam_Some h s t o Ho)
          | rewrite (pairTeam_None h s t Ho) ]; cbn
      end
  end.

Lemma not_used_ne (x y : string) (s : gset string) :
  x ∉ ({[y]} ∪ s : gset string) → x ≠ y.
Proof.
  intros Hx ->. apply Hx, elem_of_union_l, elem_of_singleton. reflexivity.
Qed.

Lemma crossPairing_intro a0 a1 b0 b1 o o' :
  (o = b0 ∨ o = b1) → (o' = b0 ∨ o' = b1) → name o' ≠ name o →
  crossPairing a0 a1 b0 b1 (a0, o) (a1, o').
Proof.
  intros [->| ->] [->| ->] Hne; try congruence;
    [left | right]; split; reflexivity.
Qed.

(** An attempt that ends with four pairs ends with a valid bracket. *)
Lemma tryPairing_sound d0 d1 e0 e1 f0 f1 g0 g1 :
  let st := {| hats := {| hat_D := [d0; d1]; hat_E := [e0; e1];
                          hat_F := [f0; f1]; hat_G := [g0; g1] |};
               quarterFinals := []; usedTeams := ∅ |} in
  (tryPairing played st).2 = true →
  validBracket played d0 d1 e0 e1 f0 f1 g0 g1
    (quarterFinals (tryPairing played st).1).
Proof.
  intros st. subst st. unfold tryPairing. cbn.
  do 4 pair_step; try discriminate. intros _.
  apply findOpponent_pick with (b0 := g0) (b1 := g1) in Ho as (Ho & Hp & _);
    [|reflexivity].
  apply findOpponent_pick with (b0 := g0) (b1 := g1) in Ho0 as (Ho0 & Hp0 & Hu0);
    [|reflexivity].
  apply findOpponent_pick with (b0 := f0) (b1 := f1) in Ho1 as (Ho1 & Hp1 & _);
    [|reflexivity].
  apply findOpponent_pick with (b0 := f0) (b1 := f1) in Ho2 as (Ho2 & Hp2 & Hu2);
    [|reflexivity].
  cbn in Hu0, Hu2.
  exists (d0, o), (d1, o0), (e0, o1), (e1, o2).
  split; [reflexivity|].
  split; [apply crossPairing_intro; eauto using not_used_ne|].
  split; [apply crossPairing_intro; eauto using not_used_ne|].
  repeat constructor; assumption.
Qed.

(** The loop alternates between two states: a failed attempt in one leads
    to the other. *)
Lemma drawLoop_start n r0 r1 r2 r3 r4 r5 r6 r7 :
  drawLoop played (S n) (drawStart r0 r1 r2 r3 r4 r5 r6 r7)
  = if (tryPairing played (drawStart r0 r1 r2 r3 r4 r5 r6 r7)).2
    then Bracket (quarterFinals
                    (tryPairing played (drawStart r0 r1 r2 r3 r4 r5 r6 r7)).1)
    else drawLoop played n (drawRotated r0 r1 r2 r3 r4 r5 r6 r7).
Proof.
  pose proof (tryPairing_hats (drawStart r0 r1 r2 r3 r4 r5 r6 r7)) as Hh.
  cbn [drawLoop].
  destruct (tryPairing played (drawStart r0 r1 r2 r3 r4 r5 r6 r7))
    as [st ok]. cbn [fst snd] in *.
  destruct ok; [reflexivity|]. rewrite Hh. reflexivity.
Qed.

Lemma drawLoop_rotated n r0 r1 r2 r3 r4 r5 r6 r7 :
  drawLoop played (S n) (drawRotated r0 r1 r2 r3 r4 r5 r6 r7)
  = if (tryPairing played (drawRotated r0 r1 r2 r3 r4 r5 r6 r7)).2
    then Bracket (quarterFinals
                    (tryPairing played (drawRotated r0 r1 r2 r3 r4 r5 r6 r7)).1)
    else drawLoop played n (drawStart r0 r1 r2 r3 r4 r5 r6 r7).
Proof.
  pose proof (tryPairing_hats (drawRotated r0 r1 r2 r3 r4 r5 r6 r7)) as Hh.
  cbn [drawLoop].
  destruct (tryPairing played (drawRotated r0 r1 r2 r3 r4 r5 r6 r7))
    as [st ok]. cbn [fst snd] in *.
  destruct ok; [reflexivity|]. rewrite Hh. reflexivity.
Qed.

Lemma crossPairing_swap a0 a1 b0 b1 p0 p1 :
  crossPairing a0 a1 b1 b0 p0 p1 → crossPairing a0 a1 b0 b1 p0 p1.
Proof. intros [Hc|Hc]; [right | left]; exact Hc. Qed.

Lemma validBracket_swap r0 r1 r2 r3 r4 r5 r6 r7 bracket :
  validBracket played r0 r1 r2 r3 r5 r4 r7 r6 bracket →
  validBracket played r0 r1 r2 r3 r4 r5 r6 r7 bracket.
Proof.
  intros (p0 & p1 & p2 & p3 & -> & Hdg & Hef & Hnp).
  exists p0, p1, p2, p3. auto using crossPairing_swap.
Qed.

Lemma drawLoop_sound r0 r1 r2 r3 r4 r5 r6 r7 bracket n :
  (drawLoop played n (drawStart r0 r1 r2 r3 r4 r5 r6 r7) = Bracket bracket →
   validBracket played r0 r1 r2 r3 r4 r5 r6 r7 bracket)
  ∧ (drawLoop played n (drawRotated r0 r1 r2 r3 r4 r5 r6 r7) = Bracket bracket →
     validBracket played r0 r1 r2 r3 r4 r5 r6 r7 bracket).
Proof.
  induction n as [|n [IHs IHr]]; [split; discriminate|].
  rewrite drawLoop_start, drawLoop_rotated. split.
  - destruct (tryPairing played (drawStart _ _ _ _ _ _ _ _)).2 eqn:Hok;
      [|exact IHr].
    intros [= <-]. now apply tryPairing_sound.
  - destruct (tryPairing played (drawRotated _ _ _ _ _ _ _ _)).2 eqn:Hok;
      [|exact IHs].
    intros [= <-]. now apply validBracket_swap, tryPairing_sound.
Qed.

(** Two failed attempts in a row bring the loop back to where it started. *)
Lemma drawLoop_stuck r0 r1 r2 r3 r4 r5 r6 r7 :
  (tryPairing played (drawStart r0 r1 r2 r3 r4 r5 r6 r7)).2 = false →
  (tryPairing played (drawRotated r0 r1 r2 r3 r4 r5 r6 r7)).2 = false →
  ∀ n, drawLoop played n (drawStart r0 r1 r2 r3 r4 r5 r6 r7) = StillRetrying
       ∧ drawLoop played n (drawRotated r0 r1 r2 r3 r4 r5 r6 r7) = StillRetrying.
Proof.
  intros Hs Hr. induction n as [|n [IHs IHr]]; [split; reflexivity|].
  rewrite drawLoop_start, drawLoop_rotated, Hs, Hr. split; assumption.
Qed.

(** The loop returns at the first or at the second attempt, or never. *)
Lemma drawLoop_two_attempts r0 r1 r2 r3 r4 r5 r6 r7 n bracket :
  drawLoop played n (drawStart r0 r1 r2 r3 r4 r5 r6 r7) = Bracket bracket →
  drawLoop played 2 (drawStart r0 r1 r2 r3 r4 r5 r6 r7) = Bracket bracket.
Proof.
  intros Hn.
  destruct (tryPairing played (drawStart r0 r1 r2 r3 r4 r5 r6 r7)).2 eqn:Hs.
  - destruct n as [|n]; [discriminate|].
    rewrite drawLoop_start, Hs in *. exact Hn.
  - destruct (tryPairing played (drawRotated r0 r1 r2 r3 r4 r5 r6 r7)).2 eqn:Hr.
    + destruct n as [|[|n]]; [discriminate| |].
      * rewrite drawLoop_start, Hs in Hn. discriminate.
      * rewrite drawLoop_start, Hs, drawLoop_rotated, Hr in *. exact Hn.
    + destruct (drawLoop_stuck _ _ _ _ _ _ _ _ Hs Hr n) as [Hstuck _].
      congruence.
Qed.

Lemma validBracket_Permutation r0 r1 r2 r3 r4 r5 r6 r7 bracket :
  validBracket played r0 r1 r2 r3 r4 r5 r6 r7 bracket →
  concat ((fun pairing => [(fst pairing); (snd pairing)]) <$> bracket)
    ≡ₚ [r0; r1; r2; r3; r4; r5; r6; r7].
Proof.
  intros (p0 & p1 & p2 & p3 & -> & Hdg & Hef & _).
  destruct Hdg as [[-> ->]|[-> ->]]; destruct Hef as [[-> ->]|[-> ->]]; cbn.
  all: solve_Permutation.
Qed.

End Draw.

(** C2. A bracket returned by [drawKnockoutStage] has four pairs; the first
    two pair the teams of hat D (ranks 1-2) with the two teams of hat G
    (ranks 7-8), the last two pair the teams of hat E (ranks 3-4) with the two
    teams of hat F (ranks 5-6); no pair was recorded, either way round, as a
    group-stage match; and the eight teams appear once each. *)
Theorem drawKnockoutStage_sound (history : list (string * string))
    (attempts : nat) (r0 r1 r2 r3 r4 r5 r6 r7 : Team) (more : list Team)
    (bracket : list (Team * Team)) :
  drawKnockoutStage (recordHistory history) attempts
    (r0 :: r1 :: r2 :: r3 :: r4 :: r5 :: r6 :: r7 :: more) = Bracket bracket →
  validBracket (recordHistory history) r0 r1 r2 r3 r4 r5 r6 r7 bracket
  ∧ length bracket = 4%nat
  ∧ Forall (fun pairing =>
              ((name (fst pairing), name (snd pairing)) ∉ history)
              ∧ ((name (snd pairing), name (fst pairing)) ∉ history)) bracket
  ∧ concat ((fun pairing => [(fst pairing); (snd pairing)]) <$> bracket)
      ≡ₚ [r0; r1; r2; r3; r4; r5; r6; r7].
Proof.
  intros Hdraw. unfold drawKnockoutStage in Hdraw.
  apply (drawLoop_sound (recordHistory history) r0 r1 r2 r3 r4 r5 r6 r7) in Hdraw.
  split; [exact Hdraw|].
  split.
  { destruct Hdraw as (p0 & p1 & p2 & p3 & -> & _). reflexivity. }
  split.
  - destruct Hdraw as (p0 & p1 & p2 & p3 & -> & _ & _ & Hnp).
    eapply Forall_impl; [exact Hnp|].
    intros pairing Hpair. unfold notPlayed in Hpair.
    rewrite playedBefore_recordHistory in Hpair. tauto.
  - eapply validBracket_Permutation. exact Hdraw.
Qed.

(** The witness of [drawKnockoutStage_sound]: T1 has met T7 in the group
    stage, and the draw pairs T1 with T8. *)
Lemma drawKnockoutStage_sound_witness :
  validBracket (recordHistory [("T1", "T7")]) T1 T2 T3 T4 T5 T6 T7 T8
    [(T1, T8); (T2, T7); (T3, T5); (T4, T6)]
  ∧ length [(T1, T8); (T2, T7); (T3, T5); (T4, T6)] = 4%nat
  ∧ Forall (fun pairing =>
              ((name (fst pairing), name (snd pairing)) ∉ [("T1", "T7")])
              ∧ ((name (snd pairing), name (fst pairing)) ∉ [("T1", "T7")]))
      [(T1, T8); (T2, T7); (T3, T5); (T4, T6)]
  ∧ concat ((fun pairing => [(fst pairing); (snd pairing)])
              <$> [(T1, T8); (T2, T7); (T3, T5); (T4, T6)])
      ≡ₚ [T1; T2; T3; T4; T5; T6; T7; T8].
Proof.
  apply (drawKnockoutStage_sound [("T1", "T7")] 1 T1 T2 T3 T4 T5 T6 T7 T8 []).
  vm_compute. reflexivity.
Defined.

(** The group stage itself produces the two records used below: they are
    [this.groupStageMatches] after [simulateGroupStages] on the groups. *)
Lemma simulateGroupStages_records :
  (∃ groupResults w,
     @simulateGroupStages ratMath (rosters groupsLockstep) (world0 drawsAllNil)
       = Ret groupResults w
     ∧ groupStageMatches w = playedLockstep)
  ∧ (∃ groupResults w,
       @simulateGroupStages ratMath (rosters groupsBlocked) (world0 drawsAllNil)
         = Ret groupResults w
       ∧ groupStageMatches w = playedBlocked).
Proof.
  split; eexists; eexists; (split; [vm_compute; reflexivity|]);
    vm_compute; reflexivity.
Qed.

(** C1, at a history for which the claim fails.  T2 has met T8 and T4 has met
    T5; the bracket T1-T8, T2-T7, T3-T5, T4-T6 is valid.  With the hats in
    their initial order the attempt makes three pairs (T2 is left without an
    opponent), with hats G and F both rotated it makes three pairs again (T4
    is left without one), and the next rotation restores the initial order:
    the loop does not end. *)
Theorem lockstep_rotation_misses_valid_bracket :
  validBracket playedLockstep T1 T2 T3 T4 T5 T6 T7 T8
    [(T1, T8); (T2, T7); (T3, T5); (T4, T6)]
  ∧ quarterFinals (tryPairing playedLockstep
                     (drawStart T1 T2 T3 T4 T5 T6 T7 T8)).1
    = [(T1, T7); (T3, T5); (T4, T6)]
  ∧ quarterFinals (tryPairing playedLockstep
                     (drawRotated T1 T2 T3 T4 T5 T6 T7 T8)).1
    = [(T1, T8); (T2, T7); (T3, T6)]
  ∧ ∀ attempts,
      drawKnockoutStage playedLockstep attempts eightTeams = StillRetrying.
Proof.
  split.
  { exists (T1, T8), (T2, T7), (T3, T5), (T4, T6).
    split; [reflexivity|].
    split; [right; split; reflexivity|].
    split; [left; split; reflexivity|].
    repeat constructor; apply js_not_isMatchAlreadyPlayed;
      vm_compute; reflexivity. }
  split; [vm_compute; reflexivity|].
  split; [vm_compute; reflexivity|].
  intros attempts.
  apply (drawLoop_stuck playedLockstep T1 T2 T3 T4 T5 T6 T7 T8);
    vm_compute; reflexivity.
Qed.

(** C6, as stated, fails: when T1 has met both T7 and T8 no valid bracket
    exists, and the draw neither stops nor reports anything, whatever the
    number of iterations. *)
Lemma blocked_draw_never_stops :
  (¬ ∃ bracket, validBracket playedBlocked T1 T2 T3 T4 T5 T6 T7 T8 bracket)
  ∧ ¬ ∃ attempts,
        drawKnockoutStage playedBlocked attempts eightTeams ≠ StillRetrying.
Proof.
  split.
  - intros (bracket & p0 & p1 & p2 & p3 & -> & Hdg & _ & Hnp).
    apply Forall_cons in Hnp as [Hnp _].
    apply js_not_isMatchAlreadyPlayed in Hnp.
    destruct Hdg as [[-> _]|[-> _]]; vm_compute in Hnp; discriminate.
  - intros [attempts Hstop]. apply Hstop.
    apply (drawLoop_stuck playedBlocked T1 T2 T3 T4 T5 T6 T7 T8);
      vm_compute; reflexivity.
Qed.

(** C6, amended. When the draw cannot converge — the attempt fails with the
    hats in their initial order and fails with hats G and F both rotated,
    which is the case whenever no valid bracket exists — [drawKnockoutStage]
    does not stop: after any number of iterations it is about to retry, and
    it raises no error. *)
Theorem drawKnockoutStage_unbounded (played : gmap string (gset string))
    (r0 r1 r2 r3 r4 r5 r6 r7 : Team) (more : list Team) :
  ((tryPairing played (drawStart r0 r1 r2 r3 r4 r5 r6 r7)).2 = false →
   (tryPairing played (drawRotated r0 r1 r2 r3 r4 r5 r6 r7)).2 = false →
   ∀ attempts,
     drawKnockoutStage played attempts
       (r0 :: r1 :: r2 :: r3 :: r4 :: r5 :: r6 :: r7 :: more) = StillRetrying)
  ∧ ((¬ ∃ bracket, validBracket played r0 r1 r2 r3 r4 r5 r6 r7 bracket) →
     (tryPairing played (drawStart r0 r1 r2 r3 r4 r5 r6 r7)).2 = false
     ∧ (tryPairing played (drawRotated r0 r1 r2 r3 r4 r5 r6 r7)).2 = false).
Proof.
  split.
  - intros Hs Hr attempts.
    apply (drawLoop_stuck played r0 r1 r2 r3 r4 r5 r6 r7 Hs Hr).
  - intros Hnone. split.
    + destruct (tryPairing played (drawStart _ _ _ _ _ _ _ _)).2 eqn:Hok;
        [|reflexivity].
      exfalso. apply Hnone. eexists.
      apply (tryPairing_sound played r0 r1 r2 r3 r4 r5 r6 r7 Hok).
    + destruct (tryPairing played (drawRotated _ _ _ _ _ _ _ _)).2 eqn:Hok;
        [|reflexivity].
      exfalso. apply Hnone. eexists.
      apply validBracket_swap.
      apply (tryPairing_sound played r0 r1 r2 r3 r5 r4 r7 r6 Hok).
Qed.

(** The witness of [drawKnockoutStage_unbounded]: T1 has met T7 and T8;
    after a hundred iterations the loop is about to retry. *)
Lemma drawKnockoutStage_unbounded_witness :
  drawKnockoutStage playedBlocked 100 eightTeams = StillRetrying.
Proof.
  apply (proj1 (drawKnockoutStage_unbounded playedBlocked
                  T1 T2 T3 T4 T5 T6 T7 T8 [])).
  - vm_compute. reflexivity.
  - vm_compute. reflexivity.
Defined.

(** * Further properties *)

(** ** The standings order *)

Section Sorting.

Ltac unfold_cmp :=
  unfold standsAbove, level, compareTeams, js_or, goalDifference in *;
  repeat match goal with
         | |- context [?x =? ?y] => destruct (Z.eqb_spec x y)
         | H : context [?x =? ?y] |- _ => destruct (Z.eqb_spec x y)
         end.

Lemma compareTeams_standsAbove a b : compareTeams a b <= 0 ↔ standsAbove a b.
Proof. unfold_cmp; lia. Qed.

Lemma compareTeams_level a b : compareTeams a b = 0 ↔ level a b.
Proof. unfold_cmp; lia. Qed.

Lemma standsAbove_trans a b c :
  standsAbove a b → standsAbove b c → standsAbove a c.
Proof. unfold_cmp; lia. Qed.

Lemma standsAbove_total a b : standsAbove a b ∨ standsAbove b a.
Proof. unfold_cmp; lia. Qed.

Lemma standsAbove_both a b : standsAbove a b → standsAbove b a → level a b.
Proof. unfold_cmp; lia. Qed.

Lemma level_trans_l t a b : level t a → (level t b ↔ level a b).
Proof. unfold_cmp; lia. Qed.

Lemma level_standsAbove a b : level a b → standsAbove a b.
Proof. unfold_cmp; lia. Qed.

Lemma sort_insert_sorted x l :
  StronglySorted standsAbove l → StronglySorted standsAbove (sort_insert x l).
Proof.
  induction 1 as [|y l Hl IH Hy]; simpl.
  - repeat constructor.
  - destruct (Z.leb_spec (compareTeams x y) 0) as [Hle|Hgt].
    + apply compareTeams_standsAbove in Hle.
      constructor; [now constructor|].
      constructor; [exact Hle|].
      eapply Forall_impl; [exact Hy|].
      intros z Hz. eapply standsAbove_trans; eauto.
    + assert (standsAbove y x) as Hyx.
      { destruct (standsAbove_total x y) as [Hxy|Hyx]; [|exact Hyx].
        apply compareTeams_standsAbove in Hxy. lia. }
      constructor; [exact IH|].
      rewrite sort_insert_Permutation. constructor; assumption.
Qed.

Lemma sortTeamsByPerformance_sorted l :
  StronglySorted standsAbove (sortTeamsByPerformance l).
Proof.
  induction l as [|x l IH]; simpl; [constructor|].
  now apply sort_insert_sorted.
Qed.

(** A team inserted in a sorted table goes in front of the teams level with
    it. *)
Lemma sort_insert_filter_level t x l :
  StronglySorted standsAbove l →
  filter (level t) (sort_insert x l) = filter (level t) (x :: l).
Proof.
  induction 1 as [|y l Hl IH Hy]; simpl; [reflexivity|].
  destruct (Z.leb_spec (compareTeams x y) 0) as [Hle|Hgt]; [reflexivity|].
  rewrite (filter_cons _ y), IH, !(filter_cons _ x), (filter_cons _ y).
  destruct (decide (level t x)) as [Htx|Htx]; [|reflexivity].
  destruct (decide (level t y)) as [Hty|Hty]; [|reflexivity].
  exfalso.
  assert (level x y) as Hxy by (apply (level_trans_l t); assumption).
  apply compareTeams_level in Hxy. lia.
Qed.

End Sorting.

(** X1. [sortTeamsByPerformance] returns the teams it was given, ordered by
    points, then goal difference, then points scored, each from high to low:
    the comparator is at most 0 exactly when its first argument stands at
    least as high, and every team of the result stands at least as high as
    all the teams after it. *)
Theorem sortTeamsByPerformance_ranked (results : list Team) :
  sortTeamsByPerformance results ≡ₚ results
  ∧ StronglySorted standsAbove (sortTeamsByPerformance results)
  ∧ ∀ a b, compareTeams a b <= 0 ↔ standsAbove a b.
Proof.
  split; [apply sortTeamsByPerformance_Permutation|].
  split; [apply sortTeamsByPerformance_sorted|].
  apply compareTeams_standsAbove.
Qed.

Lemma sort_keeps_level_order (results : list Team) (t : Team) :
  filter (level t) (sortTeamsByPerformance results) = filter (level t) results.
Proof.
  induction results as [|x l IH]; simpl; [reflexivity|].
  rewrite sort_insert_filter_level by apply sortTeamsByPerformance_sorted.
  rewrite !(filter_cons _ x), IH. reflexivity.
Qed.


(** X2. The sort is stable: the teams level with a given team on points,
    goal difference and points scored come out in the order in which they
    went in. *)
Theorem sortTeamsByPerformance_stable (results : list Team) (t : Team) :
  filter (level t) (sortTeamsByPerformance results) = filter (level t) results.
Proof. apply sort_keeps_level_order. Qed.

Lemma sorted_head_shared l1 l2 x y :
  StronglySorted standsAbove (x :: l1) →
  StronglySorted standsAbove (y :: l2) →
  (∀ t, filter (level t) (x :: l1) = filter (level t) (y :: l2)) →
  x = y.
Proof.
  intros H1 H2 Hfilter.
  assert (Hin : ∀ (a : Team) (l l' : list Team),
             filter (level a) l = filter (level a) l' → a ∈ l → a ∈ l').
  { intros a l l' Heq Ha.
    assert (a ∈ filter (level a) l) as Hf
      by (apply list_elem_of_filter; split; [repeat split|exact Ha]).
    rewrite Heq in Hf. now apply list_elem_of_filter in Hf as [_ ?]. }
  assert (standsAbove x y) as Hxy.
  { assert (y ∈ x :: l1) as Hy
      by (apply (Hin y (y :: l2)); [symmetry; apply Hfilter | left]).
    apply elem_of_cons in Hy as [->|Hy]; [apply level_standsAbove; repeat split|].
    apply StronglySorted_cons in H1 as [H1 _].
    rewrite Forall_forall in H1. auto. }
  assert (standsAbove y x) as Hyx.
  { assert (x ∈ y :: l2) as Hx by (apply (Hin x (x :: l1)); [apply Hfilter | left]).
    apply elem_of_cons in Hx as [->|Hx]; [apply level_standsAbove; repeat split|].
    apply StronglySorted_cons in H2 as [H2 _].
    rewrite Forall_forall in H2. auto. }
  pose proof (standsAbove_both x y Hxy Hyx) as Hlevel.
  specialize (Hfilter x).
  rewrite filter_cons_True in Hfilter by (repeat split).
  rewrite filter_cons_True in Hfilter by exact Hlevel.
  congruence.
Qed.

(** X3. The result does not depend on the sorting algorithm: a list that is
    ordered in the same way and keeps the teams level with one another in
    their input order is the list [sortTeamsByPerformance] returns. *)
Theorem stable_sort_unique (results sorted : list Team) :
  StronglySorted standsAbove sorted →
  (∀ t, filter (level t) sorted = filter (level t) results) →
  sorted = sortTeamsByPerformance results.
Proof.
  intros Hsorted Hstable.
  assert (Hst : ∀ t, filter (level t) sorted
                     = filter (level t) (sortTeamsByPerformance results))
    by (intros t; now rewrite sort_keeps_level_order).
  pose proof (sortTeamsByPerformance_sorted results) as Hs2.
  clear Hstable. revert Hsorted Hs2 Hst.
  generalize (sortTeamsByPerformance results) as l2.
  induction sorted as [|x l1 IH]; intros [|y l2] H1 H2 Hst.
  - reflexivity.
  - specialize (Hst y). rewrite filter_cons_True in Hst by (repeat split).
    discriminate.
  - specialize (Hst x). rewrite filter_cons_True in Hst by (repeat split).
    discriminate.
  - assert (x = y) as -> by (eapply sorted_head_shared; eauto).
    f_equal. apply IH.
    + now apply StronglySorted_cons in H1 as [_ ?].
    + now apply StronglySorted_cons in H2 as [_ ?].
    + intros t. specialize (Hst t). rewrite !(filter_cons _ y) in Hst.
      destruct (decide (level t y)); congruence.
Qed.

(** The witness of [stable_sort_unique]: B and C, level with each other, keep
    their order in front of A. *)
Lemma stable_sort_unique_witness :
  [highTeam1; highTeam2; lowTeam] = sortTeamsByPerformance threeTeams.
Proof.
  apply (stable_sort_unique threeTeams).
  - apply (bool_decide_unpack _). vm_compute. exact I.
  - intros t. unfold threeTeams. rewrite !filter_cons, !filter_nil.
    repeat case_decide; try reflexivity;
      exfalso; unfold level, goalDifference in *; simpl in *; lia.
Defined.

(** X4. [rankTeamsForKnockout] keeps the first TEAM_RANK_LIMIT = 8 teams of
    the sorted list of all group teams, or all of them when there are fewer:
    the teams kept and the teams left out are together the teams of the
    groups, the teams kept are in standings order, and each of them stands at
    least as high as every team left out. *)
Theorem rankTeamsForKnockout_top (groupResults : list (string * list Team)) :
  length (rankTeamsForKnockout groupResults)
    = (length (allTeams groupResults) `min` 8)%nat
  ∧ rankTeamsForKnockout groupResults ++ leftOut groupResults
      ≡ₚ allTeams groupResults
  ∧ StronglySorted standsAbove (rankTeamsForKnockout groupResults)
  ∧ ∀ kept out,
      kept ∈ rankTeamsForKnockout groupResults →
      out ∈ leftOut groupResults →
      standsAbove kept out.
Proof.
  unfold rankTeamsForKnockout, leftOut, allTeams.
  set (all := concat (snd <$> groupResults)).
  pose proof (sortTeamsByPerformance_sorted all) as Hsorted.
  rewrite <- (take_drop TEAM_RANK_LIMIT (sortTeamsByPerformance all)) in Hsorted.
  apply StronglySorted_app in Hsorted as (Hcross & Hkept & _).
  split.
  { rewrite length_take, sortTeamsByPerformance_Permutation.
    unfold TEAM_RANK_LIMIT. lia. }
  split; [now rewrite take_drop, sortTeamsByPerformance_Permutation|].
  split; [exact Hkept | exact Hcross].
Qed.

(** The witness of [rankTeamsForKnockout_top]: of nine teams, the one with
    points is kept and T8 is left out. *)
Lemma rankTeamsForKnockout_top_witness :
  standsAbove lowTeam T8.
Proof.
  apply (proj2 (proj2 (proj2 (rankTeamsForKnockout_top nineTeamTables)))).
  - apply list_elem_of_In. vm_compute. auto.
  - apply list_elem_of_In. vm_compute. auto.
Defined.

(** ** The score loop *)

Section ScoreLoop.

Lemma Qgtb_spec (x y : Q) : reflect (y < x)%Q (Qgtb x y).
Proof.
  destruct (Qgtb x y) eqn:E; constructor.
  - unfold Qgtb in E. apply negb_true_iff in E.
    destruct (Qlt_le_dec y x) as [Hlt|Hle]; [exact Hlt|].
    apply Qle_bool_iff in Hle. congruence.
  - unfold Qgtb in E. apply negb_false_iff, Qle_bool_iff in E. lra.
Qed.

Lemma poissonLoop_stops L us :
  ∀ p k score rest,
    poissonLoop L p k us = Some (score, rest)
    ↔ ∃ pre u,
        us = pre ++ u :: rest
        ∧ score = k + Z.of_nat (length pre)
        ∧ Forall (fun q => (L < q)%Q) (runningProducts p pre)
        ∧ (fold_left Qmult (pre ++ [u]) p <= L)%Q.
Proof.
  induction us as [|u0 us IH]; intros p k score rest; simpl.
  - split; [discriminate|]. intros (pre & u & Hus & _). now destruct pre.
  - destruct (Qgtb_spec (p * u0) L) as [Hgt|Hle].
    + rewrite IH. split.
      * intros (pre & u & -> & -> & Hall & Hlast).
        exists (u0 :: pre), u. simpl.
        split; [reflexivity|]. split; [lia|]. split; [now constructor|exact Hlast].
      * intros (pre & u & Hus & -> & Hall & Hlast).
        destruct pre as [|u1 pre]; simpl in *.
        -- injection Hus as -> ->. lra.
        -- injection Hus as -> ->. apply Forall_cons in Hall as [_ Hall].
           exists pre, u. split; [reflexivity|]. split; [lia|]. auto.
    + split.
      * intros [= <- <-]. exists [], u0. simpl.
        split; [reflexivity|]. split; [lia|]. split; [constructor|lra].
      * intros (pre & u & Hus & -> & Hall & Hlast).
        destruct pre as [|u1 pre]; simpl in *.
        -- injection Hus as -> ->. do 2 f_equal. lia.
        -- injection Hus as -> ->. apply Forall_cons in Hall as [Hgt _]. lra.
Qed.

(** With a larger threshold the loop stops no later. *)
Lemma poissonLoop_monotone L1 L2 us :
  (L1 <= L2)%Q →
  ∀ p k s1 r1,
    poissonLoop L1 p k us = Some (s1, r1) →
    ∃ s2 r2, poissonLoop L2 p k us = Some (s2, r2) ∧ s2 <= s1.
Proof.
  intros HL. induction us as [|u us IH]; intros p k s1 r1; simpl; [discriminate|].
  destruct (Qgtb_spec (p * u) L1) as [H1|H1];
    destruct (Qgtb_spec (p * u) L2) as [H2|H2].
  - apply IH.
  - intros Hloop. apply poissonLoop_lower_bound in Hloop.
    eexists _, _. split; [reflexivity|]. lia.
  - lra.
  - intros [= <- <-]. eexists _, _. split; [reflexivity|]. lia.
Qed.

Lemma exp_rat_monotone : @expMonotone ratMath.
Proof.
  intros x y Hxy. simpl. unfold exp_rat.
  destruct (Qle_bool 0 x) eqn:Ex; destruct (Qle_bool 0 y) eqn:Ey.
  - lra.
  - apply Qle_bool_iff in Ex.
    assert (¬ (0 <= y)%Q) by (rewrite <- Qle_bool_iff; congruence). lra.
  - assert (¬ (0 <= x)%Q) as Hx by (rewrite <- Qle_bool_iff; congruence).
    apply Qle_bool_iff in Ey.
    apply Qle_trans with 1%Q; [|lra].
    apply Qle_shift_div_r; lra.
  - assert (¬ (0 <= x)%Q) as Hx by (rewrite <- Qle_bool_iff; congruence).
    assert (¬ (0 <= y)%Q) as Hy by (rewrite <- Qle_bool_iff; congruence).
    apply Qle_shift_div_r; [lra|].
    assert (1 / (1 - y) * (1 - x) == (1 - x) / (1 - y))%Q as -> by (field; lra).
    apply Qle_shift_div_l; lra.
Qed.

End ScoreLoop.

Lemma generatePoissonScore_inv `{Math} (lambda : Q) (w w' : World)
    (score : Z) :
  generatePoissonScore lambda w = Ret score w'
  ↔ ∃ pre u rest,
      draws w = pre ++ u :: rest
      ∧ score = Z.of_nat (length pre)
      ∧ Forall (fun q => (Math_exp (- lambda) < q)%Q) (runningProducts 1 pre)
      ∧ (fold_left Qmult (pre ++ [u]) 1 <= Math_exp (- lambda))%Q
      ∧ w' = withDraws rest w.
Proof.
  unfold generatePoissonScore. split.
  - destruct (poissonLoop _ _ _ _) as [[s rest]|] eqn:Hloop; [|discriminate].
    intros [= <- <-].
    apply poissonLoop_stops in Hloop as (pre & u & Hd & Hs & Hall & Hlast).
    exists pre, u, rest. split; [exact Hd|]. split; [lia|]. auto.
  - intros (pre & u & rest & Hd & Hs & Hall & Hlast & ->).
    assert (poissonLoop (Math_exp (- lambda)) 1 0 (draws w) = Some (score, rest))
      as -> by (apply poissonLoop_stops; exists pre, u; split; [exact Hd|];
                split; [lia|]; auto).
    reflexivity.
Qed.


(** A draw equal to 0 ends the loop, whatever the product was. *)
Lemma poissonLoop_zero_draw L u rest :
  (0 <= L)%Q → (u == 0)%Q →
  ∀ pre p k,
    ∃ score rest',
      poissonLoop L p k (pre ++ u :: rest) = Some (score, rest')
      ∧ score <= k + Z.of_nat (length pre).
Proof.
  intros HL Hu. induction pre as [|u0 pre IH]; intros p k; simpl.
  - assert (p * u == 0)%Q as Hp by (rewrite Hu; ring).
    destruct (Qgtb_spec (p * u) L) as [Hgt|_]; [lra|].
    eexists _, _. split; [reflexivity|]. lia.
  - destruct (Qgtb_spec (p * u0) L) as [_|_].
    + destruct (IH (p * u0)%Q (k + 1)) as (score & rest' & -> & Hs).
      eexists _, _. split; [reflexivity|]. lia.
    + eexists _, _. split; [reflexivity|]. lia.
Qed.

(** X5. What [generatePoissonScore] does with its draws, as far as no
    product of two draws is involved: the score is 0 exactly when the first
    draw is at most L = exp(-lambda); a returned score k means that k+1
    draws were taken from the front and nothing else was changed; and a draw
    equal to 0 always ends the loop (L being at least 0), so the score is at
    most the number of draws before it. *)
Theorem generatePoissonScore_draws `{Math} (lambda : Q) (w : World) :
  (∀ u rest w',
     draws w = u :: rest →
     generatePoissonScore lambda w = Ret 0 w'
     ↔ (u <= Math_exp (- lambda))%Q ∧ w' = withDraws rest w)
  ∧ (∀ score w',
       generatePoissonScore lambda w = Ret score w' →
       0 <= score
       ∧ console w' = console w
       ∧ groupStageMatches w' = groupStageMatches w
       ∧ ∃ taken, draws w = taken ++ draws w'
                  ∧ Z.of_nat (length taken) = score + 1)
  ∧ (∀ pre u rest,
       (0 <= Math_exp (- lambda))%Q →
       draws w = pre ++ u :: rest →
       (u == 0)%Q →
       ∃ score w',
         generatePoissonScore lambda w = Ret score w'
         ∧ score <= Z.of_nat (length pre)).
Proof.
  split; [|split].
  - intros u rest w' Hd. unfold generatePoissonScore. rewrite Hd.
    cbn [poissonLoop]. cbn zeta.
    destruct (Qgtb_spec (1 * u) (Math_exp (- lambda))) as [Hgt|Hle].
    + split.
      * destruct (poissonLoop _ _ _ rest) as [[s r]|] eqn:Hloop; [|discriminate].
        intros [= -> _]. apply poissonLoop_lower_bound in Hloop. lia.
      * intros [Hle _]. lra.
    + split.
      * intros [= <-]. split; [lra | reflexivity].
      * intros [_ ->]. reflexivity.
  - intros score w' Hrun.
    apply generatePoissonScore_inv in Hrun
      as (pre & u & rest & Hd & -> & _ & _ & ->).
    split; [lia|]. split; [reflexivity|]. split; [reflexivity|].
    exists (pre ++ [u]). simpl. rewrite <- app_assoc. split; [exact Hd|].
    rewrite length_app. simpl. lia.
  - intros pre u rest HL Hd Hu. unfold generatePoissonScore. rewrite Hd.
    destruct (poissonLoop_zero_draw _ u rest HL Hu pre 1%Q 0)
      as (score & rest' & -> & Hs).
    eexists _, _. split; [reflexivity|]. lia.
Qed.

(** The witness of [generatePoissonScore_draws]: with the draws 1/2, 1/2, 0
    and 1/3 the score is at most 2. *)
Lemma generatePoissonScore_draws_witness :
  ∃ score w',
    @generatePoissonScore ratMath 80 (world0 [1 # 2; 1 # 2; 0; 1 # 3]%Q)
    = Ret score w'
    ∧ score <= 2.
Proof.
  apply (proj2 (proj2 (@generatePoissonScore_draws ratMath 80
                         (world0 [1 # 2; 1 # 2; 0; 1 # 3]%Q)))
           [1 # 2; 1 # 2]%Q 0%Q [1 # 3]%Q).
  - vm_compute. discriminate.
  - reflexivity.
  - reflexivity.
Defined.

(** X6. For the same draws a higher lambda never gives a lower score, as
    long as [Math.exp] does not decrease: if the call with the lower lambda
    returns, so does the call with the higher one (from the draws that the
    latter needs), with a score at least as high. *)
Theorem generatePoissonScore_monotone `{Math} (lambda1 lambda2 : Q)
    (w w2 : World) (score2 : Z) :
  expMonotone →
  (lambda1 <= lambda2)%Q →
  generatePoissonScore lambda2 w = Ret score2 w2 →
  ∃ score1 w1,
    generatePoissonScore lambda1 w = Ret score1 w1 ∧ score1 <= score2.
Proof.
  intros Hexp Hlambda. unfold generatePoissonScore.
  destruct (poissonLoop (Math_exp (- lambda2)) _ _ _) as [[s rest]|] eqn:Hloop;
    [|discriminate].
  intros [= <- <-].
  assert (Math_exp (- lambda2) <= Math_exp (- lambda1))%Q as HL
    by (apply Hexp; lra).
  destruct (poissonLoop_monotone _ _ _ HL _ _ _ _ Hloop) as (s1 & r1 & -> & Hs).
  eauto.
Qed.

(** The witness of [generatePoissonScore_monotone]: under the draws 1/50, 0
    the score is 0 for lambda = 20 and 1 for lambda = 80. *)
Lemma generatePoissonScore_monotone_witness :
  ∃ score1 w1,
    @generatePoissonScore ratMath 20 (world0 [1 # 50; 0]%Q) = Ret score1 w1
    ∧ score1 <= 1.
Proof.
  apply (@generatePoissonScore_monotone ratMath 20 80
           (world0 [1 # 50; 0]%Q) (world0 []) 1 exp_rat_monotone).
  - vm_compute. discriminate.
  - vm_compute. reflexivity.
Defined.

(** X7. The expected points of the two sides of a game add up to 160; with
    equal rankings both are 80, and the side with the lower ranking number
    is expected to score more than 80, the other side less. *)
Theorem calculateExpectedPoints_sides (ranking1 ranking2 : Q) :
  (calculateExpectedPoints ranking1 ranking2
   + calculateExpectedPoints ranking2 ranking1 == 160)%Q
  ∧ ((ranking1 == ranking2)%Q →
     (calculateExpectedPoints ranking1 ranking2 == 80)%Q)
  ∧ ((ranking1 < ranking2)%Q →
     (calculateExpectedPoints ranking2 ranking1 < 80)%Q
     ∧ (80 < calculateExpectedPoints ranking1 ranking2)%Q).
Proof.
  unfold calculateExpectedPoints. cbn zeta.
  split; [|split]; intros; try split; lra.
Qed.

(** The witness of [calculateExpectedPoints_sides]: rankings 4 and 34. *)
Lemma calculateExpectedPoints_sides_witness :
  (calculateExpectedPoints 34 4 < 80)%Q ∧ (80 < calculateExpectedPoints 4 34)%Q.
Proof.
  apply (proj2 (proj2 (calculateExpectedPoints_sides 4 34))).
  vm_compute. reflexivity.
Defined.

(** ** Runs of a game *)

Section Games.
Context `{Math}.

Lemma generatePoissonScore_run lambda w score w' :
  generatePoissonScore lambda w = Ret score w' →
  0 <= score
  ∧ console w' = console w
  ∧ groupStageMatches w' = groupStageMatches w
  ∧ ∃ taken, draws w = taken ++ draws w'
             ∧ Z.of_nat (length taken) = score + 1.
Proof.
  intros Hrun.
  apply generatePoissonScore_inv in Hrun
    as (pre & u & rest & Hd & -> & _ & _ & ->).
  split; [lia|]. split; [reflexivity|]. split; [reflexivity|].
  exists (pre ++ [u]). simpl. rewrite <- app_assoc. split; [exact Hd|].
  rewrite length_app. simpl. lia.
Qed.

Lemma simulateGamePoisson_run ranking1 ranking2 form1 form2 w score1 score2 w' :
  simulateGamePoisson ranking1 ranking2 form1 form2 w = Ret (score1, score2) w' →
  0 <= score1 ∧ 0 <= score2
  ∧ console w' = console w
  ∧ groupStageMatches w' = groupStageMatches w
  ∧ ∃ taken, draws w = taken ++ draws w'
             ∧ Z.of_nat (length taken) = score1 + score2 + 2.
Proof.
  unfold simulateGamePoisson. cbn zeta. intros Hrun.
  apply bind_Ret in Hrun as (s1 & w1 & Hrun1 & Hrun).
  apply bind_Ret in Hrun as (s2 & w2 & Hrun2 & Hrun).
  apply ret_Ret in Hrun as [[= -> ->] ->].
  apply generatePoissonScore_run in Hrun1 as (Hs1 & Hc1 & Hg1 & t1 & Hd1 & Hl1).
  apply generatePoissonScore_run in Hrun2 as (Hs2 & Hc2 & Hg2 & t2 & Hd2 & Hl2).
  split; [exact Hs1|]. split; [exact Hs2|].
  split; [congruence|]. split; [congruence|].
  exists (t1 ++ t2). rewrite <- app_assoc, <- Hd2, <- Hd1.
  split; [reflexivity|]. rewrite length_app. lia.
Qed.

Lemma simulateGamePoisson_no_throw ranking1 ranking2 form1 form2 w :
  simulateGamePoisson ranking1 ranking2 form1 form2 w ≠ TypeError.
Proof.
  unfold simulateGamePoisson, bind, generatePoissonScore. cbn zeta.
  destruct (poissonLoop _ _ _ _) as [[s1 r1]|]; [|discriminate]. cbn.
  destruct (poissonLoop _ _ _ _) as [[s2 r2]|]; discriminate.
Qed.

End Games.

(** X8. A game returns two scores that are integers greater than or equal to
    0, takes score1 + score2 + 2 draws from the front of the sequence,
    writes nothing and records nothing; it never throws. *)
Theorem simulateGamePoisson_effect `{Math} (ranking1 ranking2 : Q)
    (form1 form2 : option Q) (w : World) :
  simulateGamePoisson ranking1 ranking2 form1 form2 w ≠ TypeError
  ∧ ∀ score1 score2 w',
      simulateGamePoisson ranking1 ranking2 form1 form2 w
        = Ret (score1, score2) w' →
      0 <= score1 ∧ 0 <= score2
      ∧ console w' = console w
      ∧ groupStageMatches w' = groupStageMatches w
      ∧ ∃ taken, draws w = taken ++ draws w'
                 ∧ Z.of_nat (length taken) = score1 + score2 + 2.
Proof.
  split; [apply simulateGamePoisson_no_throw|].
  intros score1 score2 w'. apply simulateGamePoisson_run.
Qed.

(** The witness of [simulateGamePoisson_effect]: a game that ends 1:0 takes
    three draws. *)
Lemma simulateGamePoisson_effect_witness :
  ∃ taken, oneNil ++ [1 # 3]%Q = taken ++ [1 # 3]%Q
           ∧ Z.of_nat (length taken) = 1 + 0 + 2.
Proof.
  destruct (proj2 (@simulateGamePoisson_effect ratMath 10 10 None None
                     (world0 (oneNil ++ [1 # 3]%Q))) 1 0 (world0 [1 # 3]%Q))
    as (_ & _ & _ & _ & Htaken).
  - vm_compute. reflexivity.
  - exact Htaken.
Defined.

(** ** The loops of the group stage *)

Section Loops.
Context {S X : Type}.

Lemma forRange_seq (body : nat → S → Rand S) count :
  ∀ lo s w, forRange lo count body s w = forEachM body (seq lo count) s w.
Proof.
  induction count as [|c IH]; intros lo s w; simpl; [reflexivity|].
  unfold bind. destruct (body lo s w) as [s' w'| |]; auto.
Qed.

Lemma forEachM_app (body : X → S → Rand S) l1 l2 :
  ∀ s w, forEachM body (l1 ++ l2) s w
         = bind (forEachM body l1 s) (forEachM body l2) w.
Proof.
  induction l1 as [|x l1 IH]; intros s w; simpl; [reflexivity|].
  unfold bind in *. destruct (body x s w) as [s' w'| |]; auto.
Qed.

Lemma forEachM_fmap {Y : Type} (f : Y → X) (body : X → S → Rand S) l :
  ∀ s w, forEachM body (f <$> l) s w = forEachM (fun y => body (f y)) l s w.
Proof.
  induction l as [|y l IH]; intros s w; simpl; [reflexivity|].
  unfold bind. destruct (body (f y) s w) as [s' w'| |]; auto.
Qed.

End Loops.

Lemma nested_loops {S : Type} (body : nat → nat → S → Rand S) (n : nat) :
  ∀ count lo s w,
    n = (lo + count)%nat →
    forRange lo count (fun i => forRange (i + 1) (n - (i + 1)) (body i)) s w
    = forEachM (fun ij => body (fst ij) (snd ij))
        (unorderedPairs (seq lo count)) s w.
Proof.
  induction count as [|c IH]; intros lo s w Hn; [reflexivity|].
  cbn [forRange seq unorderedPairs].
  rewrite forEachM_app. unfold bind.
  replace (n - (lo + 1))%nat with c by lia.
  replace (lo + 1)%nat with (Datatypes.S lo) by lia.
  rewrite forRange_seq, forEachM_fmap. cbn [fst snd].
  destruct (forEachM _ _ _ _) as [s' w'| |]; try reflexivity.
  apply IH. lia.
Qed.

Lemma unorderedPairs_fmap {A B : Type} (f : A → B) (l : list A) :
  unorderedPairs (f <$> l) = prod_map f f <$> unorderedPairs l.
Proof.
  induction l as [|x l IH]; [reflexivity|].
  cbn [fmap list_fmap unorderedPairs]. fold (fmap f l).
  rewrite fmap_app, IH, <- !list_fmap_compose. reflexivity.
Qed.

Lemma unorderedPairs_elem_of {A : Type} (l : list A) (a b : A) :
  (a, b) ∈ unorderedPairs l
  ↔ ∃ i j, (i < j)%nat ∧ l !! i = Some a ∧ l !! j = Some b.
Proof.
  induction l as [|x l IH]; cbn [unorderedPairs].
  - split; [intros Hin; inversion Hin | intros (i & j & _ & Hi & _); discriminate].
  - rewrite elem_of_app, list_elem_of_fmap, IH. split.
    + intros [(y & [= -> ->] & Hy)|(i & j & Hij & Hi & Hj)].
      * apply list_elem_of_lookup in Hy as [j Hj].
        exists 0%nat, (Datatypes.S j). split; [lia|]. auto.
      * exists (Datatypes.S i), (Datatypes.S j). split; [lia|]. auto.
    + intros (i & j & Hij & Hi & Hj).
      destruct j as [|j]; [lia|]. cbn in Hj.
      destruct i as [|i]; cbn in Hi.
      * injection Hi as ->. left. exists b. split; [reflexivity|].
        apply list_elem_of_lookup. eauto.
      * right. exists i, j. split; [lia|]. auto.
Qed.

Lemma roundRobin_unorderedPairs (group : list string) :
  roundRobin group = unorderedPairs group.
Proof. induction group as [|x l IH]; simpl; [reflexivity | now rewrite IH]. Qed.

(** ** The group stage *)

Section GroupStage.
Context `{Math}.

Lemma fmap_alter_same {B : Type} (proj : Team → B) (g : Team → Team)
    (i : nat) (l : list Team) :
  (∀ t, proj (g t) = proj t) → proj <$> alter g i l = proj <$> l.
Proof.
  intros Hg. revert i. induction l as [|x l IH]; intros [|i]; cbn;
    [reflexivity | reflexivity | now rewrite Hg |].
  f_equal. apply IH.
Qed.

Lemma updateMatchResults_names results i j s1 s2 :
  name <$> updateMatchResults results i j s1 s2 = name <$> results.
Proof.
  unfold updateMatchResults.
  destruct (s1 >? s2); [|destruct (s2 >? s1)];
    repeat (rewrite fmap_alter_same;
            [|intros t; unfold updatePoints, updateScores;
              try destruct (_ =? _); reflexivity]);
    reflexivity.
Qed.

Lemma updateMatchResults_rankings results i j s1 s2 :
  ranking <$> updateMatchResults results i j s1 s2 = ranking <$> results.
Proof.
  unfold updateMatchResults.
  destruct (s1 >? s2); [|destruct (s2 >? s1)];
    repeat (rewrite fmap_alter_same;
            [|intros t; unfold updatePoints, updateScores;
              try destruct (_ =? _); reflexivity]);
    reflexivity.
Qed.

Lemma total_alter (f : Team → Z) (g : Team → Team) (i : nat)
    (l : list Team) (t : Team) :
  l !! i = Some t → total f (alter g i l) = total f l + (f (g t) - f t).
Proof.
  unfold total. revert i.
  induction l as [|x l IH]; intros [|i] Hi; cbn in *; try discriminate.
  - injection Hi as ->. lia.
  - rewrite (IH i Hi). lia.
Qed.

Lemma updateMatchResults_total (f : Team → Z) results i j t1 t2 s1 s2 :
  i ≠ j → results !! i = Some t1 → results !! j = Some t2 →
  total f (updateMatchResults results i j s1 s2)
  = total f results
    + (f (if s1 >? s2 then updatePoints WIN_POINTS (updateScores s1 s2 t1)
          else if s2 >? s1 then updatePoints LOSS_POINTS (updateScores s1 s2 t1)
          else updateScores s1 s2 t1) - f t1)
    + (f (if s1 >? s2 then updatePoints LOSS_POINTS (updateScores s2 s1 t2)
          else if s2 >? s1 then updatePoints WIN_POINTS (updateScores s2 s1 t2)
          else updateScores s2 s1 t2) - f t2).
Proof.
  intros Hij H1 H2.
  pose proof (updateMatchResults_lookup_1 results i j s1 s2 Hij) as E1.
  pose proof (updateMatchResults_lookup_2 results i j s1 s2 Hij) as E2.
  rewrite H1 in E1. rewrite H2 in E2.
  set (F1 := fun t : Team =>
               if s1 >? s2 then updatePoints WIN_POINTS (updateScores s1 s2 t)
               else if s2 >? s1 then updatePoints LOSS_POINTS (updateScores s1 s2 t)
               else updateScores s1 s2 t) in *.
  set (F2 := fun t : Team =>
               if s1 >? s2 then updatePoints LOSS_POINTS (updateScores s2 s1 t)
               else if s2 >? s1 then updatePoints WIN_POINTS (updateScores s2 s1 t)
               else updateScores s2 s1 t) in *.
  change (total f (updateMatchResults results i j s1 s2)
          = total f results + (f (F1 t1) - f t1) + (f (F2 t2) - f t2)).
  assert (updateMatchResults results i j s1 s2
          = alter F1 i (alter F2 j results)) as ->.
  { apply list_eq. intros k.
    destruct (decide (k = i)) as [->|Hki].
    - rewrite E1, list_lookup_alter_eq, list_lookup_alter_ne, H1 by congruence.
      reflexivity.
    - rewrite (list_lookup_alter_ne F1) by congruence.
      destruct (decide (k = j)) as [->|Hkj].
      + rewrite E2, list_lookup_alter_eq, H2. reflexivity.
      + rewrite list_lookup_alter_ne by congruence.
        now apply updateMatchResults_lookup_other. }
  rewrite (total_alter f F1 i _ t1)
    by (rewrite list_lookup_alter_ne by congruence; exact H1).
  rewrite (total_alter f F2 j _ t2) by exact H2.
  lia.
Qed.

Lemma updateMatchResults_totals results i j t1 t2 s1 s2 :
  i ≠ j → results !! i = Some t1 → results !! j = Some t2 →
  total scored (updateMatchResults results i j s1 s2)
    = total scored results + s1 + s2
  ∧ total conceded (updateMatchResults results i j s1 s2)
    = total conceded results + s1 + s2
  ∧ total wins (updateMatchResults results i j s1 s2)
    - total losses (updateMatchResults results i j s1 s2)
    = total wins results - total losses results
  ∧ total points (updateMatchResults results i j s1 s2)
    - 3 * total wins (updateMatchResults results i j s1 s2)
    = total points results - 3 * total wins results.
Proof.
  intros Hij H1 H2.
  rewrite !(updateMatchResults_total _ results i j t1 t2 s1 s2 Hij H1 H2).
  unfold WIN_POINTS, LOSS_POINTS.
  destruct (s1 >? s2); [|destruct (s2 >? s1)]; cbn; lia.
Qed.

Lemma playPair_step i j results w results' w' :
  playPair i j results w = Ret results' w' →
  ∃ t1 t2 s1 s2,
    results !! i = Some t1 ∧ results !! j = Some t2
    ∧ 0 <= s1 ∧ 0 <= s2
    ∧ results' = updateMatchResults results i j s1 s2
    ∧ console w' = console w ++ [MatchResult (name t1) (name t2) s1 s2]
    ∧ groupStageMatches w'
      = recordMatch (name t1) (name t2) (groupStageMatches w).
Proof.
  unfold playPair. intros Hrun.
  destruct (results !! i) as [t1|]; [|discriminate].
  destruct (results !! j) as [t2|]; [|discriminate].
  apply bind_Ret in Hrun as ([s1 s2] & w1 & Hgame & Hrun).
  apply simulateGamePoisson_run in Hgame as (Hs1 & Hs2 & Hc & Hg & _).
  unfold displayMatchResult, log, recordGroupStageMatch, bind, ret in Hrun.
  injection Hrun as <- <-. cbn.
  exists t1, t2, s1, s2. rewrite Hc, Hg. auto 10.
Qed.

Lemma updateMatchResults_identity results i j s1 s2 :
  identity <$> updateMatchResults results i j s1 s2 = identity <$> results.
Proof.
  unfold updateMatchResults.
  destruct (s1 >? s2); [|destruct (s2 >? s1)];
    repeat (rewrite fmap_alter_same;
            [|intros t; unfold updatePoints, updateScores;
              try destruct (_ =? _); reflexivity]);
    reflexivity.
Qed.

Lemma names_of_identity (l l' : list Team) :
  identity <$> l = identity <$> l' → name <$> l = name <$> l'.
Proof.
  intros Hid. apply (f_equal (fmap fst)) in Hid.
  rewrite <- !list_fmap_compose in Hid. exact Hid.
Qed.

Lemma nameAt_lookup (l : list Team) i t :
  l !! i = Some t → nameAt (name <$> l) i = name t.
Proof. intros Hi. unfold nameAt. rewrite list_lookup_fmap, Hi. reflexivity. Qed.

Lemma matchPairs_app es1 es2 :
  matchPairs (es1 ++ es2) = matchPairs es1 ++ matchPairs es2.
Proof. unfold matchPairs. apply omap_app. Qed.

(** What a run of matches between different teams of a table leaves
    behind. *)
Lemma playMatches_trace (pairs : list (nat * nat)) :
  ∀ results w results' w',
    Forall (fun ij => fst ij ≠ snd ij) pairs →
    forEachM (fun ij => playPair (fst ij) (snd ij)) pairs results w
      = Ret results' w' →
    identity <$> results' = identity <$> results
    ∧ total scored results' - total conceded results'
      = total scored results - total conceded results
    ∧ total wins results' - total losses results'
      = total wins results - total losses results
    ∧ total points results' - 3 * total wins results'
      = total points results - 3 * total wins results
    ∧ groupStageMatches w'
      = recordAll ((fun ij => (nameAt (name <$> results) (fst ij),
                               nameAt (name <$> results) (snd ij))) <$> pairs)
          (groupStageMatches w)
    ∧ ∃ new,
        console w' = console w ++ new
        ∧ matchPairs new
          = (fun ij => (nameAt (name <$> results) (fst ij),
                        nameAt (name <$> results) (snd ij))) <$> pairs
        ∧ Forall isMatchLine new.
Proof.
  induction pairs as [|[i j] pairs IH]; intros results w results' w' Hne Hrun.
  - apply ret_Ret in Hrun as [<- <-]. repeat split; try reflexivity.
    exists []. rewrite app_nil_r. repeat split. constructor.
  - apply Forall_cons in Hne as [Hij Hne]. cbn [fst snd] in Hij.
    cbn [forEachM] in Hrun.
    apply bind_Ret in Hrun as (r1 & w1 & Hstep & Hrun). cbn [fst snd] in Hstep.
    apply playPair_step in Hstep
      as (t1 & t2 & s1 & s2 & H1 & H2 & Hs1 & Hs2 & -> & Hcon & Hrec).
    destruct (IH _ _ _ _ Hne Hrun)
      as (Hid & Hsc & Hwl & Hpt & Hgsm & new & Hcon' & Hpairs & Hlines).
    pose proof (updateMatchResults_identity results i j s1 s2) as Hid1.
    pose proof (names_of_identity _ _ Hid1) as Hnames.
    destruct (updateMatchResults_totals results i j t1 t2 s1 s2 Hij H1 H2)
      as (Ts & Tc & Twl & Tpt).
    rewrite Hnames in Hgsm, Hpairs.
    split; [congruence|]. split; [lia|]. split; [lia|]. split; [lia|].
    split.
    + rewrite Hgsm, Hrec. cbn. unfold recordAll. cbn.
      rewrite (nameAt_lookup _ _ _ H1), (nameAt_lookup _ _ _ H2). reflexivity.
    + exists (MatchResult (name t1) (name t2) s1 s2 :: new).
      split; [rewrite Hcon', Hcon, <- app_assoc; reflexivity|].
      split.
      * cbn. rewrite (nameAt_lookup _ _ _ H1), (nameAt_lookup _ _ _ H2).
        f_equal. exact Hpairs.
      * constructor; [|exact Hlines]. exists (name t1), (name t2), s1, s2. auto.
Qed.

Lemma seq_pairs_distinct n :
  Forall (fun ij : nat * nat => fst ij ≠ snd ij) (unorderedPairs (seq 0 n)).
Proof.
  apply Forall_forall. intros [i j] Hin.
  apply unorderedPairs_elem_of in Hin as (a & b & Hab & Ha & Hb).
  apply lookup_seq in Ha as [-> _]. apply lookup_seq in Hb as [-> _].
  cbn. lia.
Qed.

Lemma nameAt_seq (names : list string) :
  (nameAt names) <$> seq 0 (length names) = names.
Proof.
  apply list_eq. intros i. rewrite list_lookup_fmap.
  destruct (names !! i) as [x|] eqn:Hi.
  - rewrite (lookup_seq_lt _ _ i) by (eapply lookup_lt_Some; eauto).
    cbn. unfold nameAt. now rewrite Hi.
  - rewrite lookup_seq_ge; [reflexivity|]. now apply lookup_ge_None.
Qed.

Lemma total_Permutation (f : Team → Z) (l1 l2 : list Team) :
  l1 ≡ₚ l2 → total f l1 = total f l2.
Proof.
  unfold total. induction 1; cbn; lia.
Qed.

Lemma total_new (f : Team → Z) (teams : list Team) :
  f (new_Team ""%string 0) = 0 → (∀ n r, f (new_Team n r) = f (new_Team ""%string 0)) →
  total f ((fun team => new_Team (name team) (ranking team)) <$> teams) = 0.
Proof.
  intros H0 Hf. unfold total. induction teams as [|t l IH]; cbn; [reflexivity|].
  rewrite Hf, H0. exact IH.
Qed.

Lemma unorderedPairs_length {A : Type} (l : list A) :
  (2 * length (unorderedPairs l) = length l * (length l - 1))%nat.
Proof.
  induction l as [|x l IH]; cbn [unorderedPairs length]; [reflexivity|].
  rewrite length_app, length_fmap. nia.
Qed.

(** The whole of [playGroupStage], on the table of fresh teams. *)
Lemma playGroupStage_trace teams w results w' :
  playGroupStage teams w = Ret results w' →
  identity <$> results ≡ₚ identity <$> teams
  ∧ balanced results
  ∧ groupStageMatches w'
    = recordAll (roundRobin (name <$> teams)) (groupStageMatches w)
  ∧ ∃ new,
      console w' = console w ++ new
      ∧ matchPairs new = roundRobin (name <$> teams)
      ∧ Forall isMatchLine new.
Proof.
  unfold playGroupStage. cbn zeta. intros Hrun.
  apply bind_Ret in Hrun as (r1 & w1 & Hloops & Hrun).
  apply ret_Ret in Hrun as [<- <-].
  rewrite nested_loops in Hloops by lia.
  apply playMatches_trace in Hloops
    as (Hid & Hsc & Hwl & Hpt & Hgsm & new & Hcon & Hpairs & Hlines);
    [|apply seq_pairs_distinct].
  set (fresh := (fun team => new_Team (name team) (ranking team)) <$> teams) in *.
  assert (Hfresh : identity <$> fresh = identity <$> teams).
  { subst fresh. rewrite <- list_fmap_compose. reflexivity. }
  assert (Hnames : name <$> fresh = name <$> teams)
    by now apply names_of_identity.
  assert (Hpairs' :
            (fun ij : nat * nat => (nameAt (name <$> teams) (fst ij),
                                    nameAt (name <$> teams) (snd ij)))
              <$> unorderedPairs (seq 0 (length fresh))
            = roundRobin (name <$> teams)).
  { rewrite roundRobin_unorderedPairs.
    replace (length fresh) with (length (name <$> teams))
      by (subst fresh; now rewrite !length_fmap).
    change (prod_map (nameAt (name <$> teams)) (nameAt (name <$> teams))
              <$> unorderedPairs (seq 0 (length (name <$> teams)))
            = unorderedPairs (name <$> teams)).
    rewrite <- unorderedPairs_fmap, nameAt_seq. reflexivity. }
  rewrite Hnames, Hpairs' in Hgsm, Hpairs.
  split; [now rewrite sortTeamsByPerformance_Permutation, Hid, Hfresh|].
  split.
  { unfold balanced.
    rewrite !(total_Permutation _ _ _ (sortTeamsByPerformance_Permutation r1)).
    subst fresh.
    rewrite !total_new in Hsc, Hwl, Hpt by reflexivity. lia. }
  split; [exact Hgsm|]. exists new. auto.
Qed.

End GroupStage.

Lemma playedBefore_recordAll pairings m x y :
  playedBefore (recordAll pairings m) x y
  ↔ playedBefore m x y ∨ (x, y) ∈ pairings ∨ (y, x) ∈ pairings.
Proof.
  unfold recordAll. revert m.
  induction pairings as [|[a b] l IH]; intros m; cbn [fold_left fst snd].
  - split; [auto|]. intros [?|[Hin|Hin]]; [assumption | inversion Hin..].
  - rewrite IH, playedBefore_recordMatch, !elem_of_cons. split.
    + intros [[?|[[-> ->]|[-> ->]]]|[?|?]]; auto.
    + intros [?|[[[= -> ->]|?]|[[= -> ->]|?]]]; auto 6.
Qed.

Lemma matchPairs_length (es : list Event) :
  Forall isMatchLine es → length (matchPairs es) = length es.
Proof.
  induction 1 as [|e es (a & b & s1 & s2 & -> & _) _ IH]; cbn; [reflexivity|].
  f_equal. exact IH.
Qed.

Lemma twoTeams_run :
  @playGroupStage ratMath twoTeams (world0 oneNil)
  = Ret twoTeamsTable twoTeamsWorld.
Proof. vm_compute. reflexivity. Qed.

(** X9. [playGroupStage] returns a table with the teams of the group, each
    once, under their names and rankings. *)
Theorem playGroupStage_same_teams `{Math} (teams results : list Team)
    (w w' : World) :
  playGroupStage teams w = Ret results w' →
  identity <$> results ≡ₚ identity <$> teams
  ∧ length results = length teams.
Proof.
  intros Hrun. apply playGroupStage_trace in Hrun as (Hid & _).
  split; [exact Hid|].
  apply Permutation_length in Hid. now rewrite !length_fmap in Hid.
Qed.

(** The witness of [playGroupStage_same_teams]: the group of two teams. *)
Lemma playGroupStage_same_teams_witness :
  identity <$> twoTeamsTable ≡ₚ identity <$> twoTeams
  ∧ length twoTeamsTable = length twoTeams.
Proof.
  apply (@playGroupStage_same_teams ratMath twoTeams twoTeamsTable
           (world0 oneNil) twoTeamsWorld).
  vm_compute. reflexivity.
Defined.

Lemma total_goalDifference (l : list Team) :
  total goalDifference l = total scored l - total conceded l.
Proof.
  unfold total, goalDifference. induction l as [|t l IH]; cbn; lia.
Qed.

(** X10. In the table of a group the points scored add up to the points
    conceded (the goal differences add up to 0), there are as many wins as
    losses, and the points add up to three per win. *)
Theorem playGroupStage_balanced `{Math} (teams results : list Team)
    (w w' : World) :
  playGroupStage teams w = Ret results w' →
  balanced results ∧ total goalDifference results = 0.
Proof.
  intros Hrun. apply playGroupStage_trace in Hrun as (_ & Hbal & _).
  split; [exact Hbal|]. destruct Hbal as (Hsc & _).
  rewrite total_goalDifference. lia.
Qed.

(** The witness of [playGroupStage_balanced]: the group of two teams. *)
Lemma playGroupStage_balanced_witness :
  balanced twoTeamsTable ∧ total goalDifference twoTeamsTable = 0.
Proof.
  apply (@playGroupStage_balanced ratMath twoTeams twoTeamsTable
           (world0 oneNil) twoTeamsWorld).
  vm_compute. reflexivity.
Defined.

(** X11. After [playGroupStage] the record holds, besides what it held, the
    pairs of the group, each team with every team after it in the roster;
    two teams of the group at different places are then found to have played
    each other, whichever is asked first. *)
Theorem playGroupStage_records_pairs `{Math} (teams results : list Team)
    (w w' : World) :
  playGroupStage teams w = Ret results w' →
  groupStageMatches w'
    = recordAll (roundRobin (name <$> teams)) (groupStageMatches w)
  ∧ ∀ i j team1 team2,
      i ≠ j → teams !! i = Some team1 → teams !! j = Some team2 →
      isMatchAlreadyPlayed (groupStageMatches w') team1 team2 = Some true.
Proof.
  intros Hrun. apply playGroupStage_trace in Hrun as (_ & _ & Hgsm & _).
  split; [exact Hgsm|].
  intros i j team1 team2 Hij H1 H2.
  assert (playedBefore (groupStageMatches w') (name team1) (name team2))
    as (s & Hs & Hin).
  { rewrite Hgsm. apply playedBefore_recordAll. right.
    rewrite roundRobin_unorderedPairs.
    destruct (Nat.lt_total i j) as [Hlt|[->|Hgt]]; [|congruence|];
      [left | right]; apply unorderedPairs_elem_of.
    - exists i, j. rewrite !list_lookup_fmap, H1, H2. auto.
    - exists j, i. rewrite !list_lookup_fmap, H1, H2. auto. }
  unfold isMatchAlreadyPlayed. rewrite Hs.
  now rewrite bool_decide_eq_true_2.
Qed.

(** The witness of [playGroupStage_records_pairs]: B is found to have played
    A. *)
Lemma playGroupStage_records_pairs_witness :
  isMatchAlreadyPlayed (groupStageMatches twoTeamsWorld)
    (new_Team "B" 10) (new_Team "A" 10) = Some true.
Proof.
  apply (proj2 (@playGroupStage_records_pairs ratMath twoTeams twoTeamsTable
                  (world0 oneNil) twoTeamsWorld twoTeams_run) 1%nat 0%nat).
  - lia.
  - reflexivity.
  - reflexivity.
Defined.

(** X12. [playGroupStage] plays every pair of the group once, the first team
    of the roster against all the others in turn, then the second against
    those after it, and so on: it writes one match line per pair, n(n-1)/2
    in all for n teams, and nothing else. *)
Theorem playGroupStage_round_robin `{Math} (teams results : list Team)
    (w w' : World) :
  playGroupStage teams w = Ret results w' →
  ∃ new,
    console w' = console w ++ new
    ∧ Forall isMatchLine new
    ∧ matchPairs new = roundRobin (name <$> teams)
    ∧ (2 * length new = length teams * (length teams - 1))%nat.
Proof.
  intros Hrun.
  apply playGroupStage_trace in Hrun as (_ & _ & _ & new & Hcon & Hpairs & Hl).
  exists new. split; [exact Hcon|]. split; [exact Hl|]. split; [exact Hpairs|].
  rewrite <- (matchPairs_length new Hl), Hpairs, roundRobin_unorderedPairs.
  rewrite unorderedPairs_length, length_fmap. reflexivity.
Qed.

(** The witness of [playGroupStage_round_robin]: two teams, one match. *)
Lemma playGroupStage_round_robin_witness :
  ∃ new,
    console twoTeamsWorld = [] ++ new
    ∧ Forall isMatchLine new
    ∧ matchPairs new = roundRobin (name <$> twoTeams)
    ∧ (2 * length new = length twoTeams * (length twoTeams - 1))%nat.
Proof.
  apply (@playGroupStage_round_robin ratMath twoTeams twoTeamsTable
           (world0 oneNil) twoTeamsWorld).
  vm_compute. reflexivity.
Defined.

Section GroupStages.
Context `{Math}.

Lemma recordAll_app l1 l2 m : recordAll (l1 ++ l2) m = recordAll l2 (recordAll l1 m).
Proof. unfold recordAll. apply fold_left_app. Qed.

Lemma simulateGroupStages_trace groups :
  ∀ w groupResults w',
    simulateGroupStages groups w = Ret groupResults w' →
    groupStageMatches w' = recordAll (allPairings groups) (groupStageMatches w)
    ∧ Forall2 (fun group table =>
                 fst table = fst group
                 ∧ identity <$> snd table ≡ₚ snd group
                 ∧ balanced (snd table))
        groups groupResults.
Proof.
  induction groups as [|[groupName roster] groups IH];
    intros w groupResults w' Hrun; cbn [simulateGroupStages] in Hrun.
  - apply ret_Ret in Hrun as [<- <-]. split; [reflexivity | constructor].
  - apply bind_Ret in Hrun as (table & w1 & Hgroup & Hrun).
    apply bind_Ret in Hrun as (rest & w2 & Hrest & Hrun).
    apply ret_Ret in Hrun as [<- <-].
    apply playGroupStage_trace in Hgroup as (Hid & Hbal & Hgsm & _).
    apply IH in Hrest as (Hgsm' & Hall).
    assert (Hroster : identity <$> ((fun e : string * Q => new_Team (fst e) (snd e)) <$> roster)
                      = roster).
    { rewrite <- list_fmap_compose. rewrite <- (list_fmap_id roster) at 2.
      apply list_fmap_ext. intros _ [n r] _. reflexivity. }
    split.
    + rewrite Hgsm', Hgsm. unfold allPairings. cbn [fmap list_fmap concat].
      rewrite recordAll_app. do 2 f_equal.
      unfold rosterNames. cbn [snd].
      rewrite <- Hroster at 2. rewrite <- !list_fmap_compose. reflexivity.
    + constructor; [|exact Hall]. cbn [fst snd].
      split; [reflexivity|]. split; [|exact Hbal].
      now rewrite Hid, Hroster.
Qed.

Lemma elem_of_concat {A : Type} (x : A) (ls : list (list A)) :
  x ∈ concat ls ↔ ∃ l, x ∈ l ∧ l ∈ ls.
Proof.
  induction ls as [|l0 ls IH]; cbn.
  - split; [intros Hin; inversion Hin | intros (l & _ & Hin); inversion Hin].
  - rewrite elem_of_app, IH. split.
    + intros [?|(l & ? & ?)]; [exists l0 | exists l]; split; auto; [left | now right].
    + intros (l & Hx & Hl). apply elem_of_cons in Hl as [->|Hl]; eauto.
Qed.

Lemma allPairings_shareGroup groups a b :
  (a, b) ∈ allPairings groups ∨ (b, a) ∈ allPairings groups
  ↔ shareGroup groups a b.
Proof.
  unfold allPairings, shareGroup.
  rewrite !elem_of_concat. setoid_rewrite list_elem_of_fmap. split.
  - intros [(l & Hin & g & -> & Hg)|(l & Hin & g & -> & Hg)];
      rewrite roundRobin_unorderedPairs in Hin;
      apply unorderedPairs_elem_of in Hin as (i & j & Hij & Hi & Hj).
    + exists g, i, j. split; [exact Hg|]. split; [lia|]. auto.
    + exists g, j, i. split; [exact Hg|]. split; [lia|]. auto.
  - intros (g & i & j & Hg & Hij & Hi & Hj).
    destruct (Nat.lt_total i j) as [Hlt|[->|Hgt]]; [|congruence|]; [left|right];
      (eexists; split; [|exists g; split; [reflexivity | exact Hg]]);
      rewrite roundRobin_unorderedPairs; apply unorderedPairs_elem_of.
    + exists i, j. auto.
    + exists j, i. auto.
Qed.

End GroupStages.

(** X13. [simulateGroupStages] returns one table per group, under the name
    of the group and with its teams, and records the pairs of all the groups.
    Starting from an empty record, two teams are afterwards found to have
    played each other exactly when they stand at different places of the
    roster of one group: teams that shared no group are never kept apart by
    the draw. *)
Theorem simulateGroupStages_records_groups `{Math}
    (groups : list (string * list (string * Q)))
    (w w' : World) (groupResults : list (string * list Team)) :
  simulateGroupStages groups w = Ret groupResults w' →
  Forall2 (fun group table =>
             fst table = fst group ∧ identity <$> snd table ≡ₚ snd group
             ∧ balanced (snd table))
    groups groupResults
  ∧ groupStageMatches w' = recordAll (allPairings groups) (groupStageMatches w)
  ∧ (groupStageMatches w = ∅ →
     ∀ team1 team2,
       js_not (isMatchAlreadyPlayed (groupStageMatches w') team1 team2) = false
       ↔ shareGroup groups (name team1) (name team2)).
Proof.
  intros Hrun. apply simulateGroupStages_trace in Hrun as (Hgsm & Hall).
  split; [exact Hall|]. split; [exact Hgsm|].
  intros Hempty team1 team2.
  rewrite <- not_true_iff_false, js_not_isMatchAlreadyPlayed, Hgsm, Hempty.
  rewrite <- allPairings_shareGroup.
  split.
  - intros Hnn. destruct (decide ((name team1, name team2) ∈ allPairings groups)) as [?|Hn1]; [auto|].
    destruct (decide ((name team2, name team1) ∈ allPairings groups)) as [?|Hn2]; [auto|].
    exfalso. apply Hnn. intros Hp.
    apply playedBefore_recordAll in Hp as [(s & Hs & _)|[?|?]]; auto.
    rewrite lookup_empty in Hs. discriminate.
  - intros Hin Hnp. apply Hnp, playedBefore_recordAll. auto.
Qed.

(** The witness of [simulateGroupStages_records_groups]: in the three groups
    of [groupsLockstep], T2 and T8 are found to have played each other. *)
Lemma simulateGroupStages_records_groups_witness :
  shareGroup (rosters groupsLockstep) "T2" "T8".
Proof.
  destruct (@simulateGroupStages ratMath (rosters groupsLockstep)
              (world0 drawsAllNil)) as [groupResults w'| |] eqn:Hrun.
  - apply (proj1 (proj2 (proj2 (@simulateGroupStages_records_groups ratMath
              (rosters groupsLockstep) (world0 drawsAllNil) w' groupResults
              Hrun)) eq_refl T2 T8)).
    revert Hrun. vm_compute. intros [= <- <-]. reflexivity.
  - revert Hrun. vm_compute. discriminate.
  - revert Hrun. vm_compute. discriminate.
Defined.

(** ** First fit *)

Section FirstFit.
Variable played : gmap string (gset string).

Lemma firstFits_length a0 a1 b0 b1 :
  firstFits played a0 a1 b0 b1 = true
  ↔ length (firstFitPairs played a0 a1 b0 b1) = 2%nat.
Proof.
  unfold firstFits, firstFitPairs.
  destruct (freeToMeet played a0 b0), (freeToMeet played a0 b1),
    (freeToMeet played a1 b0), (freeToMeet played a1 b1); cbn;
    split; congruence.
Qed.

Lemma firstFitPairs_short a0 a1 b0 b1 :
  (length (firstFitPairs played a0 a1 b0 b1) ≤ 2)%nat.
Proof.
  unfold firstFitPairs.
  destruct (freeToMeet played a0 b0), (freeToMeet played a0 b1),
    (freeToMeet played a1 b0), (freeToMeet played a1 b1); cbn; lia.
Qed.

Ltac decide_used :=
  repeat match goal with
         | |- context [bool_decide (?x ∈ ?s)] =>
             first
               [ rewrite (bool_decide_eq_true_2 (x ∈ s))
                   by (rewrite ?elem_of_union, ?elem_of_singleton; tauto)
               | rewrite (bool_decide_eq_false_2 (x ∈ s))
                   by (rewrite ?elem_of_union, ?elem_of_singleton;
                       intuition congruence) ]
         end.

(** The two iterations of a loop of [tryPairing], when the names involved
    are different: the used set plays no part beyond keeping a team from
    being drawn twice. *)
Lemma fold_pairTeam_firstFit hat2 st a0 a1 b0 b1 :
  hat hat2 (hats st) = [b0; b1] →
  name b0 ≠ name b1 → name b0 ≠ name a0 → name b1 ≠ name a0 →
  name b0 ∉ usedTeams st → name b1 ∉ usedTeams st →
  ∃ used,
    fold_left (pairTeam played hat2) [a0; a1] st
    = {| hats := hats st;
         quarterFinals := quarterFinals st ++ firstFitPairs played a0 a1 b0 b1;
         usedTeams := used |}
    ∧ ∀ x, x ∈ used →
           x ∈ usedTeams st ∨ x = name a0 ∨ x = name a1 ∨ x = name b0
           ∨ x = name b1.
Proof.
  intros Hhat Hb Hb0 Hb1 Hu0 Hu1.
  destruct st as [hs qf used0]. cbn [hats quarterFinals usedTeams] in *.
  cbn [fold_left]. unfold pairTeam, findOpponent, firstFitPairs, freeToMeet.
  cbn [hats quarterFinals usedTeams]. rewrite Hhat.
  cbn [findOpponent_scan].
  destruct (js_not (isMatchAlreadyPlayed played a0 b0)) eqn:E00;
    [|destruct (js_not (isMatchAlreadyPlayed played a0 b1)) eqn:E01].
  - decide_used. cbn [negb andb hats quarterFinals usedTeams].
    rewrite Hhat. cbn [findOpponent_scan].
    destruct (js_not (isMatchAlreadyPlayed played a1 b0)),
      (js_not (isMatchAlreadyPlayed played a1 b1));
      decide_used; cbn [negb andb hats quarterFinals usedTeams];
      (eexists; split;
       [rewrite <- ?app_assoc; reflexivity
       |intros x; rewrite ?elem_of_union, ?elem_of_singleton; tauto]).
  - decide_used. cbn [negb andb hats quarterFinals usedTeams].
    rewrite Hhat. cbn [findOpponent_scan].
    destruct (js_not (isMatchAlreadyPlayed played a1 b0)),
      (js_not (isMatchAlreadyPlayed played a1 b1));
      decide_used; cbn [negb andb hats quarterFinals usedTeams];
      (eexists; split;
       [rewrite <- ?app_assoc; reflexivity
       |intros x; rewrite ?elem_of_union, ?elem_of_singleton; tauto]).
  - cbn [negb andb hats quarterFinals usedTeams].
    rewrite Hhat. cbn [findOpponent_scan].
    destruct (js_not (isMatchAlreadyPlayed played a1 b0)),
      (js_not (isMatchAlreadyPlayed played a1 b1));
      decide_used; cbn [negb andb hats quarterFinals usedTeams];
      (eexists; split;
       [rewrite ?app_nil_r; reflexivity
       |intros x; rewrite ?elem_of_union, ?elem_of_singleton; tauto]).
Qed.

End FirstFit.

Section DrawFirstFit.
Variable played : gmap string (gset string).

Lemma tryPairing_firstFit d0 d1 e0 e1 f0 f1 g0 g1 :
  NoDup (name <$> [d0; d1; e0; e1; f0; f1; g0; g1]) →
  let st := {| hats := {| hat_D := [d0; d1]; hat_E := [e0; e1];
                          hat_F := [f0; f1]; hat_G := [g0; g1] |};
               quarterFinals := []; usedTeams := ∅ |} in
  quarterFinals (tryPairing played st).1
  = firstFitPairs played d0 d1 g0 g1 ++ firstFitPairs played e0 e1 f0 f1
  ∧ (tryPairing played st).2
    = firstFits played d0 d1 g0 g1 && firstFits played e0 e1 f0 f1.
Proof.
  intros Hnd st. cbn [fmap list_fmap] in Hnd.
  rewrite !NoDup_cons, !not_elem_of_cons in Hnd.
  destruct Hnd as ((Hd01 & Hd0e0 & Hd0e1 & Hd0f0 & Hd0f1 & Hd0g0 & Hd0g1 & _)
                   & (Hd1e0 & Hd1e1 & Hd1f0 & Hd1f1 & Hd1g0 & Hd1g1 & _)
                   & (He01 & He0f0 & He0f1 & He0g0 & He0g1 & _)
                   & (He1f0 & He1f1 & He1g0 & He1g1 & _)
                   & (Hf01 & Hf0g0 & Hf0g1 & _)
                   & (Hf1g0 & Hf1g1 & _) & (Hg01 & _) & _).
  destruct (fold_pairTeam_firstFit played G st d0 d1 g0 g1)
    as (used1 & Hfold1 & Hused1);
    try (subst st; cbn; first [congruence | apply not_elem_of_empty]).
  set (st1 := {| hats := hats st;
                 quarterFinals := quarterFinals st
                                  ++ firstFitPairs played d0 d1 g0 g1;
                 usedTeams := used1 |}) in *.
  destruct (fold_pairTeam_firstFit played F st1 e0 e1 f0 f1)
    as (used2 & Hfold2 & Hused2);
    try (subst st1 st; cbn; congruence).
  { intros Hin. apply Hused1 in Hin as [Hin|[?|[?|[?|?]]]]; try congruence.
    now apply not_elem_of_empty in Hin. }
  { intros Hin. apply Hused1 in Hin as [Hin|[?|[?|[?|?]]]]; try congruence.
    now apply not_elem_of_empty in Hin. }
  unfold tryPairing.
  change (hat D (hats st)) with [d0; d1]. rewrite Hfold1.
  change (hat E (hats st1)) with [e0; e1]. rewrite Hfold2.
  subst st1 st. cbn [fst snd hats quarterFinals app].
  split; [reflexivity|].
  rewrite length_app.
  pose proof (firstFitPairs_short played d0 d1 g0 g1) as H1.
  pose proof (firstFitPairs_short played e0 e1 f0 f1) as H2.
  destruct (firstFits played d0 d1 g0 g1) eqn:Edg;
    destruct (firstFits played e0 e1 f0 f1) eqn:Eef; cbn.
  - apply firstFits_length in Edg, Eef. rewrite Edg, Eef. reflexivity.
  - apply Nat.eqb_neq. intros Hlen. apply not_true_iff_false in Eef.
    apply Eef, firstFits_length. lia.
  - apply Nat.eqb_neq. intros Hlen. apply not_true_iff_false in Edg.
    apply Edg, firstFits_length. lia.
  - apply Nat.eqb_neq. intros Hlen. apply not_true_iff_false in Edg.
    apply Edg, firstFits_length. lia.
Qed.

Lemma drawLoop_more_attempts n k st bracket :
  drawLoop played n st = Bracket bracket →
  drawLoop played (n + k) st = Bracket bracket.
Proof.
  revert st. induction n as [|n IH]; intros st; [discriminate|].
  cbn [drawLoop Nat.add].
  destruct (tryPairing played st) as [st' [|]]; [auto|]. apply IH.
Qed.

End DrawFirstFit.

(** X14. When the eight names differ and first fit pairs everybody with the
    hats in their initial order, the draw returns at the first attempt,
    without turning a hat: each team of hats D and E gets the first team of
    the opposite hat that it has not met and that is not taken. *)
Theorem drawKnockoutStage_first_attempt (played : gmap string (gset string))
    (attempts : nat) (r0 r1 r2 r3 r4 r5 r6 r7 : Team) (more : list Team) :
  NoDup (name <$> [r0; r1; r2; r3; r4; r5; r6; r7]) →
  firstFits played r0 r1 r6 r7 = true →
  firstFits played r2 r3 r4 r5 = true →
  drawKnockoutStage played (S attempts)
    (r0 :: r1 :: r2 :: r3 :: r4 :: r5 :: r6 :: r7 :: more)
  = Bracket (firstFitPairs played r0 r1 r6 r7
             ++ firstFitPairs played r2 r3 r4 r5).
Proof.
  intros Hnd Hdg Hef. unfold drawKnockoutStage.
  change (drawLoop played (S attempts) (drawStart r0 r1 r2 r3 r4 r5 r6 r7)
          = Bracket (firstFitPairs played r0 r1 r6 r7
                     ++ firstFitPairs played r2 r3 r4 r5)).
  rewrite drawLoop_start.
  assert (NoDup (name <$> [r0; r1; r2; r3; r4; r5; r6; r7])) as Hnd'
    by exact Hnd.
  destruct (tryPairing_firstFit played r0 r1 r2 r3 r4 r5 r6 r7 Hnd') as [Hq Hok].
  unfold drawStart. rewrite Hok, Hq, Hdg, Hef. reflexivity.
Qed.

(** The witness of [drawKnockoutStage_first_attempt]: T1 has met T7, and is
    paired with T8 at once. *)
Lemma drawKnockoutStage_first_attempt_witness :
  drawKnockoutStage (recordHistory [("T1", "T7")]) 1 eightTeams
  = Bracket [(T1, T8); (T2, T7); (T3, T5); (T4, T6)].
Proof.
  apply (drawKnockoutStage_first_attempt (recordHistory [("T1", "T7")]) 0
           T1 T2 T3 T4 T5 T6 T7 T8 []).
  - apply (bool_decide_unpack _). vm_compute. exact I.
  - vm_compute. reflexivity.
  - vm_compute. reflexivity.
Defined.

Lemma names_turned r0 r1 r2 r3 r4 r5 r6 r7 :
  NoDup (name <$> [r0; r1; r2; r3; r4; r5; r6; r7]) →
  NoDup (name <$> [r0; r1; r2; r3; r5; r4; r7; r6]).
Proof.
  intros Hnd.
  assert ([r0; r1; r2; r3; r5; r4; r7; r6] ≡ₚ [r0; r1; r2; r3; r4; r5; r6; r7])
    as -> by solve_Permutation.
  exact Hnd.
Qed.

Lemma draw_outcomes (played : gmap string (gset string))
    (r0 r1 r2 r3 r4 r5 r6 r7 : Team) :
  NoDup (name <$> [r0; r1; r2; r3; r4; r5; r6; r7]) →
  (drawConverges played r0 r1 r2 r3 r4 r5 r6 r7 = true →
   ∃ bracket,
     drawLoop played 2 (drawStart r0 r1 r2 r3 r4 r5 r6 r7) = Bracket bracket)
  ∧ (drawConverges played r0 r1 r2 r3 r4 r5 r6 r7 = false →
     ∀ attempts,
       drawLoop played attempts (drawStart r0 r1 r2 r3 r4 r5 r6 r7)
       = StillRetrying).
Proof.
  intros Hnd. pose proof (names_turned _ _ _ _ _ _ _ _ Hnd) as Hnd'.
  destruct (tryPairing_firstFit played r0 r1 r2 r3 r4 r5 r6 r7 Hnd) as [_ Hs].
  destruct (tryPairing_firstFit played r0 r1 r2 r3 r5 r4 r7 r6 Hnd') as [_ Hr].
  cbn zeta in Hs, Hr.
  fold (drawStart r0 r1 r2 r3 r4 r5 r6 r7) in Hs.
  fold (drawRotated r0 r1 r2 r3 r4 r5 r6 r7) in Hr.
  unfold drawConverges. rewrite <- Hs, <- Hr. split.
  - intros Hok. rewrite drawLoop_start, drawLoop_rotated.
    destruct (tryPairing played (drawStart _ _ _ _ _ _ _ _)).2; [eauto|].
    destruct (tryPairing played (drawRotated _ _ _ _ _ _ _ _)).2; [eauto|].
    discriminate.
  - intros Hno attempts. apply orb_false_iff in Hno as [Es Er].
    apply (drawLoop_stuck played _ _ _ _ _ _ _ _ Es Er attempts).
Qed.

Lemma firstFits_of_crossPairing played a0 a1 b0 b1 p0 p1 :
  crossPairing a0 a1 b0 b1 p0 p1 →
  notPlayed played p0 → notPlayed played p1 →
  firstFits played a0 a1 b0 b1 = true ∨ firstFits played a0 a1 b1 b0 = true.
Proof.
  unfold notPlayed, firstFits, freeToMeet.
  intros [[-> ->]|[-> ->]] H0 H1; cbn [fst snd] in *;
    apply js_not_isMatchAlreadyPlayed in H0, H1; rewrite H0, H1;
    destruct (js_not (isMatchAlreadyPlayed played a0 b0)),
      (js_not (isMatchAlreadyPlayed played a0 b1)),
      (js_not (isMatchAlreadyPlayed played a1 b0)),
      (js_not (isMatchAlreadyPlayed played a1 b1)); cbn; auto; discriminate.
Qed.

(** X15. When the eight names differ, the draw returns a bracket exactly
    when first fit pairs everybody with the hats in their initial order or
    with hats G and F both turned; it then returns at the first or at the
    second attempt, and further attempts change nothing. *)
Theorem drawKnockoutStage_converges_iff (played : gmap string (gset string))
    (r0 r1 r2 r3 r4 r5 r6 r7 : Team) (more : list Team) :
  NoDup (name <$> [r0; r1; r2; r3; r4; r5; r6; r7]) →
  ((∃ attempts bracket,
      drawKnockoutStage played attempts
        (r0 :: r1 :: r2 :: r3 :: r4 :: r5 :: r6 :: r7 :: more)
      = Bracket bracket)
   ↔ drawConverges played r0 r1 r2 r3 r4 r5 r6 r7 = true)
  ∧ ∀ attempts bracket,
      drawKnockoutStage played attempts
        (r0 :: r1 :: r2 :: r3 :: r4 :: r5 :: r6 :: r7 :: more)
      = Bracket bracket →
      ∀ k, drawKnockoutStage played (2 + k)
             (r0 :: r1 :: r2 :: r3 :: r4 :: r5 :: r6 :: r7 :: more)
           = Bracket bracket.
Proof.
  intros Hnd.
  destruct (draw_outcomes played r0 r1 r2 r3 r4 r5 r6 r7 Hnd) as [Hyes Hno].
  unfold drawKnockoutStage. fold (drawStart r0 r1 r2 r3 r4 r5 r6 r7).
  split; [split|].
  - intros (attempts & bracket & Hdraw).
    destruct (drawConverges played r0 r1 r2 r3 r4 r5 r6 r7); [reflexivity|].
    rewrite (Hno eq_refl attempts) in Hdraw. discriminate.
  - intros Hok. exists 2%nat. auto.
  - intros attempts bracket Hdraw k.
    apply drawLoop_more_attempts. eapply drawLoop_two_attempts. exact Hdraw.
Qed.

Lemma eightTeams_names_differ :
  NoDup (name <$> [T1; T2; T3; T4; T5; T6; T7; T8]).
Proof. apply (bool_decide_unpack _). vm_compute. exact I. Qed.

(** The witness of [drawKnockoutStage_converges_iff]: T1 has met T7; the
    draw converges. *)
Lemma drawKnockoutStage_converges_iff_witness :
  drawConverges (recordHistory [("T1", "T7")]) T1 T2 T3 T4 T5 T6 T7 T8 = true.
Proof.
  apply (proj1 (proj1 (drawKnockoutStage_converges_iff
                         (recordHistory [("T1", "T7")])
                         T1 T2 T3 T4 T5 T6 T7 T8 [] eightTeams_names_differ))).
  exists 1%nat. eexists. vm_compute. reflexivity.
Defined.

(** X17. When the eight names differ and a valid bracket exists, the draw
    fails to return exactly when the two pairs of hats need opposite orders:
    first fit pairs one of them only in its initial order and the other only
    when turned, while the loop always turns both. *)
Theorem drawKnockoutStage_misses_iff (played : gmap string (gset string))
    (r0 r1 r2 r3 r4 r5 r6 r7 : Team) (more : list Team) :
  NoDup (name <$> [r0; r1; r2; r3; r4; r5; r6; r7]) →
  (∃ bracket, validBracket played r0 r1 r2 r3 r4 r5 r6 r7 bracket) →
  (∀ attempts,
     drawKnockoutStage played attempts
       (r0 :: r1 :: r2 :: r3 :: r4 :: r5 :: r6 :: r7 :: more) = StillRetrying)
  ↔ oppositeOrders played r0 r1 r2 r3 r4 r5 r6 r7.
Proof.
  intros Hnd (bracket & p0 & p1 & p2 & p3 & -> & Hdg & Hef & Hnp).
  apply Forall_cons in Hnp as [Hp0 Hnp]. apply Forall_cons in Hnp as [Hp1 Hnp].
  apply Forall_cons in Hnp as [Hp2 Hnp]. apply Forall_cons in Hnp as [Hp3 _].
  pose proof (firstFits_of_crossPairing played _ _ _ _ _ _ Hdg Hp0 Hp1) as Hdg'.
  pose proof (firstFits_of_crossPairing played _ _ _ _ _ _ Hef Hp2 Hp3) as Hef'.
  destruct (draw_outcomes played r0 r1 r2 r3 r4 r5 r6 r7 Hnd) as [Hyes Hno].
  unfold drawKnockoutStage. fold (drawStart r0 r1 r2 r3 r4 r5 r6 r7).
  unfold oppositeOrders. unfold drawConverges in Hyes, Hno.
  destruct (firstFits played r0 r1 r6 r7), (firstFits played r0 r1 r7 r6),
    (firstFits played r2 r3 r4 r5), (firstFits played r2 r3 r5 r4);
    cbn [andb orb] in Hyes, Hno;
    try (destruct Hdg'; discriminate); try (destruct Hef'; discriminate).
  all: split;
    [ intros Hstuck;
      first [ destruct (Hyes eq_refl) as [b Hb]; specialize (Hstuck 2%nat);
              congruence
            | left; repeat split; reflexivity
            | right; repeat split; reflexivity ]
    | intros [(? & ? & ? & ?)|(? & ? & ? & ?)]; try discriminate;
      apply Hno; reflexivity ].
Qed.

(** The witness of [drawKnockoutStage_misses_iff]: T2 has met T8 and T4 has
    met T5. *)
Lemma drawKnockoutStage_misses_iff_witness :
  oppositeOrders playedLockstep T1 T2 T3 T4 T5 T6 T7 T8.
Proof.
  assert (∃ bracket,
            validBracket playedLockstep T1 T2 T3 T4 T5 T6 T7 T8 bracket)
    as Hvalid.
  { exists [(T1, T8); (T2, T7); (T3, T5); (T4, T6)].
    exists (T1, T8), (T2, T7), (T3, T5), (T4, T6).
    split; [reflexivity|].
    split; [right; split; reflexivity|].
    split; [left; split; reflexivity|].
    repeat constructor; apply js_not_isMatchAlreadyPlayed;
      vm_compute; reflexivity. }
  apply (proj1 (drawKnockoutStage_misses_iff playedLockstep
                  T1 T2 T3 T4 T5 T6 T7 T8 [] eightTeams_names_differ Hvalid)).
  intros attempts.
  apply (drawLoop_stuck playedLockstep T1 T2 T3 T4 T5 T6 T7 T8);
    vm_compute; reflexivity.
Defined.

(** ** Knockout matches *)

Section KnockoutMatches.
Context `{Math}.

Lemma knockoutMatch_inv teamForms team1 team2 w t w' :
  knockoutMatch teamForms team1 team2 w = Ret t w' →
  ∃ s1 s2 w1,
    knockoutGame teamForms team1 team2 w = Ret (s1, s2) w1
    ∧ ((s1 ≠ s2
        ∧ t = (if s1 >? s2 then team1 else team2)
        ∧ w' = logged [MatchResult (name team1) (name team2) s1 s2] w1)
       ∨ (s1 = s2
          ∧ ∃ u1 u2 rest,
              draws w1 = u1 :: u2 :: rest
              ∧ t = (if Qfloor (u1 * 5) >? Qfloor (u2 * 5)
                     then team1 else team2)
              ∧ w' = withDraws rest
                       (logged
                          [MatchResult (name team1) (name team2) s1 s2;
                           PenaltyShootoutNeeded;
                           if Qfloor (u1 * 5) >? Qfloor (u2 * 5)
                           then WinsInPenalties (name team1)
                                  (Qfloor (u1 * 5)) (Qfloor (u2 * 5))
                           else WinsInPenalties (name team2)
                                  (Qfloor (u2 * 5)) (Qfloor (u1 * 5))] w1))).
Proof.
  intros Hrun.
  destruct (knockoutGame teamForms team1 team2 w) as [[s1 s2] w1| |] eqn:Hgame.
  - exists s1, s2, w1. split; [reflexivity|].
    destruct (decide (s1 = s2)) as [->|Hne].
    + right. split; [reflexivity|].
      destruct (draws w1) as [|u1 [|u2 rest]] eqn:Hd.
      * exfalso. revert Hrun. unfold knockoutGame in Hgame.
        unfold knockoutMatch, bind at 1. rewrite Hgame, Z.eqb_refl.
        unfold displayMatchResult, log, bind, simulatePenaltyShootout,
          Math_random, bind. cbn. rewrite Hd. discriminate.
      * exfalso. revert Hrun. unfold knockoutGame in Hgame.
        unfold knockoutMatch, bind at 1. rewrite Hgame, Z.eqb_refl.
        unfold displayMatchResult, log, bind, simulatePenaltyShootout,
          Math_random, bind. cbn. rewrite Hd. discriminate.
      * rewrite (knockoutMatch_tie _ _ _ _ _ _ _ _ _ Hgame Hd) in Hrun.
        injection Hrun as <- <-. exists u1, u2, rest. auto.
    + left. split; [exact Hne|].
      rewrite (knockoutMatch_decided _ _ _ _ _ _ _ Hgame Hne) in Hrun.
      injection Hrun as <- <-. auto.
  - exfalso. revert Hrun. unfold knockoutGame in Hgame.
    unfold knockoutMatch, bind at 1. rewrite Hgame. discriminate.
  - exfalso. revert Hrun. unfold knockoutGame in Hgame.
    unfold knockoutMatch, bind at 1. rewrite Hgame. discriminate.
Qed.

Lemma knockoutMatch_no_throw teamForms team1 team2 w :
  knockoutMatch teamForms team1 team2 w ≠ TypeError.
Proof.
  unfold knockoutMatch, bind at 1.
  pose proof (simulateGamePoisson_no_throw (ranking team1) (ranking team2)
                (formOf teamForms team1) (formOf teamForms team2) w) as Hgame.
  destruct (simulateGamePoisson _ _ _ _ w) as [[s1 s2] w1| |];
    [|discriminate|congruence].
  unfold displayMatchResult, log, bind, simulatePenaltyShootout, Math_random,
    bind, ret. cbn.
  destruct (s1 =? s2); [|discriminate].
  destruct (draws w1) as [|u1 [|u2 rest]]; cbn; try discriminate.
  destruct (_ >? _); discriminate.
Qed.

(** What every knockout match leaves behind. *)
Lemma knockoutMatch_effect teamForms team1 team2 w t w' :
  knockoutMatch teamForms team1 team2 w = Ret t w' →
  (t = team1 ∨ t = team2)
  ∧ groupStageMatches w' = groupStageMatches w
  ∧ ∃ new, console w' = console w ++ new
           ∧ matchPairs new = [(name team1, name team2)].
Proof.
  intros Hrun.
  apply knockoutMatch_inv in Hrun as (s1 & s2 & w1 & Hgame & Hcases).
  unfold knockoutGame in Hgame.
  apply simulateGamePoisson_run in Hgame as (_ & _ & Hc & Hg & _).
  destruct Hcases as [(Hne & -> & ->)|(-> & u1 & u2 & rest & Hd & -> & ->)].
  - split; [destruct (s1 >? s2); auto|]. split; [exact Hg|].
    eexists. cbn. rewrite Hc. split; reflexivity.
  - split; [destruct (_ >? _); auto|]. split; [exact Hg|].
    eexists. cbn. rewrite Hc. split; [reflexivity|].
    destruct (_ >? _); reflexivity.
Qed.

End KnockoutMatches.

(** X18. A knockout match never throws and sends through one of its two
    teams: the team with the higher score when the scores differ, taking no
    further draw; after equal scores it runs the shootout once, on the next
    two draws, and sends through team1 if the shootout score of team1 is the
    higher one, team2 otherwise.  It writes one match line and leaves the
    group-stage record alone. *)
Theorem knockoutMatch_advances `{Math} (teamForms : gmap string Z)
    (team1 team2 : Team) (w : World) :
  knockoutMatch teamForms team1 team2 w ≠ TypeError
  ∧ ∀ t w',
      knockoutMatch teamForms team1 team2 w = Ret t w' →
      (t = team1 ∨ t = team2)
      ∧ groupStageMatches w' = groupStageMatches w
      ∧ (∃ new, console w' = console w ++ new
                ∧ matchPairs new = [(name team1, name team2)])
      ∧ ∃ s1 s2 w1,
          knockoutGame teamForms team1 team2 w = Ret (s1, s2) w1
          ∧ (s1 > s2 → t = team1 ∧ draws w' = draws w1)
          ∧ (s1 < s2 → t = team2 ∧ draws w' = draws w1)
          ∧ (s1 = s2 →
             ∃ u1 u2 p1 p2,
               draws w1 = u1 :: u2 :: draws w'
               ∧ simulatePenaltyShootout w1
                 = Ret (p1, p2) (withDraws (draws w') w1)
               ∧ t = if p1 >? p2 then team1 else team2).
Proof.
  split; [apply knockoutMatch_no_throw|].
  intros t w' Hrun.
  destruct (knockoutMatch_effect _ _ _ _ _ _ Hrun) as (Ht & Hg & Hnew).
  split; [exact Ht|]. split; [exact Hg|]. split; [exact Hnew|].
  apply knockoutMatch_inv in Hrun as (s1 & s2 & w1 & Hgame & Hcases).
  exists s1, s2, w1. split; [exact Hgame|].
  destruct Hcases as [(Hne & -> & ->)|(-> & u1 & u2 & rest & Hd & -> & ->)].
  - split; [|split]; intros Hs; try lia.
    + rewrite (proj2 (Z.gtb_lt s1 s2)) by lia. auto.
    + destruct (Z.gtb_spec s1 s2); [lia|]. auto.
  - split; [|split]; intros Hs; try lia.
    exists u1, u2, (Qfloor (u1 * 5)), (Qfloor (u2 * 5)).
    split; [exact Hd|]. split; [|reflexivity].
    apply simulatePenaltyShootout_run. exact Hd.
Qed.

(** The witness of [knockoutMatch_advances]: T1 beats T7 1:0. *)
Lemma knockoutMatch_advances_witness :
  (T1 = T1 ∨ T1 = T7)
  ∧ groupStageMatches (logged [MatchResult "T1" "T7" 1 0] (world0 []))
    = groupStageMatches (world0 oneNil).
Proof.
  destruct (proj2 (@knockoutMatch_advances ratMath ∅ T1 T7 (world0 oneNil))
              T1 (logged [MatchResult "T1" "T7" 1 0] (world0 [])))
    as (Ht & Hg & _).
  - vm_compute. reflexivity.
  - split; [exact Ht | exact Hg].
Defined.

(** ** Knockout rounds *)

Section KnockoutRounds.
Context `{Math}.
Variable teamForms : gmap string Z.

Lemma playQuarterFinals_inv quarterFinals :
  ∀ semiFinals w result w',
    playQuarterFinals teamForms quarterFinals semiFinals w = Ret result w' →
    ∃ winners new,
      result = semiFinals ++ winners
      ∧ Forall2 oneOf quarterFinals winners
      ∧ groupStageMatches w' = groupStageMatches w
      ∧ console w' = console w ++ new
      ∧ matchPairs new = pairNames <$> quarterFinals.
Proof.
  induction quarterFinals as [|[team1 team2] rest IH];
    intros semiFinals w result w' Hrun; cbn [playQuarterFinals] in Hrun.
  - apply ret_Ret in Hrun as [<- <-]. exists [], [].
    rewrite !app_nil_r. repeat split. constructor.
  - apply bind_Ret in Hrun as (t & w1 & Hmatch & Hrun).
    apply knockoutMatch_effect in Hmatch as (Ht & Hg & new1 & Hc & Hp).
    apply IH in Hrun as (winners & new & -> & Hall & Hg' & Hc' & Hp').
    exists (t :: winners), (new1 ++ new).
    split; [now rewrite <- app_assoc|].
    split; [constructor; [exact Ht | exact Hall]|].
    split; [congruence|].
    split; [rewrite Hc', Hc, <- app_assoc; reflexivity|].
    rewrite matchPairs_app, Hp, Hp'. reflexivity.
Qed.

Lemma playSemiFinals_inv n :
  ∀ semiFinals finals w result w',
    (length semiFinals ≤ n)%nat →
    playSemiFinals teamForms semiFinals finals w = Ret result w' →
    ∃ winners new,
      result = finals ++ winners
      ∧ Forall2 oneOf (adjacentPairs semiFinals) winners
      ∧ groupStageMatches w' = groupStageMatches w
      ∧ console w' = console w ++ new
      ∧ matchPairs new = pairNames <$> adjacentPairs semiFinals.
Proof.
  induction n as [|n IH]; intros semiFinals finals w result w' Hlen Hrun.
  - destruct semiFinals; [|cbn in Hlen; lia]. cbn in Hrun.
    apply ret_Ret in Hrun as [<- <-]. exists [], [].
    rewrite !app_nil_r. repeat split. constructor.
  - destruct semiFinals as [|team1 [|team2 rest]]; cbn [playSemiFinals] in Hrun.
    + apply ret_Ret in Hrun as [<- <-]. exists [], [].
      rewrite !app_nil_r. repeat split. constructor.
    + apply ret_Ret in Hrun as [<- <-]. exists [], [].
      rewrite !app_nil_r. repeat split. constructor.
    + apply bind_Ret in Hrun as (t & w1 & Hmatch & Hrun).
      apply knockoutMatch_effect in Hmatch as (Ht & Hg & new1 & Hc & Hp).
      apply IH in Hrun as (winners & new & -> & Hall & Hg' & Hc' & Hp');
        [|cbn in Hlen; lia].
      exists (t :: winners), (new1 ++ new).
      split; [now rewrite <- app_assoc|].
      split; [constructor; [exact Ht | exact Hall]|].
      split; [congruence|].
      split; [rewrite Hc', Hc, <- app_assoc; reflexivity|].
      rewrite matchPairs_app, Hp, Hp'. reflexivity.
Qed.

Lemma adjacentPairs_length n :
  ∀ l, (length l ≤ n)%nat → (2 * length (adjacentPairs l) ≤ length l)%nat.
Proof.
  induction n as [|n IH]; intros [|a [|b l]] Hlen; cbn in *; try lia.
  specialize (IH l). lia.
Qed.

Lemma playFinal_inv finals w result w' :
  playFinal teamForms finals w = Ret result w' →
  ∃ finalist1 finalist2 others s1 s2 w1,
    finals = finalist1 :: finalist2 :: others
    ∧ knockoutGame teamForms finalist1 finalist2 w = Ret (s1, s2) w1
    ∧ champion result = (if s1 >? s2 then finalist1 else finalist2)
    ∧ runnerUp result = (if s1 <? s2 then finalist1 else finalist2)
    ∧ w' = logged [MatchResult (name finalist1) (name finalist2) s1 s2;
                   Champion (name (champion result));
                   RunnerUp (name (runnerUp result))] w1.
Proof.
  intros Hrun. destruct finals as [|finalist1 [|finalist2 others]];
    [discriminate | discriminate |].
  destruct (knockoutGame teamForms finalist1 finalist2 w)
    as [[s1 s2] w1| |] eqn:Hgame.
  - rewrite (playFinal_run _ _ _ _ _ _ _ _ Hgame) in Hrun.
    injection Hrun as <- <-.
    exists finalist1, finalist2, others, s1, s2, w1. auto 10.
  - exfalso. revert Hrun. unfold knockoutGame in Hgame.
    unfold playFinal, bind at 1. rewrite Hgame. discriminate.
  - exfalso. revert Hrun. unfold knockoutGame in Hgame.
    unfold playFinal, bind at 1. rewrite Hgame. discriminate.
Qed.

End KnockoutRounds.

Lemma knockout_stage_inv `{Math} (teamForms : gmap string Z)
    (q1 q2 q3 q4 : Team * Team) (w w' : World) (result : KnockoutResults) :
  simulateKnockoutStage teamForms [q1; q2; q3; q4] w = Ret result w' →
  ∃ s1 s2 s3 s4 f1 f2 new,
    oneOf q1 s1 ∧ oneOf q2 s2 ∧ oneOf q3 s3 ∧ oneOf q4 s4
    ∧ oneOf (s1, s2) f1 ∧ oneOf (s3, s4) f2
    ∧ ((champion result = f1 ∧ runnerUp result = f2)
       ∨ (champion result = f2 ∧ runnerUp result = f1)
       ∨ (champion result = f2 ∧ runnerUp result = f2))
    ∧ groupStageMatches w' = groupStageMatches w
    ∧ console w' = console w ++ new
    ∧ matchPairs new
      = [pairNames q1; pairNames q2; pairNames q3; pairNames q4;
         (name s1, name s2); (name s3, name s4); (name f1, name f2)].
Proof.
  unfold simulateKnockoutStage. intros Hrun.
  apply bind_Ret in Hrun as (semis & w1 & Hqf & Hrun).
  apply bind_Ret in Hrun as (finals & w2 & Hsf & Hrun).
  apply playQuarterFinals_inv in Hqf as (ws & new1 & -> & Hws & Hg1 & Hc1 & Hp1).
  apply Forall2_cons_inv_l in Hws as (s1 & ws1 & H1 & Hws & ->).
  apply Forall2_cons_inv_l in Hws as (s2 & ws2 & H2 & Hws & ->).
  apply Forall2_cons_inv_l in Hws as (s3 & ws3 & H3 & Hws & ->).
  apply Forall2_cons_inv_l in Hws as (s4 & ws4 & H4 & Hws & ->).
  apply Forall2_nil_inv_l in Hws as ->. cbn [app] in Hsf.
  apply (playSemiFinals_inv teamForms 4) in Hsf
    as (fs & new2 & -> & Hfs & Hg2 & Hc2 & Hp2); [|cbn; lia].
  cbn [adjacentPairs] in Hfs, Hp2.
  apply Forall2_cons_inv_l in Hfs as (f1 & fs1 & Hf1 & Hfs & ->).
  apply Forall2_cons_inv_l in Hfs as (f2 & fs2 & Hf2 & Hfs & ->).
  apply Forall2_nil_inv_l in Hfs as ->. cbn [app] in Hrun.
  apply playFinal_inv in Hrun
    as (a & b & others & sa & sb & w3 & [= <- <- <-] & Hgame & Hch & Hru & ->).
  unfold knockoutGame in Hgame.
  apply simulateGamePoisson_run in Hgame as (_ & _ & Hc3 & Hg3 & _).
  exists s1, s2, s3, s4, f1, f2.
  eexists (new1 ++ new2 ++ [_; _; _]).
  repeat (split; [assumption|]).
  split.
  { rewrite Hch, Hru.
    destruct (Z.lt_trichotomy sa sb) as [Hlt|[->|Hgt]].
    - right. left. rewrite (proj2 (Z.ltb_lt sa sb)) by lia.
      destruct (Z.gtb_spec sa sb); [lia|]. auto.
    - right. right. rewrite Z.ltb_irrefl.
      destruct (Z.gtb_spec sb sb); [lia|]. auto.
    - left. rewrite (proj2 (Z.gtb_lt sa sb)) by lia.
      destruct (Z.ltb_spec sa sb); [lia|]. auto. }
  split; [cbn; congruence|].
  split.
  { cbn [logged console]. rewrite Hc3, Hc2, Hc1, <- !app_assoc. reflexivity. }
  rewrite !matchPairs_app, Hp1, Hp2. reflexivity.
Qed.


(** X19. The bracket is not re-seeded.  With four quarterfinals q1..q4 the
    first semifinal is between the winners of q1 and q2, the second between
    the winners of q3 and q4, and the final between the winners of the two
    semifinals; champion and runner-up are the two finalists one way round
    or the other, or both the second finalist.  Seven match lines are
    written, in this order, and the group-stage record is left alone. *)
Theorem simulateKnockoutStage_bracket `{Math} (teamForms : gmap string Z)
    (q1 q2 q3 q4 : Team * Team) (w w' : World) (result : KnockoutResults) :
  simulateKnockoutStage teamForms [q1; q2; q3; q4] w = Ret result w' →
  ∃ s1 s2 s3 s4 f1 f2 new,
    oneOf q1 s1 ∧ oneOf q2 s2 ∧ oneOf q3 s3 ∧ oneOf q4 s4
    ∧ oneOf (s1, s2) f1 ∧ oneOf (s3, s4) f2
    ∧ ((champion result = f1 ∧ runnerUp result = f2)
       ∨ (champion result = f2 ∧ runnerUp result = f1)
       ∨ (champion result = f2 ∧ runnerUp result = f2))
    ∧ groupStageMatches w' = groupStageMatches w
    ∧ console w' = console w ++ new
    ∧ matchPairs new
      = [pairNames q1; pairNames q2; pairNames q3; pairNames q4;
         (name s1, name s2); (name s3, name s4); (name f1, name f2)].
Proof. apply knockout_stage_inv. Qed.

(** The witness of [simulateKnockoutStage_bracket]: the run in which the
    first teams win the quarterfinals and semifinals and the final is
    tied. *)
Lemma simulateKnockoutStage_bracket_witness :
  ∃ s1 s2 s3 s4 f1 f2 : Team,
    oneOf (T1, T7) s1 ∧ oneOf (T2, T8) s2 ∧ oneOf (T3, T5) s3
    ∧ oneOf (T4, T6) s4 ∧ oneOf (s1, s2) f1 ∧ oneOf (s3, s4) f2
    ∧ ((T3 = f1 ∧ T3 = f2) ∨ (T3 = f2 ∧ T3 = f1) ∨ (T3 = f2 ∧ T3 = f2)).
Proof.
  destruct (@simulateKnockoutStage_bracket ratMath ∅ (T1, T7) (T2, T8)
              (T3, T5) (T4, T6) (world0 drawsTiedFinal)
              (logged [MatchResult "T1" "T3" 0 0; Champion "T3"; RunnerUp "T3"]
                 (logged [MatchResult "T1" "T7" 1 0; MatchResult "T2" "T8" 1 0;
                          MatchResult "T3" "T5" 1 0; MatchResult "T4" "T6" 1 0;
                          MatchResult "T1" "T2" 1 0; MatchResult "T3" "T4" 1 0]
                    (world0 [])))
              {| champion := T3; runnerUp := T3 |})
    as (s1 & s2 & s3 & s4 & f1 & f2 & new & H1 & H2 & H3 & H4 & H5 & H6 & H7 & _).
  - vm_compute. reflexivity.
  - exists s1, s2, s3, s4, f1, f2. auto 10.
Defined.

(** X20. With fewer than four quarterfinals [simulateKnockoutStage] returns
    no result: fewer than two teams reach the final, and reading the missing
    finalist throws. With no quarterfinal at all it throws at once. *)
Theorem simulateKnockoutStage_needs_four `{Math} (teamForms : gmap string Z)
    (quarterFinals : list (Team * Team)) (w : World) :
  (length quarterFinals < 4)%nat →
  (∀ result w', simulateKnockoutStage teamForms quarterFinals w ≠ Ret result w')
  ∧ (quarterFinals = [] →
     simulateKnockoutStage teamForms quarterFinals w = TypeError).
Proof.
  intros Hlen. split.
  - intros result w' Hrun. unfold simulateKnockoutStage in Hrun.
    apply bind_Ret in Hrun as (semis & w1 & Hqf & Hrun).
    apply bind_Ret in Hrun as (finals & w2 & Hsf & Hrun).
    apply playQuarterFinals_inv in Hqf as (ws & new1 & -> & Hws & _).
    apply Forall2_length in Hws. cbn [app] in Hsf.
    apply (playSemiFinals_inv teamForms (length ws)) in Hsf
      as (fs & new2 & -> & Hfs & _); [|lia].
    apply Forall2_length in Hfs. cbn [app] in Hrun.
    pose proof (adjacentPairs_length (length ws) ws (Nat.le_refl _)) as Hhalf.
    apply playFinal_inv in Hrun as (a & b & others & _ & _ & _ & -> & _).
    cbn in Hfs. lia.
  - intros ->. reflexivity.
Qed.

(** The witness of [simulateKnockoutStage_needs_four]: three
    quarterfinals. *)
Lemma simulateKnockoutStage_needs_four_witness :
  @simulateKnockoutStage ratMath ∅ [(T1, T7); (T2, T8); (T3, T5)]
    (world0 drawsTiedFinal) = TypeError.
Proof.
  pose proof (proj1 (@simulateKnockoutStage_needs_four ratMath ∅
                       [(T1, T7); (T2, T8); (T3, T5)] (world0 drawsTiedFinal)
                       ltac:(cbn; lia))) as Hnone.
  destruct (@simulateKnockoutStage ratMath ∅ [(T1, T7); (T2, T8); (T3, T5)]
              (world0 drawsTiedFinal)) as [r w'| |] eqn:Hrun.
  - exfalso. exact (Hnone r w' eq_refl).
  - revert Hrun. vm_compute. discriminate.
  - reflexivity.
Defined.

(** X21. The final. With fewer than two finalists [playFinal] throws without
    taking a draw. Otherwise the first two finalists play one game and no
    shootout: the champion is the first finalist if it scored strictly more
    and the second finalist otherwise, the runner-up is the first finalist
    if it scored strictly less and the second finalist otherwise; three
    lines are written. *)
Theorem playFinal_outcome `{Math} (teamForms : gmap string Z)
    (finals : list Team) (w : World) :
  ((length finals < 2)%nat → playFinal teamForms finals w = TypeError)
  ∧ ∀ result w',
      playFinal teamForms finals w = Ret result w' →
      ∃ finalist1 finalist2 others s1 s2 w1,
        finals = finalist1 :: finalist2 :: others
        ∧ knockoutGame teamForms finalist1 finalist2 w = Ret (s1, s2) w1
        ∧ (s1 > s2 → champion result = finalist1 ∧ runnerUp result = finalist2)
        ∧ (s1 < s2 → champion result = finalist2 ∧ runnerUp result = finalist1)
        ∧ (s1 = s2 → champion result = finalist2 ∧ runnerUp result = finalist2)
        ∧ w' = logged [MatchResult (name finalist1) (name finalist2) s1 s2;
                       Champion (name (champion result));
                       RunnerUp (name (runnerUp result))] w1.
Proof.
  split.
  - intros Hlen. destruct finals as [|a [|b l]]; [reflexivity..|].
    cbn in Hlen. lia.
  - intros result w' Hrun.
    apply playFinal_inv in Hrun
      as (f1 & f2 & others & s1 & s2 & w1 & -> & Hgame & Hch & Hru & ->).
    exists f1, f2, others, s1, s2, w1.
    split; [reflexivity|]. split; [exact Hgame|].
    rewrite Hch, Hru.
    split; [|split; [|split]]; try reflexivity; intros Hs.
    + rewrite (proj2 (Z.gtb_lt s1 s2)) by lia.
      destruct (Z.ltb_spec s1 s2); [lia|]. auto.
    + rewrite (proj2 (Z.ltb_lt s1 s2)) by lia.
      destruct (Z.gtb_spec s1 s2); [lia|]. auto.
    + subst. rewrite Z.ltb_irrefl. destruct (Z.gtb_spec s2 s2); [lia|]. auto.
Qed.

(** The witness of [playFinal_outcome]: T1 beats T3 1:0 in the final. *)
Lemma playFinal_outcome_witness :
  @playFinal ratMath ∅ [T1] (world0 oneNil) = TypeError
  ∧ ∃ finalist1 finalist2 : Team,
      [T1; T3] = [finalist1; finalist2]
      ∧ (1 > 0 → T1 = finalist1 ∧ T3 = finalist2).
Proof.
  split.
  - apply (proj1 (@playFinal_outcome ratMath ∅ [T1] (world0 oneNil))).
    cbn. lia.
  - destruct (proj2 (@playFinal_outcome ratMath ∅ [T1; T3] (world0 oneNil))
                {| champion := T1; runnerUp := T3 |}
                (logged [MatchResult "T1" "T3" 1 0; Champion "T1";
                         RunnerUp "T3"] (world0 [])))
      as (f1 & f2 & others & s1 & s2 & w1 & Hf & Hgame & Hgt & _).
    + vm_compute. reflexivity.
    + injection Hf as <- <- <-. exists T1, T3. split; [reflexivity|]. auto.
Defined.

(** ** Form *)

Lemma cumulativeDifference_goals (matches : list ExhibitionMatch) :
  cumulativeDifference matches = goalsFor matches - goalsAgainst matches.
Proof.
  unfold cumulativeDifference, goalsFor, goalsAgainst.
  assert (Hgen : ∀ acc,
             fold_left (fun cumulativeDifference match_ =>
                          let '(teamGoals, opponentGoals) := Result match_ in
                          let difference := teamGoals - opponentGoals in
                          cumulativeDifference + difference) matches acc
             = acc + (foldr (fun m a => fst (Result m) + a) 0 matches
                      - foldr (fun m a => snd (Result m) + a) 0 matches)).
  { induction matches as [|m l IH]; intros acc; cbn; [lia|].
    rewrite IH. destruct (Result m) as [g o]. cbn. lia. }
  rewrite Hgen. lia.
Qed.

(** X22. With one entry per team, [calculateCumulativeForm] gives a form to
    exactly the teams whose exhibition entry is an array: the goals scored
    minus the goals conceded over the matches of the array, which is 0 for
    an empty array. *)
Theorem calculateCumulativeForm_table
    (exhibitions : list (string * ExhibitionEntry)) :
  NoDup exhibitions.*1 →
  (∀ team matches,
     (team, MatchArray matches) ∈ exhibitions →
     calculateCumulativeForm exhibitions !! team
     = Some (goalsFor matches - goalsAgainst matches))
  ∧ (∀ team,
       (team, MatchArray []) ∈ exhibitions →
       calculateCumulativeForm exhibitions !! team = Some 0)
  ∧ (∀ team,
       (∀ matches, (team, MatchArray matches) ∉ exhibitions) →
       calculateCumulativeForm exhibitions !! team = None).
Proof.
  intros Hnd. split; [|split].
  - intros team matches Hin. rewrite <- cumulativeDifference_goals.
    apply calculateCumulativeForm_lookup; eauto.
  - intros team Hin.
    apply calculateCumulativeForm_lookup; [exact Hnd|]. eauto.
  - intros team Hnone.
    destruct (calculateCumulativeForm exhibitions !! team) as [form|] eqn:E;
      [|reflexivity].
    apply calculateCumulativeForm_lookup in E as (ms & Hin & _); [|exact Hnd].
    now apply Hnone in Hin.
Qed.

(** The witness of [calculateCumulativeForm_table]: "CAN" lost by 14 and won
    by 12. *)
Lemma calculateCumulativeForm_table_witness :
  calculateCumulativeForm exhibitionsWithBadEntry !! "CAN"
  = Some ((72 + (85 + 0)) - (86 + (73 + 0))).
Proof.
  apply (proj1 (calculateCumulativeForm_table exhibitionsWithBadEntry
                  ltac:(apply (bool_decide_unpack _); vm_compute; exact I))
           "CAN" [ {| Opponent := "USA"; Result := (72, 86) |};
                   {| Opponent := "FRA"; Result := (85, 73) |} ]).
  left.
Defined.

(** ** The whole tournament *)

Section Tournament.
Context `{Math}.

Lemma displayFriendlyMatches_run exhibitions w :
  (Forall (fun entry => snd entry ≠ NotAnArray) exhibitions →
   displayFriendlyMatches exhibitions w = Ret tt w)
  ∧ ((∃ team, (team, NotAnArray) ∈ exhibitions) →
     displayFriendlyMatches exhibitions w = TypeError).
Proof.
  induction exhibitions as [|[team [|matches]] l [IHok IHbad]];
    cbn [displayFriendlyMatches].
  - split; [reflexivity|]. intros [team Hin]. inversion Hin.
  - split; [|reflexivity]. intros Hall.
    apply Forall_cons in Hall as [Hno _]. now cbn in Hno.
  - split.
    + intros Hall. apply Forall_cons in Hall as [_ Hall]. auto.
    + intros [t Hin]. apply elem_of_cons in Hin as [[=]|Hin]. eauto.
Qed.

Lemma identity_allTeams groups groupResults :
  Forall2 (fun (group : string * list (string * Q))
               (table : string * list Team) =>
             fst table = fst group ∧ identity <$> snd table ≡ₚ snd group
             ∧ balanced (snd table))
    groups groupResults →
  identity <$> allTeams groupResults ≡ₚ allEntries groups.
Proof.
  unfold allTeams, allEntries.
  induction 1 as [|g t gs ts (_ & Hid & _) _ IH]; cbn; [reflexivity|].
  rewrite fmap_app, Hid, IH. reflexivity.
Qed.

Lemma ranked_in_allTeams groupResults t :
  t ∈ rankTeamsForKnockout groupResults → t ∈ allTeams groupResults.
Proof.
  unfold rankTeamsForKnockout, allTeams. intros Hin.
  apply subseteq_take in Hin.
  now rewrite sortTeamsByPerformance_Permutation in Hin.
Qed.

End Tournament.

(** X23. If the exhibition entry of any team is not an array,
    [simulateTournament] throws in [displayFriendlyMatches], before any
    match is played: the entry that [calculateCumulativeForm] skips stops
    the tournament all the same. *)
Theorem simulateTournament_non_array `{Math}
    (exhibitions : list (string * ExhibitionEntry))
    (groups : list (string * list (string * Q))) (attempts : nat) (w : World)
    (team : string) :
  (team, NotAnArray) ∈ exhibitions →
  simulateTournament exhibitions groups attempts w = TypeError.
Proof.
  intros Hin. unfold simulateTournament. cbn zeta. unfold bind at 1.
  rewrite (proj2 (displayFriendlyMatches_run exhibitions w)); eauto.
Qed.

(** The witness of [simulateTournament_non_array]: the entry of "GRE". *)
Lemma simulateTournament_non_array_witness :
  @simulateTournament ratMath exhibitionsWithBadEntry twoGroups 2
    (world0 drawsZero) = TypeError.
Proof.
  apply (@simulateTournament_non_array ratMath exhibitionsWithBadEntry
           twoGroups 2 (world0 drawsZero) "GRE").
  right. left.
Defined.

(** C8, at exhibition data in which the entry of "B2" is not an array:
    [calculateCumulativeForm] skips the entry and keeps the form of "A1",
    but [simulateTournament] throws a TypeError in [displayFriendlyMatches]
    before any match is played, so no round is simulated with form 0 for
    "B2"; with an empty array in place of the entry the same tournament is
    played to the end and "B2" wins it. *)
Theorem non_array_entry_aborts_tournament :
  calculateCumulativeForm exhibitionsNonArray !! "B2" = None
  ∧ calculateCumulativeForm exhibitionsNonArray !! "A1" = Some 10
  ∧ @simulateTournament ratMath exhibitionsNonArray twoGroups 2
      (world0 drawsZero) = TypeError
  ∧ ∃ (knockoutResults : KnockoutResults) (w' : World),
      @simulateTournament ratMath exhibitionsEmptyArray twoGroups 2
        (world0 drawsZero) = Ret (Finished knockoutResults) w'
      ∧ name (champion knockoutResults) = "B2"%string.
Proof.
  split; [vm_compute; reflexivity|].
  split; [vm_compute; reflexivity|].
  split; [vm_compute; reflexivity|].
  destruct (@simulateTournament ratMath exhibitionsEmptyArray twoGroups 2
              (world0 drawsZero)) as [[r|] w'| |] eqn:Hrun.
  - exists r, w'. split; [reflexivity|].
    revert Hrun. vm_compute. intros [= <- <-]. reflexivity.
  - exfalso. revert Hrun. vm_compute. discriminate.
  - exfalso. revert Hrun. vm_compute. discriminate.
  - exfalso. revert Hrun. vm_compute. discriminate.
Qed.

Section TournamentRuns.
Context `{Math}.

Lemma simulateTournament_inv exhibitions groups attempts w outcome w' :
  simulateTournament exhibitions groups attempts w = Ret outcome w' →
  ∃ groupResults w1,
    Forall (fun entry => snd entry ≠ NotAnArray) exhibitions
    ∧ simulateGroupStages groups w = Ret groupResults w1
    ∧ match drawKnockoutStage (groupStageMatches w1) attempts
              (rankTeamsForKnockout groupResults) with
      | Bracket knockoutDraw =>
          ∃ knockoutResults,
            simulateKnockoutStage (calculateCumulativeForm exhibitions)
              knockoutDraw w1 = Ret knockoutResults w'
            ∧ outcome = Finished knockoutResults
      | StillRetrying => outcome = DrawRetrying ∧ w' = w1
      | DrawTypeError => False
      end.
Proof.
  unfold simulateTournament. cbn zeta. intros Hrun.
  apply bind_Ret in Hrun as ([] & w0 & Hdisplay & Hrun).
  apply bind_Ret in Hrun as (groupResults & w1 & Hgroups & Hrun).
  assert (Harrays : Forall (fun entry => snd entry ≠ NotAnArray) exhibitions).
  { apply Forall_forall. intros [team entry] Hin Hbad. cbn in Hbad. subst.
    rewrite (proj2 (displayFriendlyMatches_run exhibitions w)) in Hdisplay;
      [discriminate | eauto]. }
  rewrite (proj1 (displayFriendlyMatches_run exhibitions w) Harrays) in Hdisplay.
  injection Hdisplay as <-.
  exists groupResults, w1. split; [exact Harrays|]. split; [exact Hgroups|].
  destruct (drawKnockoutStage _ _ _) as [knockoutDraw| |].
  - apply bind_Ret in Hrun as (r & w2 & Hko & Hrun).
    apply ret_Ret in Hrun as [<- <-]. eauto.
  - injection Hrun as <- <-. auto.
  - discriminate.
Qed.

End TournamentRuns.

(** X24. With fewer than eight teams in the groups taken together,
    [simulateTournament] returns nothing: if the group stage ends, the draw
    throws a TypeError. *)
Theorem simulateTournament_few_teams `{Math}
    (exhibitions : list (string * ExhibitionEntry))
    (groups : list (string * list (string * Q))) (attempts : nat) (w : World) :
  (length (allEntries groups) < 8)%nat →
  ∀ outcome w',
    simulateTournament exhibitions groups attempts w ≠ Ret outcome w'.
Proof.
  intros Hlen outcome w' Hrun.
  apply simulateTournament_inv in Hrun as (groupResults & w1 & _ & Hgroups & Hdraw).
  apply simulateGroupStages_trace in Hgroups as (_ & Hall).
  apply identity_allTeams, Permutation_length in Hall.
  rewrite length_fmap in Hall.
  assert (length (rankTeamsForKnockout groupResults) < 8)%nat as Hfew.
  { unfold rankTeamsForKnockout. rewrite length_take.
    rewrite sortTeamsByPerformance_Permutation.
    fold (allTeams groupResults). lia. }
  revert Hdraw Hfew. generalize (rankTeamsForKnockout groupResults) as ranked.
  intros ranked Hdraw Hfew. unfold drawKnockoutStage in Hdraw.
  do 8 (destruct ranked as [|? ranked]; [exact Hdraw|]).
  cbn in Hfew. lia.
Qed.

(** The witness of [simulateTournament_few_teams]: one group of four
    teams. *)
Lemma simulateTournament_few_teams_witness :
  @simulateTournament ratMath exhibitionsArrays (take 1 twoGroups) 2
    (world0 drawsZero) = TypeError.
Proof.
  pose proof (@simulateTournament_few_teams ratMath exhibitionsArrays
                (take 1 twoGroups) 2 (world0 drawsZero) ltac:(cbn; lia))
    as Hnone.
  destruct (@simulateTournament ratMath exhibitionsArrays (take 1 twoGroups) 2
              (world0 drawsZero)) as [outcome w'| |] eqn:Hrun.
  - exfalso. exact (Hnone outcome w' eq_refl).
  - revert Hrun. vm_compute. discriminate.
  - reflexivity.
Defined.

(** X25. When [simulateTournament], started with an empty record, ends the
    knockout rounds, the champion and the runner-up are teams of the groups,
    among the eight that [rankTeamsForKnockout] kept, and carry the counters
    of their group stage, with points = 2 × wins + losses; the record is the
    one the group stage left, the knockout rounds having added nothing. *)
Theorem simulateTournament_finished `{Math}
    (exhibitions : list (string * ExhibitionEntry))
    (groups : list (string * list (string * Q))) (attempts : nat)
    (w w' : World) (knockoutResults : KnockoutResults) :
  groupStageMatches w = ∅ →
  simulateTournament exhibitions groups attempts w
    = Ret (Finished knockoutResults) w' →
  Forall (fun t => identity t ∈ allEntries groups ∧ points_invariant t)
    [champion knockoutResults; runnerUp knockoutResults]
  ∧ (∃ groupResults w1,
       simulateGroupStages groups w = Ret groupResults w1
       ∧ champion knockoutResults ∈ rankTeamsForKnockout groupResults
       ∧ runnerUp knockoutResults ∈ rankTeamsForKnockout groupResults)
  ∧ groupStageMatches w' = recordAll (allPairings groups) ∅.
Proof.
  intros Hempty Hrun.
  apply simulateTournament_inv in Hrun
    as (groupResults & w1 & _ & Hgroups & Hdraw).
  pose proof (points_invariant_simulateGroupStages _ _ _ _ Hgroups) as Hinv.
  apply points_invariant_rankTeamsForKnockout in Hinv.
  destruct (simulateGroupStages_trace _ _ _ _ Hgroups) as (Hgsm & Hall).
  apply identity_allTeams in Hall.
  destruct (drawKnockoutStage _ _ _) as [bracket| |] eqn:Hbracket;
    [|destruct Hdraw; discriminate|destruct Hdraw].
  destruct Hdraw as (r & Hko & [= <-]).
  unfold drawKnockoutStage in Hbracket.
  destruct (rankTeamsForKnockout groupResults)
    as [|r0 [|r1 [|r2 [|r3 [|r4 [|r5 [|r6 [|r7 more]]]]]]]] eqn:Hranked;
    try discriminate.
  apply (drawLoop_sound (groupStageMatches w1) r0 r1 r2 r3 r4 r5 r6 r7)
    in Hbracket.
  pose proof (validBracket_Permutation _ _ _ _ _ _ _ _ _ _ Hbracket) as Hperm.
  destruct Hbracket as (p0 & p1 & p2 & p3 & -> & _).
  apply knockout_stage_inv in Hko
    as (s1 & s2 & s3 & s4 & f1 & f2 & new & H1 & H2 & H3 & H4 & Hf1 & Hf2
        & Hcr & Hg & _).
  assert (Hin : ∀ t, t = f1 ∨ t = f2 →
                     t ∈ r0 :: r1 :: r2 :: r3 :: r4 :: r5 :: r6 :: r7 :: more).
  { intros t Ht.
    assert (t ∈ concat ((fun pairing => [fst pairing; snd pairing])
                          <$> [p0; p1; p2; p3])) as Hc.
    { cbn. unfold oneOf in *. cbn [fst snd] in *.
      rewrite !elem_of_cons.
      destruct Ht as [->| ->];
        [destruct Hf1 as [->| ->]; [destruct H1 as [->| ->]
                                   |destruct H2 as [->| ->]]
        |destruct Hf2 as [->| ->]; [destruct H3 as [->| ->]
                                   |destruct H4 as [->| ->]]];
        auto 10. }
    rewrite Hperm in Hc.
    change (t ∈ [r0; r1; r2; r3; r4; r5; r6; r7] ++ more).
    apply elem_of_app. now left. }
  assert (Hfacts : ∀ t, t = f1 ∨ t = f2 →
                        (identity t ∈ allEntries groups ∧ points_invariant t)
                        ∧ t ∈ rankTeamsForKnockout groupResults).
  { intros t Ht. apply Hin in Ht.
    assert (points_invariant t) as Hpt
      by (rewrite Forall_forall in Hinv; auto).
    rewrite <- Hranked in Ht.
    split; [split; [|exact Hpt]|exact Ht].
    rewrite <- Hall. apply list_elem_of_fmap. exists t.
    split; [reflexivity|]. now apply ranked_in_allTeams. }
  split.
  { destruct Hcr as [[-> ->]|[[-> ->]|[-> ->]]];
      repeat constructor; apply Hfacts; auto. }
  split.
  { exists groupResults, w1. split; [exact Hgroups|].
    destruct Hcr as [[-> ->]|[[-> ->]|[-> ->]]]; split; apply Hfacts; auto. }
  rewrite Hg, Hgsm, Hempty. reflexivity.
Qed.

(** The witness of [simulateTournament_finished]: two groups of four, all
    draws 0; B2 goes through every round as second team of a tied match. *)
Lemma simulateTournament_finished_witness :
  ∃ (knockoutResults : KnockoutResults) (w' : World),
    @simulateTournament ratMath exhibitionsArrays twoGroups 2
      (world0 drawsZero) = Ret (Finished knockoutResults) w'
    ∧ name (champion knockoutResults) = "B2"%string
    ∧ Forall (fun t => identity t ∈ allEntries twoGroups ∧ points_invariant t)
        [champion knockoutResults; runnerUp knockoutResults].
Proof.
  destruct (@simulateTournament ratMath exhibitionsArrays twoGroups 2
              (world0 drawsZero)) as [[r|] w'| |] eqn:Hrun.
  - exists r, w'. split; [reflexivity|]. split.
    + revert Hrun. vm_compute. intros [= <- <-]. reflexivity.
    + apply (@simulateTournament_finished ratMath exhibitionsArrays twoGroups 2
               (world0 drawsZero) w' r eq_refl Hrun).
  - exfalso. revert Hrun. vm_compute. discriminate.
  - exfalso. revert Hrun. vm_compute. discriminate.
  - exfalso. revert Hrun. vm_compute. discriminate.
Defined.

(** ** Games per team *)

Section GamesPerTeam.
Context `{Math}.

Lemma first_block_count (lo k : nat) :
  ∀ c s, (lo < s)%nat →
    length (filter (involves k) ((fun j => (lo, j)) <$> seq s c))
    = if decide (k = lo) then c
      else if decide (s ≤ k < s + c)%nat then 1%nat else 0%nat.
Proof.
  induction c as [|c IH]; intros s Hs; cbn [seq].
  - rewrite fmap_nil, filter_nil. repeat case_decide; try reflexivity; lia.
  - rewrite fmap_cons, filter_cons.
    destruct (decide (involves k (lo, s))) as [Hi|Hi]; cbn [length];
      rewrite (IH (S s)) by lia; unfold involves in Hi; cbn [fst snd] in Hi;
      repeat case_decide; lia.
Qed.

Lemma schedule_count c :
  ∀ lo k,
    length (filter (involves k) (unorderedPairs (seq lo c)))
    = if decide (lo ≤ k < lo + c)%nat then (c - 1)%nat else 0%nat.
Proof.
  induction c as [|c IH]; intros lo k; cbn [seq unorderedPairs].
  - rewrite filter_nil. case_decide; reflexivity.
  - rewrite filter_app, length_app, (IH (S lo)),
      (first_block_count lo k c (S lo)) by lia.
    repeat case_decide; lia.
Qed.

Lemma gamesBound_updateMatchResults c results i j s1 s2 :
  i ≠ j →
  gamesBound c results →
  gamesBound (fun k => c k + if decide (involves k (i, j)) then 1 else 0)
    (updateMatchResults results i j s1 s2).
Proof.
  intros Hij Hb k t Hk. unfold involves. cbn [fst snd].
  destruct (decide (k = i)) as [->|Hki];
    [|destruct (decide (k = j)) as [->|Hkj]].
  - rewrite updateMatchResults_lookup_1 in Hk by exact Hij.
    destruct (results !! i) as [t0|] eqn:E; [|discriminate].
    injection Hk as <-. destruct (Hb i t0 E) as (Hw & Hl & Hwl).
    rewrite decide_True by auto.
    unfold WIN_POINTS, LOSS_POINTS.
    destruct (s1 >? s2); [|destruct (s2 >? s1)]; cbn; lia.
  - rewrite updateMatchResults_lookup_2 in Hk by exact Hij.
    destruct (results !! j) as [t0|] eqn:E; [|discriminate].
    injection Hk as <-. destruct (Hb j t0 E) as (Hw & Hl & Hwl).
    rewrite decide_True by auto.
    unfold WIN_POINTS, LOSS_POINTS.
    destruct (s1 >? s2); [|destruct (s2 >? s1)]; cbn; lia.
  - rewrite updateMatchResults_lookup_other in Hk by assumption.
    destruct (Hb k t Hk) as (Hw & Hl & Hwl).
    rewrite decide_False by (intros [?|?]; congruence). lia.
Qed.

Lemma gamesBound_playMatches (pairs : list (nat * nat)) :
  ∀ c results w results' w',
    Forall (fun ij => fst ij ≠ snd ij) pairs →
    gamesBound c results →
    forEachM (fun ij => playPair (fst ij) (snd ij)) pairs results w
      = Ret results' w' →
    gamesBound (fun k => c k + Z.of_nat (length (filter (involves k) pairs)))
      results'.
Proof.
  induction pairs as [|[i j] pairs IH]; intros c results w results' w' Hne Hb Hrun.
  - apply ret_Ret in Hrun as [<- <-].
    intros k t Hk. destruct (Hb k t Hk) as (? & ? & ?).
    rewrite filter_nil. cbn. lia.
  - apply Forall_cons in Hne as [Hij Hne]. cbn [fst snd] in Hij.
    cbn [forEachM] in Hrun.
    apply bind_Ret in Hrun as (r1 & w1 & Hstep & Hrun). cbn [fst snd] in Hstep.
    apply playPair_step in Hstep as (t1 & t2 & s1 & s2 & _ & _ & _ & _ & -> & _).
    pose proof (gamesBound_updateMatchResults c results i j s1 s2 Hij Hb) as Hb1.
    pose proof (IH _ _ _ _ _ Hne Hb1 Hrun) as Hb2.
    intros k t Hk. destruct (Hb2 k t Hk) as (Hw & Hl & Hwl).
    split; [exact Hw|]. split; [exact Hl|].
    rewrite filter_cons. destruct (decide (involves k (i, j))); cbn [length]; lia.
Qed.

End GamesPerTeam.

(** X26. In the table of a group of n teams every team has at least 0 wins
    and 0 losses and at most n - 1 wins and losses taken together: it has
    played each of the others once, and a tied match counts for neither. *)
Theorem playGroupStage_games_per_team `{Math} (teams results : list Team)
    (w w' : World) :
  playGroupStage teams w = Ret results w' →
  Forall (fun t => 0 <= wins t ∧ 0 <= losses t
                   ∧ wins t + losses t <= Z.of_nat (length teams) - 1) results.
Proof.
  unfold playGroupStage. cbn zeta. intros Hrun.
  apply bind_Ret in Hrun as (r1 & w1 & Hloops & Hrun).
  apply ret_Ret in Hrun as [<- <-].
  rewrite sortTeamsByPerformance_Permutation.
  rewrite nested_loops in Hloops by lia.
  pose proof Hloops as Hid.
  apply playMatches_trace in Hid as (Hid & _); [|apply seq_pairs_distinct].
  apply (f_equal length) in Hid. rewrite !length_fmap in Hid.
  apply (gamesBound_playMatches _ (fun _ => 0)) in Hloops;
    [|apply seq_pairs_distinct|].
  - apply Forall_lookup. intros k t Hk.
    destruct (Hloops k t Hk) as (Hw & Hl & Hwl).
    split; [exact Hw|]. split; [exact Hl|].
    apply lookup_lt_Some in Hk.
    rewrite schedule_count in Hwl.
    pose proof (length_fmap (fun team => new_Team (name team) (ranking team))
                  teams) as Hn.
    destruct (decide _) as [_|Hout] in Hwl; lia.
  - intros k t Hk. apply list_lookup_fmap_Some in Hk as (t0 & -> & _).
    cbn. lia.
Qed.

(** The witness of [playGroupStage_games_per_team]: the group of two
    teams. *)
Lemma playGroupStage_games_per_team_witness :
  Forall (fun t => 0 <= wins t ∧ 0 <= losses t
                   ∧ wins t + losses t <= Z.of_nat (length twoTeams) - 1)
    twoTeamsTable.
Proof.
  apply (@playGroupStage_games_per_team ratMath twoTeams twoTeamsTable
           (world0 oneNil) twoTeamsWorld).
  vm_compute. reflexivity.
Defined.
